(** * Insertion sort on a singly linked list (src/main.cpp)

    A shallow embedding of the C++ program: the heap of [Node] and [List]
    objects is a pair of finite maps from addresses, a pointer is an optional
    address ([None] is [nullptr]), and every function of the source is a
    computation in a state-and-fault monad.  The two [while] loops take a
    fuel argument; the theorems show how much fuel is enough. *)

From Stdlib Require Import ZArith Lia Ascii DecimalString DecimalZ.
From stdpp Require Import base tactics option list relations sorting gmap strings.

Local Set Warnings "-clear-no-such-hyp".
Local Open Scope Z_scope.

(** ** Data model *)

(** Addresses of heap objects are positive numbers; a [Node*] or [List*] is an
    optional address. *)
Abbreviation ptr := (option positive).

(** [struct Node { int data; Node* next; }].  The sort only compares [data]
    with [<], so the machine [int] is kept as an integer. *)
Record Node := mkNode { data : Z; next : ptr }.

(** [struct List { Node* head; }]. *)
Record List := mkList { head : ptr }.

(** The heap: the [List] objects and the [Node] objects, by address. *)
Record Mem := mkMem { lists : gmap positive List; nodes : gmap positive Node }.

(** What can go wrong: a null pointer is dereferenced, a pointer to no live
    object is dereferenced, or the [assert] of [ListInsertAfter] fires. *)
Inductive fault := NullDeref | BadPointer | AssertFailed.

Inductive res (A : Type) : Type :=
| Ok (a : A) (m : Mem)
| Fault (f : fault)
| Timeout.
Arguments Ok {A} a m.
Arguments Fault {A} f.
Arguments Timeout {A}.

Definition M (A : Type) : Type := Mem -> res A.

Definition ret {A} (a : A) : M A := fun m => Ok a m.

Definition bind {A B} (c : M A) (k : A -> M B) : M B :=
  fun m => match c m with
           | Ok a m' => k a m'
           | Fault f => Fault f
           | Timeout => Timeout
           end.

Declare Scope cpp_scope.
Delimit Scope cpp_scope with cpp.
Notation "x <- c ; k" := (bind c (fun x => k))
  (at level 100, c at next level, right associativity) : cpp_scope.
Notation "c ;; k" := (bind c (fun _ => k))
  (at level 100, right associativity) : cpp_scope.
Local Open Scope cpp_scope.

(** ** Memory accesses *)

(** [list->head] *)
Definition get_head (list : ptr) : M ptr := fun m =>
  match list with
  | None => Fault NullDeref
  | Some l => match lists m !! l with
              | Some L => Ok (head L) m
              | None => Fault BadPointer
              end
  end.

(** [list->head = p] *)
Definition set_head (list : ptr) (p : ptr) : M unit := fun m =>
  match list with
  | None => Fault NullDeref
  | Some l => match lists m !! l with
              | Some _ => Ok tt (mkMem (<[l := mkList p]> (lists m)) (nodes m))
              | None => Fault BadPointer
              end
  end.

(** [p->next] *)
Definition get_next (p : ptr) : M ptr := fun m =>
  match p with
  | None => Fault NullDeref
  | Some a => match nodes m !! a with
              | Some n => Ok (next n) m
              | None => Fault BadPointer
              end
  end.

(** [p->data] *)
Definition get_data (p : ptr) : M Z := fun m =>
  match p with
  | None => Fault NullDeref
  | Some a => match nodes m !! a with
              | Some n => Ok (data n) m
              | None => Fault BadPointer
              end
  end.

(** [p->next = q] *)
Definition set_next (p : ptr) (q : ptr) : M unit := fun m =>
  match p with
  | None => Fault NullDeref
  | Some a => match nodes m !! a with
              | Some n => Ok tt (mkMem (lists m) (<[a := mkNode (data n) q]> (nodes m)))
              | None => Fault BadPointer
              end
  end.

(** ** Basic list operations *)

(** [void ListPrepend(List* list, Node* newNode)] *)
Definition ListPrepend (list : ptr) (newNode : ptr) : M unit :=
  h <- get_head list;
  set_next newNode h;;
  set_head list newNode.

(** [void ListInsertAfter(List*, Node* prev, Node* newNode)]; the first
    statement is [assert(prev != nullptr)]. *)
Definition ListInsertAfter (list : ptr) (prev : ptr) (newNode : ptr) : M unit :=
  match prev with
  | None => fun _ => Fault AssertFailed
  | Some _ =>
      n <- get_next prev;
      set_next newNode n;;
      set_next prev newNode
  end.

(** [Node* ListRemoveAfter(List* list, Node* prev)] *)
Definition ListRemoveAfter (list : ptr) (prev : ptr) : M ptr :=
  match prev with
  | None =>
      nodeToRemove <- get_head list;
      match nodeToRemove with
      | Some _ =>
          n <- get_next nodeToRemove;
          set_head list n;;
          set_next nodeToRemove None;;
          ret nodeToRemove
      | None => ret nodeToRemove
      end
  | Some _ =>
      nodeToRemove <- get_next prev;
      match nodeToRemove with
      | Some _ =>
          n <- get_next nodeToRemove;
          set_next prev n;;
          set_next nodeToRemove None;;
          ret nodeToRemove
      | None => ret nodeToRemove
      end
  end.

(** ** The insertion-point scan *)

(** The loop [while (curr != boundary && curr->data < value)] of
    [FindInsertionSpot], from the cursors [prev] and [curr].  The boundary
    test comes first and short-circuits; [curr] is not tested against
    [nullptr] before [curr->data] is read. *)
Fixpoint FindInsertionSpot_loop (fuel : nat) (value : Z) (boundary : ptr)
    (prev curr : ptr) : M ptr :=
  match fuel with
  | O => fun _ => Timeout
  | S fuel' =>
      if decide (curr = boundary) then ret prev
      else
        d <- get_data curr;
        if d <? value then
          n <- get_next curr;
          FindInsertionSpot_loop fuel' value boundary curr n
        else ret prev
  end.

(** [Node* FindInsertionSpot(const List* list, int value, Node* boundary)] *)
Definition FindInsertionSpot (fuel : nat) (list : ptr) (value : Z)
    (boundary : ptr) : M ptr :=
  curr <- get_head list;
  FindInsertionSpot_loop fuel value boundary None curr.

(** ** The sort driver *)

(** One pass through the body of the [while (curr != nullptr)] loop of
    [ListInsertionSort]; it returns the cursors [prev] and [curr] of the next
    iteration.  [DebugPrint] has an empty body and the trace output is not
    compiled without [TRACE]; neither appears here. *)
Definition ListInsertionSort_body (sfuel : nat) (list : ptr) (prev curr : ptr)
    : M (ptr * ptr) :=
  next <- get_next curr;
  value <- get_data curr;
  spot <- FindInsertionSpot sfuel list value curr;
  if decide (spot = prev) then ret (curr, next)
  else
    ListRemoveAfter list prev;;
    match spot with
    | None => ListPrepend list curr
    | Some _ => ListInsertAfter list spot curr
    end;;
    ret (prev, next).

Fixpoint ListInsertionSort_loop (sfuel fuel : nat) (list : ptr)
    (prev curr : ptr) : M unit :=
  match fuel with
  | O => fun _ => Timeout
  | S fuel' =>
      match curr with
      | None => ret tt
      | Some _ =>
          pc <- ListInsertionSort_body sfuel list prev curr;
          ListInsertionSort_loop sfuel fuel' list pc.1 pc.2
      end
  end.

(** [void ListInsertionSort(List* list)].  The guard
    [!list || !list->head || !list->head->next] returns at once. *)
Definition ListInsertionSort (fuel : nat) (list : ptr) : M unit :=
  match list with
  | None => ret tt
  | Some _ =>
      h <- get_head list;
      match h with
      | None => ret tt
      | Some _ =>
          n <- get_next h;
          match n with
          | None => ret tt
          | Some _ =>
              prev <- get_head list;
              curr <- get_next prev;
              ListInsertionSort_loop fuel fuel list prev curr
          end
      end
  end.

(** ** Reading a list off the heap *)

(** [lseg nm p l q]: following [next] from [p] visits exactly the nodes [l],
    in this order, and then arrives at [q]. *)
Fixpoint lseg (nm : gmap positive Node) (p : ptr) (l : list positive) (q : ptr) : Prop :=
  match l with
  | [] => p = q
  | a :: l' => p = Some a /\ exists n, nm !! a = Some n /\ lseg nm (next n) l' q
  end.

(** A finite acyclic chain: after [l] the chain reaches [nullptr]. *)
Definition is_list (nm : gmap positive Node) (p : ptr) (l : list positive) : Prop :=
  lseg nm p l None.

(** The list object at [lst] heads the chain of nodes [l]. *)
Definition list_at (m : Mem) (lst : positive) (l : list positive) : Prop :=
  exists L, lists m !! lst = Some L /\ is_list (nodes m) (head L) l.

(** The value stored in a node (0 for an address with no node). *)
Definition node_data (m : Mem) (a : positive) : Z :=
  match nodes m !! a with Some n => data n | None => 0 end.

Definition node_next (m : Mem) (a : positive) : ptr :=
  match nodes m !! a with Some n => next n | None => None end.

(** The executable counterpart of [is_list]: walk at most [fuel] nodes. *)
Fixpoint walk (fuel : nat) (nm : gmap positive Node) (p : ptr) : option (list positive) :=
  match p with
  | None => Some []
  | Some a =>
      match fuel with
      | O => None
      | S fuel' =>
          match nm !! a with
          | Some n => match walk fuel' nm (next n) with
                      | Some l => Some (a :: l)
                      | None => None
                      end
          | None => None
          end
      end
  end.

(** The nodes of the list at [lst], in order, when the chain is finite. *)
Definition nodes_of (fuel : nat) (m : Mem) (lst : positive) : option (list positive) :=
  match lists m !! lst with
  | Some L => walk fuel (nodes m) (head L)
  | None => None
  end.

(** ** A heap for examples: nodes at addresses 10, 11, ... *)

Fixpoint chain_nodes (a : positive) (vs : list Z) : gmap positive Node :=
  match vs with
  | [] => ∅
  | v :: vs' =>
      <[a := mkNode v (match vs' with [] => None | _ => Some (Pos.succ a) end)]>
        (chain_nodes (Pos.succ a) vs')
  end.

(** A heap of the shape [main] builds with [PushBack]: one [List] at address 1
    whose nodes hold [vs] in this order, the first node at address 10. *)
Definition heap_of (vs : list Z) : Mem :=
  mkMem {[ 1%positive := mkList (match vs with [] => None | _ => Some 10%positive end) ]}
        (chain_nodes 10 vs).

(** The heap [m] with one more node at [a], holding [v] and linked to
    nothing. *)
Definition with_spare (m : Mem) (a : positive) (v : Z) : Mem :=
  mkMem (lists m) (<[a := mkNode v None]> (nodes m)).

Definition run_sort (vs : list Z) : option (list positive) :=
  match ListInsertionSort (length vs) (Some 1%positive) (heap_of vs) with
  | Ok _ m => nodes_of (length vs) m 1
  | _ => None
  end.

(** ** What the scan does, in the words of the specification *)

(** The nodes the scan advances past: the longest prefix of the chain whose
    nodes are all different from [boundary] and hold a value strictly less
    than [value]. *)
Fixpoint scan_prefix (m : Mem) (value : Z) (boundary : ptr) (l : list positive)
    : list positive :=
  match l with
  | [] => []
  | a :: l' =>
      if decide (Some a = boundary) then []
      else if node_data m a <? value then a :: scan_prefix m value boundary l'
      else []
  end.

(** ** The sort on the sequence of nodes *)

(** Where the driver puts node [c] in the sorted prefix [P]: after the nodes
    whose value is strictly less than the value of [c], that is, in front of
    the first node whose value is not. *)
Fixpoint place (d : positive -> Z) (c : positive) (P : list positive) : list positive :=
  match P with
  | [] => [c]
  | a :: P' => if d a <? d c then a :: place d c P' else c :: a :: P'
  end.

(** The sorted prefix after the nodes [R] have been placed one by one. *)
Definition place_all (d : positive -> Z) (P R : list positive) : list positive :=
  foldl (fun acc c => place d c acc) P R.

(** Adjacent nodes hold non-decreasing values. *)
Definition sorted_chain (d : positive -> Z) (l : list positive) : Prop :=
  forall (i : nat) (a b : positive),
    l !! i = Some a -> l !! S i = Some b -> d a <= d b.

(** Two heaps hold the same nodes with the same values; only [next] fields
    may differ.  The sort never allocates, frees or rewrites a value. *)
Definition same_values (m m' : Mem) : Prop :=
  data <$> nodes m' = data <$> nodes m.

(** ** The driver loop as a step relation *)

(** The state at the top of the [while] loop: the heap and the cursors [prev]
    and [curr]. *)
Record loop_state := LoopState { ls_mem : Mem; ls_prev : ptr; ls_curr : ptr }.

(** One iteration: the loop test [curr != nullptr] holds and the body runs to
    its end. *)
Inductive loop_step (sfuel : nat) (list : ptr) : loop_state -> loop_state -> Prop :=
| loop_step_body m prev c prev' curr' m' :
    ListInsertionSort_body sfuel list prev (Some c) m = Ok (prev', curr') m' ->
    loop_step sfuel list (LoopState m prev (Some c)) (LoopState m' prev' curr').

(** The states at the iteration boundaries of a run that entered the loop in
    state [s0]. *)
Definition loop_reaches (sfuel : nat) (list : ptr) (s0 s : loop_state) : Prop :=
  rtc (loop_step sfuel list) s0 s.

(** What holds of the state at every iteration boundary, for a run on the
    chain [l0]: the chain is a sorted prefix ending at [prev] followed by the
    not yet visited nodes, which are a suffix of [l0] starting at [curr]; the
    prefix holds the nodes of [l0] visited so far, and no value has changed
    since the heap [m0] at loop entry. *)
Definition loop_inv (lst : positive) (m0 : Mem) (l0 : list positive)
    (s : loop_state) : Prop :=
  exists P p R,
    list_at (ls_mem s) lst (P ++ p :: R) /\
    ls_prev s = Some p /\
    ls_curr s = hd_error R /\
    sorted_chain (node_data (ls_mem s)) (P ++ [p]) /\
    (exists done, l0 = done ++ R /\ P ++ [p] ≡ₚ done) /\
    same_values m0 (ls_mem s) /\
    length (P ++ p :: R) = length l0.

(** ** The rest of main.cpp: building, printing and freeing a list *)

(** [new Node(d)]: a node at an address that holds no node, with [data = d]
    and [next = nullptr] (the constructor of [Node]).  The choice of the
    address is left to [alloc]; the theorems only assume that it is free.
    Running out of memory is not modelled. *)
Definition new_Node (alloc : Mem -> positive) (d : Z) : M ptr := fun m =>
  Ok (Some (alloc m)) (mkMem (lists m) (<[alloc m := mkNode d None]> (nodes m))).

(** An allocator for the examples: the least address above those in use. *)
Definition next_free (m : Mem) : positive := fresh (dom (nodes m)).

(** [delete p]: the node is gone from the heap; [delete nullptr] does
    nothing, deleting what is not there is a fault. *)
Definition delete_Node (p : ptr) : M unit := fun m =>
  match p with
  | None => Ok tt m
  | Some a => match nodes m !! a with
              | Some _ => Ok tt (mkMem (lists m) (delete a (nodes m)))
              | None => Fault BadPointer
              end
  end.

(** The loop [while (curr->next) curr = curr->next;] of [PushBack]; it
    returns the final [curr]. *)
Fixpoint PushBack_loop (fuel : nat) (curr : ptr) : M ptr :=
  match fuel with
  | O => fun _ => Timeout
  | S fuel' =>
      n <- get_next curr;
      match n with
      | Some _ => PushBack_loop fuel' n
      | None => ret curr
      end
  end.

(** [void PushBack(List* list, int data)] *)
Definition PushBack (alloc : Mem -> positive) (fuel : nat) (list : ptr) (d : Z)
    : M unit :=
  n <- new_Node alloc d;
  h <- get_head list;
  match h with
  | None => set_head list n
  | Some _ =>
      curr <- get_head list;
      curr' <- PushBack_loop fuel curr;
      set_next curr' n
  end.

(** [std::to_string(int)], and what [std::cout << int] writes: the decimal
    digits, after a minus sign for a negative number. *)
Definition to_string (z : Z) : string := NilZero.string_of_int (Z.to_int z).

(** The loop of [PrintList] from the cursor [curr]; the result is the text
    written to [std::cout]. *)
Fixpoint PrintList_loop (fuel : nat) (curr : ptr) : M string :=
  match fuel with
  | O => fun _ => Timeout
  | S fuel' =>
      match curr with
      | None => ret ""
      | Some _ =>
          d <- get_data curr;
          n <- get_next curr;
          rest <- PrintList_loop fuel' n;
          ret (to_string d +:+ (match n with Some _ => " -> " | None => "" end) +:+ rest)
      end
  end.

(** [void PrintList(const List* list)]; the last character written is the
    newline. *)
Definition PrintList (fuel : nat) (list : ptr) : M string :=
  curr <- get_head list;
  out <- PrintList_loop fuel curr;
  ret (out +:+ String "010"%char "").

(** The clean-up loop at the end of [main]:
    [while (curr != nullptr) { to_delete = curr; curr = curr->next; delete to_delete; }] *)
Fixpoint main_cleanup_loop (fuel : nat) (curr : ptr) : M unit :=
  match fuel with
  | O => fun _ => Timeout
  | S fuel' =>
      match curr with
      | None => ret tt
      | Some _ =>
          n <- get_next curr;
          delete_Node curr;;
          main_cleanup_loop fuel' n
      end
  end.

(** The calls [PushBack(&mylist, v)] for the values [vs], one after the
    other, as [main] makes them for 39, 45, 11 and 22. *)
Fixpoint PushBack_all (alloc : Mem -> positive) (fuel : nat) (list : ptr)
    (vs : Datatypes.list Z) : M unit :=
  match vs with
  | [] => ret tt
  | v :: vs' => PushBack alloc fuel list v;; PushBack_all alloc fuel list vs'
  end.

(** The text [PrintList] writes for a list holding the values [vs]. *)
Definition arrows (vs : list Z) : string :=
  String.concat " -> " (to_string <$> vs) +:+ String "010"%char "".

(** ** include/trace_ui.hpp: the trace display *)

(** [std::string] is a string of bytes, and [size_t] a natural number (no
    size in the code comes near its upper bound). *)
Module traceui.

(** The escape character ['\x1b']. *)
Definition ESC : ascii := "027"%char.

(** The loop of [strip_ansi] from the flag [in_escape]: the characters kept
    are those outside an escape sequence, which runs from [ESC] to the next
    ['m']. *)
Fixpoint strip_ansi_from (in_escape : bool) (s : string) : string :=
  match s with
  | EmptyString => EmptyString
  | String c s' =>
      if Ascii.eqb c ESC then strip_ansi_from true s'
      else if in_escape && Ascii.eqb c "m" then strip_ansi_from false s'
      else if negb in_escape then String c (strip_ansi_from in_escape s')
      else strip_ansi_from in_escape s'
  end.

(** [std::string strip_ansi(const std::string& s)] *)
Definition strip_ansi (s : string) : string := strip_ansi_from false s.

(** [struct Term]; [color] is set from [isatty] when the program starts. *)
Record Term := mkTerm { color : bool }.

Definition reset (T : Term) : string := if color T then String ESC "[0m" else "".
Definition bold (T : Term) : string := if color T then String ESC "[1m" else "".
Definition dim (T : Term) : string := if color T then String ESC "[2m" else "".
Definition fg (T : Term) (c : Z) : string :=
  if color T then String ESC "[38;5;" +:+ to_string c +:+ "m" else "".
Definition bg (T : Term) (c : Z) : string :=
  if color T then String ESC "[48;5;" +:+ to_string c +:+ "m" else "".

(** The palette. *)
Definition C_HEAD : Z := 51.
Definition C_PREV : Z := 226.
Definition C_CURR : Z := 196.
Definition C_NEXT : Z := 213.
Definition C_SPOT : Z := 46.
Definition C_TEXT : Z := 252.
Definition C_BORDER : Z := 244.
Definition C_TITLE : Z := 255.

(** [std::string repeat(const std::string& s, size_t n)] *)
Fixpoint repeat (s : string) (n : nat) : string :=
  match n with
  | O => ""
  | Datatypes.S n' => s +:+ repeat s n'
  end.

Definition boxTop (T : Term) (w : nat) : string :=
  fg T C_BORDER +:+ "┌" +:+ repeat "─" w +:+ "┐" +:+ reset T.

Definition boxBottom (T : Term) (w : nat) : string :=
  fg T C_BORDER +:+ "└" +:+ repeat "─" w +:+ "┘" +:+ reset T.

Definition boxDivider (T : Term) (w : nat) : string :=
  fg T C_BORDER +:+ "├" +:+ repeat "─" w +:+ "┤" +:+ reset T.

(** [std::string boxMid(const std::string& s, size_t w)] *)
Definition boxMid (T : Term) (s : string) (w : nat) : string :=
  let visible_len := String.length (strip_ansi s) in
  let pad := if (visible_len <? w)%nat then repeat " " (w - visible_len) else "" in
  fg T C_BORDER +:+ "│ " +:+ reset T +:+ s +:+ pad +:+ fg T C_BORDER +:+ " │" +:+ reset T.

(** [int colorForRole(char role)] *)
Definition colorForRole (role : ascii) : Z :=
  if Ascii.eqb role "H" then C_HEAD
  else if Ascii.eqb role "P" then C_PREV
  else if Ascii.eqb role "C" then C_CURR
  else if Ascii.eqb role "N" then C_NEXT
  else if Ascii.eqb role "S" then C_SPOT
  else C_TEXT.

(** [struct PtrRoles]: the nodes that are head, prev, curr, next and spot. *)
Record PtrRoles := mkPtrRoles { H : ptr; P : ptr; C : ptr; N : ptr; S : ptr }.

(** [int roleColor(const Node* p, const PtrRoles<Node>& R)] *)
Definition roleColor (p : ptr) (R : PtrRoles) : Z :=
  if decide (p = C R) then C_CURR
  else if decide (p = S R) then C_SPOT
  else if decide (p = P R) then C_PREV
  else if decide (p = N R) then C_NEXT
  else if decide (p = H R) then C_HEAD
  else C_TEXT.

(** [std::vector<char> getRoles(const Node* p, const PtrRoles<Node>& R)] *)
Definition getRoles (p : ptr) (R : PtrRoles) : list ascii :=
  (if decide (p = H R) then ["H"%char] else []) ++
  (if decide (p = P R) then ["P"%char] else []) ++
  (if decide (p = C R) then ["C"%char] else []) ++
  (if decide (p = N R) then ["N"%char] else []) ++
  (if decide (p = S R) then ["S"%char] else []).

(** The loop of [roleLabel]; [first] says that [i] is 0. *)
Fixpoint roleLabel_loop (T : Term) (first : bool) (roles : list ascii) : string :=
  match roles with
  | [] => ""
  | r :: roles' =>
      (if first then "" else fg T C_TEXT +:+ "/" +:+ reset T) +:+
      fg T (colorForRole r) +:+ bold T +:+ String r "" +:+ reset T +:+
      roleLabel_loop T false roles'
  end.

(** [std::string roleLabel(const Node* p, const PtrRoles<Node>& R)] *)
Definition roleLabel (T : Term) (p : ptr) (R : PtrRoles) : string :=
  match getRoles p R with
  | [] => " "
  | roles => roleLabel_loop T true roles
  end.

Fixpoint roleLabelPlain_loop (first : bool) (roles : list ascii) : string :=
  match roles with
  | [] => ""
  | r :: roles' =>
      (if first then "" else "/") +:+ String r "" +:+ roleLabelPlain_loop false roles'
  end.

(** [std::string roleLabelPlain(const Node* p, const PtrRoles<Node>& R)] *)
Definition roleLabelPlain (p : ptr) (R : PtrRoles) : string :=
  match getRoles p R with
  | [] => " "
  | roles => roleLabelPlain_loop true roles
  end.

(** [std::string buildLegend()] *)
Definition buildLegend (T : Term) : string :=
  fg T C_HEAD +:+ bold T +:+ "H" +:+ reset T +:+ dim T +:+ "=head " +:+ reset T +:+
  fg T C_PREV +:+ bold T +:+ "P" +:+ reset T +:+ dim T +:+ "=prev " +:+ reset T +:+
  fg T C_CURR +:+ bold T +:+ "C" +:+ reset T +:+ dim T +:+ "=curr " +:+ reset T +:+
  fg T C_NEXT +:+ bold T +:+ "N" +:+ reset T +:+ dim T +:+ "=next " +:+ reset T +:+
  fg T C_SPOT +:+ bold T +:+ "S" +:+ reset T +:+ dim T +:+ "=spot" +:+ reset T.

(** The first loop of [print_state], from the node [p]: the nodes in list
    order and, for each, its box ["[value]"], followed by [" -> "] when a
    node comes after it.  The values and links are read with the accessors of
    the convenience overload, [n->data] and [n->next]. *)
Fixpoint print_state_scan (fuel : nat) (p : ptr) : M (list ptr * list string) :=
  match fuel with
  | O => fun _ => Timeout
  | Datatypes.S fuel' =>
      match p with
      | None => ret ([], [])
      | Some _ =>
          v <- get_data p;
          n <- get_next p;
          rest <- print_state_scan fuel' n;
          ret (p :: rest.1,
               ("[" +:+ to_string v +:+ "]" +:+
                (match n with Some _ => " -> " | None => "" end)) :: rest.2)
      end
  end.

(** The loop that builds [line1]: every token in the colour of its node. *)
Fixpoint print_state_line1 (T : Term) (R : PtrRoles) (order : list ptr)
    (tokens : list string) : string :=
  match order, tokens with
  | node :: order', token :: tokens' =>
      fg T (roleColor node R) +:+ bold T +:+ token +:+ reset T +:+
      print_state_line1 T R order' tokens'
  | _, _ => ""
  end.

(** The loop that builds [line2] and [line2_plain]: under every node its
    label, centred under the value; [std::string(n, ' ')] is [repeat " " n].
    The entry for the empty list has no node and is skipped. *)
Fixpoint print_state_labels (T : Term) (R : PtrRoles) (order : list ptr)
    (tokens : list string) : M (string * string) :=
  match order, tokens with
  | node :: order', token :: tokens' =>
      match node with
      | None => print_state_labels T R order' tokens'
      | Some _ =>
          let label := roleLabel T node R in
          let label_plain := roleLabelPlain node R in
          let w := String.length token in
          let label_len := String.length label_plain in
          v <- get_data node;
          let val_str := to_string v in
          let box_width := (String.length val_str + 2)%nat in
          let center := (box_width / 2)%nat in
          let pad_left :=
            if (label_len / 2 <=? center)%nat then (center - label_len / 2)%nat else 0%nat in
          let pad_right :=
            if (pad_left + label_len <? w)%nat then (w - pad_left - label_len)%nat
            else 0%nat in
          rest <- print_state_labels T R order' tokens';
          ret (repeat " " pad_left +:+ label +:+ repeat " " pad_right +:+ rest.1,
               repeat " " pad_left +:+ label_plain +:+ repeat " " pad_right +:+ rest.2)
      end
  | _, _ => ret ("", "")
  end.

(** The rows [print_state] writes, from top to bottom, each without its
    newline. *)
Definition print_state_rows (T : Term) (fuel : nat) (title : string) (head : ptr)
    (R : PtrRoles) (isolated : ptr) : M (list string) :=
  scanned <- print_state_scan fuel head;
  let order := match scanned.2 with [] => [None] | _ => scanned.1 end in
  let tokens := match scanned.2 with [] => ["(empty)"] | _ => scanned.2 end in
  let line1 := "  " +:+ print_state_line1 T R order tokens in
  labels <- print_state_labels T R order tokens;
  let line2 := "  " +:+ labels.1 in
  let line2_plain := "  " +:+ labels.2 in
  let legend := buildLegend T in
  let w := Nat.max (String.length (strip_ansi line1))
             (Nat.max (String.length line2_plain)
                (Nat.max (String.length title) (String.length (strip_ansi legend)))) in
  match isolated with
  | None =>
      ret [ boxTop T (w + 2);
            boxMid T (fg T C_TITLE +:+ bold T +:+ title +:+ reset T) w;
            boxDivider T (w + 2);
            boxMid T line1 w;
            boxMid T line2 w;
            boxDivider T (w + 2);
            boxMid T legend w;
            boxBottom T (w + 2) ]
  | Some _ =>
      v <- get_data isolated;
      let isolatedLine :=
        fg T C_CURR +:+ bold T +:+ "C" +:+ reset T +:+ dim T +:+ " (isolated): " +:+
        reset T +:+ fg T C_CURR +:+ bold T +:+ "[" +:+ to_string v +:+ "]" +:+ reset T in
      let isolatedPlain := "C (isolated): [" +:+ to_string v +:+ "]" in
      let w := Nat.max w (String.length isolatedPlain) in
      ret [ boxTop T (w + 2);
            boxMid T (fg T C_TITLE +:+ bold T +:+ title +:+ reset T) w;
            boxDivider T (w + 2);
            boxMid T line1 w;
            boxMid T line2 w;
            boxMid T isolatedLine w;
            boxDivider T (w + 2);
            boxMid T legend w;
            boxBottom T (w + 2) ]
  end.

(** What [std::cout] receives for the rows: each row and a newline. *)
Fixpoint write_rows (rows : list string) : string :=
  match rows with
  | [] => ""
  | row :: rows' => row +:+ String "010"%char "" +:+ write_rows rows'
  end.

(** [void print_state(const char* title, const Node* head,
    const PtrRoles<Node>& R, const Node* isolated)]; the result is the text
    written to [std::cout]: an empty line, then the rows. *)
Definition print_state (T : Term) (fuel : nat) (title : string) (head : ptr)
    (R : PtrRoles) (isolated : ptr) : M string :=
  rows <- print_state_rows T fuel title head R isolated;
  ret (String "010"%char "" +:+ write_rows rows).

End traceui.

(** ** The sort compiled with TRACE *)

(** The body of the loop of [ListInsertionSort] when [TRACE] is defined: the
    same statements with the calls of [traceui::print_state] between them.
    The result is the text written and the cursors of the next iteration. *)
Definition ListInsertionSort_body_TRACE (T : traceui.Term) (sfuel : nat) (list : ptr)
    (prev curr : ptr) : M (string * (ptr * ptr)) :=
  next <- get_next curr;
  value <- get_data curr;
  spot <- FindInsertionSpot sfuel list value curr;
  h <- get_head list;
  h' <- get_head list;
  out1 <- traceui.print_state T sfuel "BEFORE place" h
            (traceui.mkPtrRoles h' prev curr next spot) None;
  if decide (spot = prev) then ret (out1, (curr, next))
  else
    ListRemoveAfter list prev;;
    h <- get_head list;
    h' <- get_head list;
    out2 <- traceui.print_state T sfuel "AFTER unlink" h
              (traceui.mkPtrRoles h' prev curr next spot) curr;
    match spot with
    | None =>
        ListPrepend list curr;;
        h <- get_head list;
        h' <- get_head list;
        out3 <- traceui.print_state T sfuel "AFTER insert (at head)" h
                  (traceui.mkPtrRoles h' prev curr next spot) None;
        ret (out1 +:+ out2 +:+ out3, (prev, next))
    | Some _ =>
        ListInsertAfter list spot curr;;
        h <- get_head list;
        h' <- get_head list;
        out3 <- traceui.print_state T sfuel "AFTER insert at spot" h
                  (traceui.mkPtrRoles h' prev curr next spot) None;
        ret (out1 +:+ out2 +:+ out3, (prev, next))
    end.

Fixpoint ListInsertionSort_loop_TRACE (T : traceui.Term) (sfuel fuel : nat) (list : ptr)
    (prev curr : ptr) : M string :=
  match fuel with
  | O => fun _ => Timeout
  | S fuel' =>
      match curr with
      | None => ret ""
      | Some _ =>
          r <- ListInsertionSort_body_TRACE T sfuel list prev curr;
          rest <- ListInsertionSort_loop_TRACE T sfuel fuel' list r.2.1 r.2.2;
          ret (r.1 +:+ rest)
      end
  end.

(** [void ListInsertionSort(List* list)] compiled with [TRACE]; the result is
    the text written to [std::cout]. *)
Definition ListInsertionSort_TRACE (T : traceui.Term) (fuel : nat) (list : ptr)
    : M string :=
  match list with
  | None => ret ""
  | Some _ =>
      h <- get_head list;
      match h with
      | None => ret ""
      | Some _ =>
          n <- get_next h;
          match n with
          | None => ret ""
          | Some _ =>
              prev <- get_head list;
              curr <- get_next prev;
              ListInsertionSort_loop_TRACE T fuel fuel list prev curr
          end
      end
  end.

(** ** Notions used to state the properties of the trace display *)

(** The characters of a string, in order. *)
Definition chars (s : string) : list ascii := String.list_ascii_of_string s.

(** The flag [in_escape] of the loop of [strip_ansi] once it has read [s]. *)
Fixpoint escape_after (in_escape : bool) (s : string) : bool :=
  match s with
  | EmptyString => in_escape
  | String c s' =>
      if Ascii.eqb c traceui.ESC then escape_after true s'
      else if in_escape && Ascii.eqb c "m" then escape_after false s'
      else escape_after in_escape s'
  end.

(** Every escape sequence of [s] is closed by its ['m']. *)
Definition escapes_closed (s : string) : Prop := escape_after false s = false.

(** Plain text: bytes below 128 and no [ESC]; each is one column wide. *)
Definition plain_text (s : string) : Prop :=
  forall c, c ∈ chars s -> c ≠ traceui.ESC /\ (nat_of_ascii c < 128)%nat.

(** The width of a text on the terminal, for UTF-8 text without wide or
    combining characters: the bytes that do not continue a character. *)
Definition continuation_byte (c : ascii) : bool :=
  ((128 <=? nat_of_ascii c) && (nat_of_ascii c <? 192))%nat.

Fixpoint columns (s : string) : nat :=
  match s with
  | EmptyString => O
  | String c s' =>
      if continuation_byte c then columns s' else Datatypes.S (columns s')
  end.

(** ** The footprint of a run *)


(** ** The scenarios of the specification *)

(** [39, 45, 11, 22] comes out as [11, 22, 39, 45]: the nodes of 11 and 22
    first, then those of 39 and 45. *)
Example main_scenario : run_sort [39; 45; 11; 22] = Some [12; 13; 10; 11]%positive.
Proof. vm_compute. reflexivity. Qed.

(** [5a, 3, 5b] comes out with the node of [5b] in front of the node of [5a]. *)
Example dup_scenario : run_sort [5; 3; 5] = Some [11; 12; 10]%positive.
Proof. vm_compute. reflexivity. Qed.

(** ** Lemmas on chains *)

Section Chains.
Implicit Types (nm : gmap positive Node) (p q : ptr) (l : list positive).

Lemma lseg_app nm p l1 l2 q :
  lseg nm p (l1 ++ l2) q <-> exists r, lseg nm p l1 r /\ lseg nm r l2 q.
Proof.
  revert p. induction l1 as [|a l1 IH]; intros p; simpl.
  - split; [intros H; exists p; auto | intros (r & -> & H); exact H].
  - split.
    + intros (-> & n & Hn & H). apply IH in H as (r & H1 & H2).
      exists r. split; [|exact H2]. split; [reflexivity|]. exists n. auto.
    + intros (r & (-> & n & Hn & H1) & H2). split; [reflexivity|].
      exists n. split; [exact Hn|]. apply IH. exists r. auto.
Qed.

Lemma lseg_frame nm p l q a n :
  a ∉ l -> lseg nm p l q -> lseg (<[a := n]> nm) p l q.
Proof.
  revert p. induction l as [|b l IH]; intros p Ha; simpl; [auto|].
  intros (-> & nb & Hb & H). split; [reflexivity|]. exists nb.
  apply not_elem_of_cons in Ha as [Hab Ha].
  rewrite lookup_insert_ne by congruence. auto.
Qed.

Lemma lseg_inj nm p l1 l2 : is_list nm p l1 -> is_list nm p l2 -> l1 = l2.
Proof.
  unfold is_list. revert p l2. induction l1 as [|a l1 IH]; intros p [|b l2]; simpl.
  - reflexivity.
  - intros -> (? & _); discriminate.
  - intros (-> & _) ?; discriminate.
  - intros (-> & n & Hn & H1) (Heq & n' & Hn' & H2).
    injection Heq as <-. rewrite Hn in Hn'. injection Hn' as <-.
    f_equal. eapply IH; eauto.
Qed.

Lemma is_list_NoDup nm p l : is_list nm p l -> NoDup l.
Proof.
  revert p. induction l as [|a l IH]; intros p; [constructor|].
  intros H. pose proof H as (-> & n & Hn & Hl). fold (is_list nm (next n) l) in Hl.
  constructor; [|eapply IH; eauto].
  intros Hin. apply list_elem_of_split in Hin as (l1 & l2 & ->).
  pose proof Hl as Hl'. apply lseg_app in Hl' as (r & _ & Hr).
  pose proof Hr as (-> & _).
  pose proof (lseg_inj _ _ _ _ H Hr) as Heq.
  apply (f_equal length) in Heq. simpl in Heq. rewrite length_app in Heq.
  simpl in Heq. lia.
Qed.

Lemma lseg_lookup nm p l q a : lseg nm p l q -> a ∈ l -> is_Some (nm !! a).
Proof.
  revert p. induction l as [|b l IH]; intros p; simpl.
  - intros _ Hin. apply elem_of_nil in Hin as [].
  - intros (-> & n & Hn & H) Hin. apply elem_of_cons in Hin as [->|Hin]; eauto.
Qed.

Lemma lseg_head nm p l q : lseg nm p l q -> l ≠ [] -> p = hd_error l.
Proof. destruct l; simpl; [congruence|]. intros (-> & _) _. reflexivity. Qed.

Lemma lseg_snoc nm p l a q :
  lseg nm p (l ++ [a]) q <->
  lseg nm p l (Some a) /\ exists n, nm !! a = Some n /\ next n = q.
Proof.
  rewrite lseg_app. simpl. split.
  - intros (r & H1 & -> & n & Hn & Hq). eauto.
  - intros (H1 & n & Hn & Hq). exists (Some a). eauto.
Qed.

Lemma walk_is_list fuel nm p l : walk fuel nm p = Some l -> is_list nm p l.
Proof.
  unfold is_list. revert p l. induction fuel as [|fuel IH]; intros [a|] l; simpl.
  - discriminate.
  - intros [= <-]. reflexivity.
  - destruct (nm !! a) as [n|] eqn:Hn; [|discriminate].
    destruct (walk fuel nm (next n)) as [l'|] eqn:Hw; [|discriminate].
    intros [= <-]. simpl. split; [reflexivity|]. exists n. eauto.
  - intros [= <-]. reflexivity.
Qed.

Lemma is_list_walk fuel nm p l :
  is_list nm p l -> (length l <= fuel)%nat -> walk fuel nm p = Some l.
Proof.
  unfold is_list. revert p fuel. induction l as [|a l IH]; intros p fuel; simpl.
  - intros -> _. destruct fuel; reflexivity.
  - intros (-> & n & Hn & H) Hlen. destruct fuel as [|fuel]; [lia|].
    simpl. rewrite Hn. rewrite (IH _ fuel H) by lia. reflexivity.
Qed.
End Chains.

Lemma list_at_inj m lst l1 l2 : list_at m lst l1 -> list_at m lst l2 -> l1 = l2.
Proof.
  intros (L & HL & H1) (L' & HL' & H2). rewrite HL in HL'. injection HL' as <-.
  eapply lseg_inj; eauto.
Qed.

Lemma list_at_NoDup m lst l : list_at m lst l -> NoDup l.
Proof. intros (L & _ & H). eapply is_list_NoDup; eauto. Qed.

Lemma node_data_lookup m a n : nodes m !! a = Some n -> node_data m a = data n.
Proof. unfold node_data. intros ->. reflexivity. Qed.

Lemma node_next_lookup m a n : nodes m !! a = Some n -> node_next m a = next n.
Proof. unfold node_next. intros ->. reflexivity. Qed.

(** ** The scan *)

Lemma scan_prefix_length m v b l : (length (scan_prefix m v b l) <= length l)%nat.
Proof.
  induction l as [|a l IH]; simpl; [lia|].
  destruct (decide (Some a = b)); simpl; [lia|].
  destruct (node_data m a <? v); simpl; lia.
Qed.

Lemma last_cons_from {A} (x : A) (l : list A) (o : option A) :
  from_option Some o (last (x :: l)) = from_option Some (Some x) (last l).
Proof. destruct l as [|y l]; [reflexivity|]. rewrite last_cons_cons.
  destruct (last (y :: l)) eqn:E; [reflexivity|].
  apply last_None in E. discriminate. Qed.

Lemma scan_loop_spec m v b l : forall fuel prev curr,
  is_list (nodes m) curr l ->
  (length (scan_prefix m v b l) < fuel)%nat ->
  FindInsertionSpot_loop fuel v b prev curr m =
    if decide (scan_prefix m v b l = l /\ b ≠ None) then Fault NullDeref
    else Ok (from_option Some prev (last (scan_prefix m v b l))) m.
Proof.
  unfold is_list. induction l as [|a l IH]; intros fuel prev curr; simpl.
  - intros -> Hf. destruct fuel as [|fuel]; [lia|]. simpl.
    destruct (decide (None = b)) as [<-|Hb].
    + rewrite decide_False by (intros [_ ?]; congruence). reflexivity.
    + rewrite decide_True by (split; congruence).
      unfold bind, get_data. reflexivity.
  - intros (-> & n & Hn & Hl) Hf. destruct fuel as [|fuel]; [lia|]. simpl.
    destruct (decide (Some a = b)) as [Hab|Hab].
    + rewrite decide_False by (intros [? _]; discriminate). reflexivity.
    + unfold bind at 1. unfold get_data at 1. rewrite Hn.
      rewrite (node_data_lookup _ _ _ Hn) in *.
      destruct (data n <? v) eqn:Hlt.
      * unfold bind, get_next. rewrite Hn. simpl in Hf.
        rewrite (IH fuel (Some a) (next n) Hl) by lia.
        rewrite last_cons_from.
        destruct (decide (scan_prefix m v b l = l /\ b ≠ None)) as [[He Hb]|Hne].
        -- rewrite decide_True by (split; congruence). reflexivity.
        -- rewrite decide_False; [reflexivity|].
           intros [He Hb]. apply Hne. split; congruence.
      * rewrite decide_False by (intros [? _]; discriminate). reflexivity.
Qed.

Lemma FindInsertionSpot_spec m lst l v b fuel :
  list_at m lst l ->
  (length (scan_prefix m v b l) < fuel)%nat ->
  FindInsertionSpot fuel (Some lst) v b m =
    if decide (scan_prefix m v b l = l /\ b ≠ None) then Fault NullDeref
    else Ok (last (scan_prefix m v b l)) m.
Proof.
  intros (L & HL & Hl) Hf. unfold FindInsertionSpot, bind, get_head. rewrite HL.
  rewrite (scan_loop_spec m v b l fuel None (head L) Hl Hf).
  destruct (last (scan_prefix m v b l)); reflexivity.
Qed.

(** ** More on the scan: fuel and the boundary *)

Lemma scan_loop_timeout m v b l : forall fuel prev curr,
  is_list (nodes m) curr l ->
  (fuel <= length (scan_prefix m v b l))%nat ->
  FindInsertionSpot_loop fuel v b prev curr m = Timeout.
Proof.
  unfold is_list. induction l as [|a l IH]; intros fuel prev curr; simpl.
  - intros _ Hf. destruct fuel; [reflexivity|lia].
  - intros (-> & n & Hn & Hl) Hf. destruct fuel as [|fuel]; [reflexivity|].
    simpl. destruct (decide (Some a = b)) as [Hab|Hab]; [simpl in Hf; lia|].
    unfold bind at 1. unfold get_data at 1. rewrite Hn.
    rewrite (node_data_lookup _ _ _ Hn) in Hf.
    destruct (data n <? v); [|simpl in Hf; lia].
    unfold bind, get_next. rewrite Hn. simpl in Hf. apply IH; [exact Hl|lia].
Qed.

Lemma scan_prefix_boundary m v a l : a ∉ scan_prefix m v (Some a) l.
Proof.
  induction l as [|x l IH]; simpl; [apply not_elem_of_nil|].
  destruct (decide (Some x = Some a)) as [E|E]; [apply not_elem_of_nil|].
  destruct (node_data m x <? v); [|apply not_elem_of_nil].
  apply not_elem_of_cons. split; [congruence|exact IH].
Qed.

Lemma scan_prefix_all m v b l :
  (forall x, x ∈ l -> Some x ≠ b /\ node_data m x < v) -> scan_prefix m v b l = l.
Proof.
  induction l as [|x l IH]; intros H; simpl; [reflexivity|].
  destruct (H x) as [Hx Hlt]; [left|].
  rewrite decide_False by exact Hx.
  apply Z.ltb_lt in Hlt. rewrite Hlt. f_equal. apply IH.
  intros y Hy. apply H. right. exact Hy.
Qed.

(** ** The primitives on chains *)

Lemma same_values_refl m : same_values m m.
Proof. reflexivity. Qed.

Lemma same_values_trans m1 m2 m3 :
  same_values m1 m2 -> same_values m2 m3 -> same_values m1 m3.
Proof. unfold same_values. congruence. Qed.

Lemma same_values_data m m' a : same_values m m' -> node_data m' a = node_data m a.
Proof.
  intros H. apply (f_equal (fun f => f !! a)) in H. rewrite !lookup_fmap in H.
  unfold node_data. destruct (nodes m' !! a), (nodes m !! a); simpl in H; congruence.
Qed.

Lemma same_values_alloc m m' a :
  same_values m m' -> is_Some (nodes m !! a) -> is_Some (nodes m' !! a).
Proof.
  intros H. apply (f_equal (fun f => f !! a)) in H. rewrite !lookup_fmap in H.
  destruct (nodes m' !! a), (nodes m !! a); simpl in H; intros [? ?]; eauto; congruence.
Qed.

Lemma same_values_set_next m ls' a n q :
  nodes m !! a = Some n ->
  same_values m (mkMem ls' (<[a := mkNode (data n) q]> (nodes m))).
Proof.
  intros Hn. unfold same_values; simpl. rewrite fmap_insert. simpl.
  apply insert_id. rewrite lookup_fmap, Hn. reflexivity.
Qed.

(** Side conditions [a ∉ l] and [a ≠ b] from the absence of duplicates. *)
Ltac chain_solve :=
  repeat match goal with
         | H : NoDup (_ ++ _) |- _ =>
             let H' := fresh in
             pose proof (proj1 (NoDup_app _ _) H) as H'; clear H;
             destruct H' as (? & ? & ?)
         | H : NoDup (_ :: _) |- _ =>
             let H' := fresh in
             pose proof (proj1 (NoDup_cons _ _) H) as H'; clear H;
             destruct H' as (? & ?)
         end;
  set_solver.

Lemma remove_after_chain m lst l1 p c l2 :
  list_at m lst (l1 ++ p :: c :: l2) ->
  exists m',
    ListRemoveAfter (Some lst) (Some p) m = Ok (Some c) m' /\
    list_at m' lst (l1 ++ p :: l2) /\
    node_next m' c = None /\
    same_values m m' /\
    lists m' = lists m /\
    node_next m' p = node_next m c.
Proof.
  intros Hl. pose proof (list_at_NoDup _ _ _ Hl) as Hnd.
  destruct Hl as (L & HL & Hl). unfold is_list in Hl.
  apply lseg_app in Hl as (r & H1 & -> & np & Hnp & Hc).
  destruct Hc as (Hpc & nc & Hnc & H2).
  assert (c ≠ p) as Hcp by chain_solve.
  eexists. split.
  { unfold ListRemoveAfter, bind, get_next, set_next, ret. rewrite Hnp, Hpc, Hnc.
    simpl. rewrite Hnp. simpl. rewrite lookup_insert_ne by congruence.
    rewrite Hnc. reflexivity. }
  simpl. split; [|split; [|split; [|split; [reflexivity|]]]].
  - exists L. split; [exact HL|]. simpl. unfold is_list. apply lseg_app.
    exists (Some p). split.
    + apply lseg_frame; [chain_solve|]. apply lseg_frame; [chain_solve|]. exact H1.
    + split; [reflexivity|]. eexists. split.
      * rewrite lookup_insert_ne by congruence. apply lookup_insert_eq.
      * simpl. apply lseg_frame; [chain_solve|]. apply lseg_frame; [chain_solve|].
        exact H2.
  - unfold node_next. simpl. rewrite lookup_insert_eq. reflexivity.
  - eapply same_values_trans; [apply (same_values_set_next m (lists m) _ _ (next nc) Hnp)|].
    apply (same_values_set_next (mkMem _ _)). simpl.
    rewrite lookup_insert_ne by congruence. exact Hnc.
  - unfold node_next. simpl. rewrite lookup_insert_ne by congruence.
    rewrite lookup_insert_eq, Hnc. reflexivity.
Qed.

Lemma remove_head_chain m lst c l :
  list_at m lst (c :: l) ->
  exists m',
    ListRemoveAfter (Some lst) None m = Ok (Some c) m' /\
    list_at m' lst l /\
    node_next m' c = None /\
    same_values m m' /\
    lists m' !! lst = Some (mkList (node_next m c)).
Proof.
  intros Hl. pose proof (list_at_NoDup _ _ _ Hl) as Hnd.
  destruct Hl as (L & HL & Hc & nc & Hnc & Hl).
  eexists. split.
  { unfold ListRemoveAfter, bind, get_head, get_next, set_head, set_next, ret.
    rewrite HL, Hc, Hnc. simpl. rewrite HL. simpl. rewrite Hnc. reflexivity. }
  simpl. split; [|split; [|split]].
  - exists (mkList (next nc)). split; [apply lookup_insert_eq|]. simpl.
    apply lseg_frame; [chain_solve|exact Hl].
  - unfold node_next. simpl. rewrite lookup_insert_eq. reflexivity.
  - apply (same_values_set_next m). exact Hnc.
  - rewrite lookup_insert_eq. unfold node_next. rewrite Hnc. reflexivity.
Qed.

Lemma prepend_chain m lst l c :
  list_at m lst l -> c ∉ l -> is_Some (nodes m !! c) ->
  exists m',
    ListPrepend (Some lst) (Some c) m = Ok tt m' /\
    list_at m' lst (c :: l) /\
    same_values m m'.
Proof.
  intros (L & HL & Hl) Hc [n Hn]. eexists. split.
  { unfold ListPrepend, bind, get_head, set_next, set_head. rewrite HL, Hn. simpl.
    rewrite HL. reflexivity. }
  split.
  - exists (mkList (Some c)). simpl. split; [apply lookup_insert_eq|].
    split; [reflexivity|]. eexists. split; [apply lookup_insert_eq|]. simpl.
    apply lseg_frame; [exact Hc|exact Hl].
  - apply same_values_set_next. exact Hn.
Qed.

Lemma insert_after_chain m lst l1 s l2 c :
  list_at m lst (l1 ++ s :: l2) -> c ∉ l1 ++ s :: l2 -> is_Some (nodes m !! c) ->
  exists m',
    ListInsertAfter (Some lst) (Some s) (Some c) m = Ok tt m' /\
    list_at m' lst (l1 ++ s :: c :: l2) /\
    same_values m m'.
Proof.
  intros Hl Hc [n Hn]. pose proof (list_at_NoDup _ _ _ Hl) as Hnd.
  destruct Hl as (L & HL & Hl). unfold is_list in Hl.
  apply lseg_app in Hl as (r & H1 & -> & ns & Hns & H2).
  assert (c ≠ s) as Hcs by set_solver.
  eexists. split.
  { unfold ListInsertAfter, bind, get_next, set_next. rewrite Hns, Hn. simpl.
    rewrite lookup_insert_ne by congruence. rewrite Hns. reflexivity. }
  simpl. split.
  - exists L. split; [exact HL|]. simpl. unfold is_list. apply lseg_app.
    exists (Some s). split.
    + apply lseg_frame; [chain_solve|]. apply lseg_frame; [set_solver|]. exact H1.
    + split; [reflexivity|]. eexists. split; [apply lookup_insert_eq|]. simpl.
      split; [reflexivity|]. eexists. split.
      * rewrite lookup_insert_ne by congruence. apply lookup_insert_eq.
      * simpl. apply lseg_frame; [chain_solve|]. apply lseg_frame; [set_solver|].
        exact H2.
  - eapply same_values_trans; [apply (same_values_set_next m (lists m) _ _ (next ns) Hn)|].
    apply (same_values_set_next (mkMem _ _)). simpl.
    rewrite lookup_insert_ne by congruence. exact Hns.
Qed.

(** ** One iteration of the driver *)

Lemma bind_Ok {A B} (c : M A) (k : A -> M B) m a m' :
  c m = Ok a m' -> bind c k m = k a m'.
Proof. unfold bind. intros ->. reflexivity. Qed.

Lemma scan_prefix_stop m v c P R :
  c ∉ P -> scan_prefix m v (Some c) (P ++ c :: R) = scan_prefix m v None P.
Proof.
  induction P as [|a P IH]; intros Hc; simpl.
  - rewrite decide_True by reflexivity. reflexivity.
  - apply not_elem_of_cons in Hc as [Hca Hc].
    rewrite decide_False by congruence. rewrite IH by exact Hc. reflexivity.
Qed.

Lemma place_scan m c P :
  exists P2, P = scan_prefix m (node_data m c) None P ++ P2 /\
             place (node_data m) c P = scan_prefix m (node_data m c) None P ++ c :: P2.
Proof.
  induction P as [|a P (P2 & IH1 & IH2)]; simpl.
  - exists []. auto.
  - destruct (node_data m a <? node_data m c).
    + exists P2. simpl. split; congruence.
    + exists (a :: P). auto.
Qed.

Lemma place_ext d d' c P :
  (forall a, d' a = d a) -> place d' c P = place d c P.
Proof.
  intros H. induction P as [|a P IH]; simpl; [reflexivity|].
  rewrite !H, IH. reflexivity.
Qed.

Lemma body_spec_gen sfuel m lst P p c R :
  list_at m lst (P ++ p :: c :: R) ->
  (length (scan_prefix m (node_data m c) None (P ++ [p])) < sfuel)%nat ->
  exists m',
    ListInsertionSort_body sfuel (Some lst) (Some p) (Some c) m
      = Ok (last (place (node_data m) c (P ++ [p])), hd_error R) m' /\
    list_at m' lst (place (node_data m) c (P ++ [p]) ++ R) /\
    same_values m m' /\
    (place (node_data m) c (P ++ [p]) = P ++ [p; c] -> m' = m).
Proof.
  intros Hl Hfuel. pose proof (list_at_NoDup _ _ _ Hl) as Hnd.
  assert (exists nc, nodes m !! c = Some nc /\ next nc = hd_error R) as (nc & Hnc & Hnext).
  { destruct Hl as (L & _ & Hl). unfold is_list in Hl.
    apply lseg_app in Hl as (r & _ & Hr). simpl in Hr.
    destruct Hr as (_ & np & _ & _ & nc & Hnc & HR).
    exists nc. split; [exact Hnc|]. destruct R as [|x R]; simpl in *; [exact HR|apply HR]. }
  replace (P ++ p :: c :: R) with ((P ++ [p]) ++ c :: R) in Hl, Hnd
    by (rewrite <- app_assoc; reflexivity).
  assert (c ∉ P ++ [p]) as HcP by chain_solve.
  destruct (place_scan m c (P ++ [p])) as (P2 & HP & Hplace).
  set (P1 := scan_prefix m (node_data m c) None (P ++ [p])) in *.
  assert (FindInsertionSpot sfuel (Some lst) (node_data m c) (Some c) m = Ok (last P1) m)
    as Hscan.
  { pose proof (scan_prefix_length m (node_data m c) None (P ++ [p])) as Hle.
    fold P1 in Hle. rewrite length_app in Hle. simpl in Hle.
    rewrite (FindInsertionSpot_spec m lst _ _ _ sfuel Hl);
      rewrite scan_prefix_stop by exact HcP; fold P1; [|exact Hfuel].
    rewrite decide_False; [reflexivity|]. intros [E _].
    apply (f_equal length) in E. rewrite !length_app in E. simpl in E. lia. }
  clearbody P1. unfold ListInsertionSort_body.
  rewrite (bind_Ok _ _ m (next nc) m) by (unfold get_next; rewrite Hnc; reflexivity).
  rewrite (bind_Ok _ _ m (data nc) m) by (unfold get_data; rewrite Hnc; reflexivity).
  rewrite <- (node_data_lookup _ _ _ Hnc).
  rewrite (bind_Ok _ _ _ _ _ Hscan). rewrite Hplace.
  destruct (decide (last P1 = Some p)) as [Hsp|Hsp].
  - (* the node stays where it is *)
    assert (P2 = []) as ->.
    { destruct (last P2) as [x|] eqn:Hx; [|apply last_None; exact Hx].
      assert (x = p) as ->.
      { pose proof (last_snoc p P) as Hlast. rewrite HP, last_app, Hx in Hlast. congruence. }
      apply last_Some_elem_of in Hsp, Hx.
      rewrite HP in Hnd. exfalso. chain_solve. }
    rewrite app_nil_r in HP. rewrite <- HP.
    exists m. unfold ret. rewrite last_snoc, Hnext.
    split; [reflexivity|]. split; [|split; [apply same_values_refl|reflexivity]].
    rewrite <- app_assoc. exact Hl.
  - (* the node moves towards the head *)
    destruct (last P2) as [x|] eqn:Hx; cycle 1.
    { apply last_None in Hx. subst P2. rewrite app_nil_r in HP.
      rewrite <- HP, last_snoc in Hsp. congruence. }
    assert (x = p) as ->.
    { pose proof (last_snoc p P) as Hlast. rewrite HP, last_app, Hx in Hlast. congruence. }
    apply last_Some in Hx as (P2' & ->).
    rewrite app_assoc in HP. apply app_inj_tail in HP as [HP _].
    assert (list_at m lst ((P1 ++ P2') ++ p :: c :: R)) as Hl'.
    { rewrite <- HP. rewrite <- app_assoc in Hl. exact Hl. }
    destruct (remove_after_chain _ _ _ _ _ _ Hl') as (m1 & Hrm & Hl1 & _ & Hv1 & _).
    rewrite (bind_Ok _ _ _ _ _ Hrm).
    assert (is_Some (nodes m1 !! c)) as Hc1 by (eapply same_values_alloc; eauto).
    assert (last (P1 ++ c :: P2' ++ [p]) = Some p) as Hlast.
    { replace (P1 ++ c :: P2' ++ [p]) with ((P1 ++ c :: P2') ++ [p])
        by (rewrite <- app_assoc; reflexivity).
      apply last_snoc. }
    rewrite HP, <- app_assoc in Hnd. simpl in Hnd.
    assert (P1 ++ c :: P2' ++ [p] ≠ P ++ [p; c]) as Hmoved.
    { intros E. apply (f_equal last) in E.
      replace (P ++ [p; c]) with ((P ++ [p]) ++ [c]) in E
        by (rewrite <- app_assoc; reflexivity).
      rewrite Hlast, last_snoc in E. injection E as ->. chain_solve. }
    destruct (last P1) as [s|] eqn:Hs.
    + apply last_Some in Hs as (P1' & Hs). rewrite Hs in *.
      rewrite <- !app_assoc in Hl1. simpl in Hl1.
      destruct (insert_after_chain m1 lst P1' s (P2' ++ p :: R) c Hl1) as (m2 & Hins & Hl2 & Hv2);
        [rewrite <- !app_assoc in Hnd; simpl in Hnd; chain_solve|exact Hc1|].
      rewrite (bind_Ok _ _ _ _ _ Hins). exists m2. unfold ret. rewrite Hlast, Hnext.
      split; [reflexivity|]. split; [|split; [eapply same_values_trans; eauto|]].
      * rewrite <- !app_assoc. simpl. rewrite <- !app_assoc. simpl. exact Hl2.
      * intros E. destruct (Hmoved E).
    + apply last_None in Hs. rewrite Hs in *. simpl in *.
      destruct (prepend_chain m1 lst (P2' ++ p :: R) c Hl1) as (m2 & Hpre & Hl2 & Hv2);
        [chain_solve|exact Hc1|].
      rewrite (bind_Ok _ _ _ _ _ Hpre). exists m2. unfold ret. rewrite Hlast, Hnext.
      split; [reflexivity|]. split; [|split; [eapply same_values_trans; eauto|]].
      * rewrite <- !app_assoc. simpl. exact Hl2.
      * intros E. destruct (Hmoved E).
Qed.

Lemma body_spec sfuel m lst P p c R :
  list_at m lst (P ++ p :: c :: R) ->
  (length P + 1 < sfuel)%nat ->
  exists m',
    ListInsertionSort_body sfuel (Some lst) (Some p) (Some c) m
      = Ok (last (place (node_data m) c (P ++ [p])), hd_error R) m' /\
    list_at m' lst (place (node_data m) c (P ++ [p]) ++ R) /\
    same_values m m' /\
    (place (node_data m) c (P ++ [p]) = P ++ [p; c] -> m' = m).
Proof.
  intros Hl Hfuel. apply body_spec_gen; [exact Hl|].
  pose proof (scan_prefix_length m (node_data m c) None (P ++ [p])) as Hle.
  rewrite length_app in Hle. simpl in Hle. lia.
Qed.

Lemma body_timeout sfuel m lst P p c R :
  list_at m lst (P ++ p :: c :: R) ->
  (sfuel <= length (scan_prefix m (node_data m c) None (P ++ [p])))%nat ->
  ListInsertionSort_body sfuel (Some lst) (Some p) (Some c) m = Timeout.
Proof.
  intros Hl Hfuel. pose proof (list_at_NoDup _ _ _ Hl) as Hnd.
  replace (P ++ p :: c :: R) with ((P ++ [p]) ++ c :: R) in Hl, Hnd
    by (rewrite <- app_assoc; reflexivity).
  assert (c ∉ P ++ [p]) as HcP by chain_solve.
  destruct Hl as (L & HL & Hc). pose proof Hc as Hc'. unfold is_list in Hc'.
  apply lseg_app in Hc' as (r & _ & _ & nc & Hnc & _).
  unfold ListInsertionSort_body.
  rewrite (bind_Ok _ _ m (next nc) m) by (unfold get_next; rewrite Hnc; reflexivity).
  rewrite (bind_Ok _ _ m (data nc) m) by (unfold get_data; rewrite Hnc; reflexivity).
  rewrite <- (node_data_lookup _ _ _ Hnc).
  unfold bind at 1. unfold FindInsertionSpot, bind at 1, get_head. rewrite HL.
  rewrite (scan_loop_timeout m _ (Some c) _ sfuel None (head L) Hc);
    [reflexivity|rewrite scan_prefix_stop by exact HcP; exact Hfuel].
Qed.


(** ** Placing nodes: permutation and order *)

Lemma place_length d c P : length (place d c P) = S (length P).
Proof.
  induction P as [|a P IH]; simpl; [reflexivity|].
  destruct (d a <? d c); simpl; rewrite ?IH; reflexivity.
Qed.

Lemma place_perm d c P : place d c P ≡ₚ c :: P.
Proof.
  induction P as [|a P IH]; simpl; [reflexivity|].
  destruct (d a <? d c); [|reflexivity].
  rewrite IH. apply Permutation_swap.
Qed.

Lemma place_all_ext d d' P R :
  (forall a, d' a = d a) -> place_all d' P R = place_all d P R.
Proof.
  intros H. unfold place_all. revert P. induction R as [|c R IH]; intros P; simpl.
  - reflexivity.
  - rewrite (place_ext d d' c P H). apply IH.
Qed.

Lemma place_all_perm d P R : place_all d P R ≡ₚ P ++ R.
Proof.
  unfold place_all. revert P. induction R as [|c R IH]; intros P; simpl.
  - rewrite app_nil_r. reflexivity.
  - rewrite IH, place_perm. simpl. apply Permutation_middle.
Qed.

Lemma sorted_chain_nil d : sorted_chain d [].
Proof. intros i a b H. rewrite lookup_nil in H. discriminate. Qed.

Lemma sorted_chain_one d a : sorted_chain d [a].
Proof. intros i x y _ H. simpl in H. rewrite lookup_nil in H. discriminate. Qed.

Lemma sorted_chain_cons d a b l :
  sorted_chain d (a :: b :: l) <-> d a <= d b /\ sorted_chain d (b :: l).
Proof.
  split.
  - intros H. split.
    + apply (H 0%nat); reflexivity.
    + intros i x y Hx Hy. apply (H (S i)); assumption.
  - intros [Hab H] [|i] x y Hx Hy.
    + simpl in Hx, Hy. congruence.
    + apply (H i); assumption.
Qed.

Lemma place_sorted d c P : sorted_chain d P -> sorted_chain d (place d c P).
Proof.
  induction P as [|a P IH]; intros HP; simpl.
  - apply sorted_chain_one.
  - destruct (d a <? d c) eqn:Hlt.
    + apply Z.ltb_lt in Hlt. destruct P as [|b P].
      * simpl. apply sorted_chain_cons. split; [lia|apply sorted_chain_one].
      * apply sorted_chain_cons in HP as [Hab HP]. specialize (IH HP).
        simpl in *. destruct (d b <? d c); apply sorted_chain_cons; split; auto; lia.
    + apply Z.ltb_ge in Hlt. apply sorted_chain_cons. auto.
Qed.

Lemma place_all_sorted d P R :
  sorted_chain d P -> sorted_chain d (place_all d P R).
Proof.
  unfold place_all. revert P. induction R as [|c R IH]; intros P HP; simpl.
  - exact HP.
  - apply IH, place_sorted, HP.
Qed.

(** ** The loop and the whole sort *)

Lemma loop_spec sfuel lst : forall R fuel m P p,
  list_at m lst (P ++ p :: R) ->
  (length R < fuel)%nat ->
  (length P + 1 + length R <= sfuel)%nat ->
  exists m',
    ListInsertionSort_loop sfuel fuel (Some lst) (Some p) (hd_error R) m = Ok tt m' /\
    list_at m' lst (place_all (node_data m) (P ++ [p]) R) /\
    same_values m m'.
Proof.
  induction R as [|c R IH]; intros fuel m P p Hl Hfuel Hsfuel;
    (destruct fuel as [|fuel]; [simpl in Hfuel; lia|]); simpl.
  - exists m. split; [reflexivity|]. split; [exact Hl|apply same_values_refl].
  - simpl in Hfuel, Hsfuel.
    destruct (body_spec sfuel m lst P p c R Hl) as (m1 & Hbody & Hl1 & Hv1 & _); [lia|].
    rewrite (bind_Ok _ _ _ _ _ Hbody). simpl.
    destruct (last (place (node_data m) c (P ++ [p]))) as [p'|] eqn:Hlast; cycle 1.
    { apply last_None in Hlast. apply (f_equal length) in Hlast.
      rewrite place_length in Hlast. discriminate. }
    apply last_Some in Hlast as (P' & HP').
    assert (length P' = S (length P)) as Hlen.
    { apply (f_equal length) in HP'. rewrite place_length, !length_app in HP'.
      simpl in HP'. lia. }
    rewrite HP', <- app_assoc in Hl1. simpl in Hl1.
    destruct (IH fuel m1 P' p' Hl1) as (m' & Hloop & Hl' & Hv'); [lia|lia|].
    exists m'. split; [exact Hloop|]. split; [|eapply same_values_trans; eauto].
    unfold place_all in *. simpl. rewrite HP'.
    fold (place_all (node_data m) (P' ++ [p']) R).
    rewrite <- (place_all_ext (node_data m) (node_data m1))
      by (intros a; apply same_values_data; exact Hv1).
    exact Hl'.
Qed.

Lemma sort_spec m lst l fuel :
  list_at m lst l ->
  (length l <= fuel)%nat ->
  exists m',
    ListInsertionSort fuel (Some lst) m = Ok tt m' /\
    list_at m' lst (place_all (node_data m) [] l) /\
    same_values m m'.
Proof.
  intros Hl Hfuel. pose proof Hl as (L & HL & Hc). unfold is_list in Hc.
  unfold ListInsertionSort.
  rewrite (bind_Ok _ _ m (head L) m) by (unfold get_head; rewrite HL; reflexivity).
  destruct l as [|a [|b R]]; simpl in Hc.
  - rewrite Hc. exists m. split; [reflexivity|]. split; [exact Hl|apply same_values_refl].
  - destruct Hc as (Ha & na & Hna & Hn). rewrite Ha.
    rewrite (bind_Ok _ _ m None m) by (unfold get_next; rewrite Hna, Hn; reflexivity).
    exists m. split; [reflexivity|]. split; [exact Hl|apply same_values_refl].
  - destruct Hc as (Ha & na & Hna & Hn & _). rewrite Ha.
    rewrite (bind_Ok _ _ m (Some b) m) by (unfold get_next; rewrite Hna, Hn; reflexivity).
    rewrite (bind_Ok _ _ m (Some a) m) by (unfold get_head; rewrite HL, Ha; reflexivity).
    rewrite (bind_Ok _ _ m (Some b) m) by (unfold get_next; rewrite Hna, Hn; reflexivity).
    simpl in Hfuel.
    destruct (loop_spec fuel lst (b :: R) fuel m [] a Hl) as (m' & Hloop & Hl' & Hv);
      [simpl; lia|simpl; lia|].
    exists m'. split; [exact Hloop|]. split; [exact Hl'|exact Hv].
Qed.

(** ** The loop: fuel and iteration boundaries *)

Lemma loop_timeout sfuel lst : forall R fuel m P p,
  list_at m lst (P ++ p :: R) ->
  (fuel <= length R)%nat ->
  (length P + 1 + length R <= sfuel)%nat ->
  ListInsertionSort_loop sfuel fuel (Some lst) (Some p) (hd_error R) m = Timeout.
Proof.
  induction R as [|c R IH]; intros fuel m P p Hl Hfuel Hsfuel;
    (destruct fuel as [|fuel]; [reflexivity|]); simpl in *; [lia|].
  destruct (body_spec sfuel m lst P p c R Hl) as (m1 & Hbody & Hl1 & Hv1 & _); [lia|].
  rewrite (bind_Ok _ _ _ _ _ Hbody). simpl.
  destruct (last (place (node_data m) c (P ++ [p]))) as [p'|] eqn:Hlast; cycle 1.
  { apply last_None in Hlast. apply (f_equal length) in Hlast.
    rewrite place_length in Hlast. discriminate. }
  apply last_Some in Hlast as (P' & HP').
  assert (length P' = S (length P)) as Hlen.
  { apply (f_equal length) in HP'. rewrite place_length, !length_app in HP'.
    simpl in HP'. lia. }
  rewrite HP', <- app_assoc in Hl1. simpl in Hl1.
  apply (IH fuel m1 P' p' Hl1); lia.
Qed.

Lemma sorted_chain_ext d d' l :
  (forall a, d' a = d a) -> sorted_chain d l -> sorted_chain d' l.
Proof. intros H Hs i a b Ha Hb. rewrite !H. eapply Hs; eauto. Qed.

Lemma loop_inv_step sfuel lst m0 l0 s s' :
  (length l0 <= sfuel)%nat ->
  loop_inv lst m0 l0 s -> loop_step sfuel (Some lst) s s' -> loop_inv lst m0 l0 s'.
Proof.
  intros Hsf (P & p & R & Hl & Hp & Hc & Hs & (done & Hd & Hperm) & Hv & Hlen) Hstep.
  destruct Hstep as [m prev c prev' curr' m' Hbody]. simpl in *. subst prev.
  destruct R as [|c' R]; [discriminate|]. injection Hc as ->.
  rewrite length_app in Hlen. simpl in Hlen.
  destruct (body_spec sfuel m lst P p c' R Hl) as (m1 & Hbody' & Hl1 & Hv1 & _); [lia|].
  rewrite Hbody' in Hbody. injection Hbody as <- <- <-.
  destruct (last (place (node_data m) c' (P ++ [p]))) as [p'|] eqn:Hlast; cycle 1.
  { apply last_None in Hlast. apply (f_equal length) in Hlast.
    rewrite place_length in Hlast. discriminate. }
  apply last_Some in Hlast as (P' & HP').
  exists P', p', R. simpl.
  assert (P' ++ p' :: R = place (node_data m) c' (P ++ [p]) ++ R) as Heq
    by (rewrite HP', <- app_assoc; reflexivity).
  rewrite Heq. split; [exact Hl1|]. split; [reflexivity|]. split; [reflexivity|].
  rewrite <- HP'. split; [|split; [|split; [eapply same_values_trans; eauto|]]].
  - apply (sorted_chain_ext (node_data m)); [intros a; eapply same_values_data; eauto|].
    apply place_sorted, Hs.
  - exists (done ++ [c']). split; [rewrite <- app_assoc; exact Hd|].
    rewrite place_perm, Hperm. apply Permutation_cons_append.
  - rewrite length_app, place_length, length_app in *. simpl. lia.
Qed.

Lemma loop_inv_reaches sfuel lst m0 l0 s0 s :
  (length l0 <= sfuel)%nat ->
  loop_inv lst m0 l0 s0 -> loop_reaches sfuel (Some lst) s0 s -> loop_inv lst m0 l0 s.
Proof.
  intros Hsf H0 Hr. induction Hr as [|s1 s2 s3 Hstep _ IH]; [exact H0|].
  apply IH. eapply loop_inv_step; eauto.
Qed.

Lemma loop_inv_entry m lst a b R :
  list_at m lst (a :: b :: R) ->
  loop_inv lst m (a :: b :: R) (LoopState m (Some a) (Some b)).
Proof.
  intros Hl. exists [], a, (b :: R). simpl.
  split; [exact Hl|]. split; [reflexivity|]. split; [reflexivity|].
  split; [apply sorted_chain_one|]. split; [|split; reflexivity].
  exists [a]. split; reflexivity.
Qed.

Lemma list_at_nodes_of fuel m lst l : nodes_of fuel m lst = Some l -> list_at m lst l.
Proof.
  unfold nodes_of. destruct (lists m !! lst) as [L|] eqn:HL; [|discriminate].
  intros Hw. exists L. split; [exact HL|]. eapply walk_is_list; eauto.
Qed.

Lemma loop_run sfuel list : forall fuel prev curr m m',
  ListInsertionSort_loop sfuel fuel list prev curr m = Ok tt m' ->
  exists prev', loop_reaches sfuel list (LoopState m prev curr) (LoopState m' prev' None).
Proof.
  induction fuel as [|fuel IH]; intros prev curr m m'; simpl; [discriminate|].
  destruct curr as [c|].
  - unfold bind at 1.
    destruct (ListInsertionSort_body sfuel list prev (Some c) m) as [[p' c'] m1| |] eqn:Hb;
      try discriminate.
    simpl. intros Hloop. destruct (IH _ _ _ _ Hloop) as (prev' & Hr).
    exists prev'. eapply rtc_l; [|exact Hr]. constructor. exact Hb.
  - intros [= <-]. exists prev. apply rtc_refl.
Qed.

Lemma chain_next m lst l1 p l2 :
  list_at m lst (l1 ++ p :: l2) -> node_next m p = hd_error l2.
Proof.
  intros (L & _ & Hc). unfold is_list in Hc.
  apply lseg_app in Hc as (r & _ & _ & n & Hn & H2).
  rewrite (node_next_lookup _ _ _ Hn). destruct l2; simpl in *; [exact H2|apply H2].
Qed.

(** A null [list] is returned at once. *)
Lemma ListInsertionSort_null fuel m : ListInsertionSort fuel None m = Ok tt m.
Proof. reflexivity. Qed.

Lemma sort_enters_loop m lst a b R fuel :
  list_at m lst (a :: b :: R) ->
  ListInsertionSort fuel (Some lst) m
    = ListInsertionSort_loop fuel fuel (Some lst) (Some a) (Some b) m.
Proof.
  intros (L & HL & Ha & na & Hna & Hn & _). unfold ListInsertionSort.
  rewrite (bind_Ok _ _ m (Some a) m) by (unfold get_head; rewrite HL, Ha; reflexivity).
  rewrite (bind_Ok _ _ m (Some b) m) by (unfold get_next; rewrite Hna, Hn; reflexivity).
  rewrite (bind_Ok _ _ m (Some a) m) by (unfold get_head; rewrite HL, Ha; reflexivity).
  rewrite (bind_Ok _ _ m (Some b) m) by (unfold get_next; rewrite Hna, Hn; reflexivity).
  reflexivity.
Qed.

Lemma loop_no_fault sfuel lst : forall R fuel m P p,
  list_at m lst (P ++ p :: R) ->
  (exists m', ListInsertionSort_loop sfuel fuel (Some lst) (Some p) (hd_error R) m
              = Ok tt m') \/
  ListInsertionSort_loop sfuel fuel (Some lst) (Some p) (hd_error R) m = Timeout.
Proof.
  induction R as [|c R IH]; intros fuel m P p Hl;
    (destruct fuel as [|fuel]; [right; reflexivity|]); simpl.
  - left. exists m. reflexivity.
  - destruct (le_lt_dec sfuel
                (length (scan_prefix m (node_data m c) None (P ++ [p])))) as [Hsf|Hsf].
    + right. unfold bind. rewrite (body_timeout sfuel m lst P p c R Hl Hsf). reflexivity.
    + destruct (body_spec_gen sfuel m lst P p c R Hl Hsf) as (m1 & Hbody & Hl1 & _).
      rewrite (bind_Ok _ _ _ _ _ Hbody). simpl.
      destruct (last (place (node_data m) c (P ++ [p]))) as [p'|] eqn:Hlast; cycle 1.
      { apply last_None in Hlast. apply (f_equal length) in Hlast.
        rewrite place_length in Hlast. discriminate. }
      apply last_Some in Hlast as (P' & HP').
      rewrite HP', <- app_assoc in Hl1. simpl in Hl1.
      exact (IH fuel m1 P' p' Hl1).
Qed.

Lemma sort_no_fault m lst l fuel :
  list_at m lst l ->
  (exists m', ListInsertionSort fuel (Some lst) m = Ok tt m') \/
  ListInsertionSort fuel (Some lst) m = Timeout.
Proof.
  intros Hl. destruct l as [|a [|b R]].
  - left. destruct (sort_spec m lst [] fuel Hl) as (m' & Hrun & _); [simpl; lia|eauto].
  - destruct fuel as [|fuel].
    + left. destruct Hl as (L & HL & Ha & na & Hna & Hn). simpl in Hn.
      exists m. unfold ListInsertionSort.
      rewrite (bind_Ok _ _ m (Some a) m) by (unfold get_head; rewrite HL, Ha; reflexivity).
      rewrite (bind_Ok _ _ m None m) by (unfold get_next; rewrite Hna, Hn; reflexivity).
      reflexivity.
    + left. destruct (sort_spec m lst [a] (S fuel) Hl) as (m' & Hrun & _); [simpl; lia|eauto].
  - rewrite (sort_enters_loop m lst a b R fuel Hl).
    exact (loop_no_fault fuel lst (b :: R) fuel m [] a Hl).
Qed.

(** * The claims *)

(** ** The scan *)

(** C4 (as amended) — FindInsertionSpot postcondition.  On a finite chain the
    scan starts at the head and advances past exactly the nodes of
    [scan_prefix]: those that are not [boundary] (by address) and hold a value
    strictly less than [value].  When [boundary] is [nullptr], or the scan
    stops at a node of the chain (which it does when [boundary] is one of
    them), the call returns the last node it advanced past, or [nullptr] when
    it stopped at the head, and leaves the heap as it was.  When [boundary] is
    not [nullptr] and the scan advances past every node, nothing is returned:
    the next test reads through [nullptr]. *)
Theorem FindInsertionSpot_post m lst l value boundary fuel :
  list_at m lst l ->
  (length l < fuel)%nat ->
  (boundary = None \/ scan_prefix m value boundary l ≠ l ->
     FindInsertionSpot fuel (Some lst) value boundary m
       = Ok (last (scan_prefix m value boundary l)) m) /\
  (forall a, boundary = Some a -> a ∈ l -> scan_prefix m value boundary l ≠ l) /\
  (boundary ≠ None -> scan_prefix m value boundary l = l ->
     FindInsertionSpot fuel (Some lst) value boundary m = Fault NullDeref).
Proof.
  intros Hl Hfuel.
  pose proof (scan_prefix_length m value boundary l) as Hle.
  pose proof (FindInsertionSpot_spec m lst l value boundary fuel Hl) as Hspec.
  split; [|split].
  - intros Hb. rewrite Hspec by lia. apply decide_False. intros [? ?].
    destruct Hb; congruence.
  - intros a -> Ha E. rewrite <- E in Ha. exact (scan_prefix_boundary _ _ _ _ Ha).
  - intros Hb E. rewrite Hspec by lia. apply decide_True. auto.
Qed.

(** The scan for 22 in [11 -> 39 -> 45 -> 22], bounded by the node of 22:
    it stops at 39 and returns the node of 11. *)
Lemma FindInsertionSpot_post_witness :
  list_at (heap_of [11; 39; 45; 22]) 1 [10; 11; 12; 13]%positive /\
  (4 < 5)%nat /\
  FindInsertionSpot 5 (Some 1%positive) 22 (Some 13%positive) (heap_of [11; 39; 45; 22])
    = Ok (Some 10%positive) (heap_of [11; 39; 45; 22]).
Proof.
  assert (list_at (heap_of [11; 39; 45; 22]) 1 [10; 11; 12; 13]%positive) as Hl
    by (apply (list_at_nodes_of 4); vm_compute; reflexivity).
  assert (4 < 5)%nat as Hf by lia.
  split; [exact Hl|]. split; [exact Hf|].
  apply (FindInsertionSpot_post (heap_of [11; 39; 45; 22]) 1 [10; 11; 12; 13]%positive
           22 (Some 13%positive) 5 Hl Hf).
  right. vm_compute. discriminate.
Defined.

(** C4 (as stated) fails: on the empty list with a boundary that is no node
    of the list the scan does not return [nullptr]; it returns nothing,
    whatever the fuel. *)
Lemma FindInsertionSpot_post_counterexample :
  ~ (exists fuel r m',
       FindInsertionSpot fuel (Some 1%positive) 0 (Some 99%positive) (heap_of []) = Ok r m').
Proof.
  intros (fuel & r & m' & H). destruct fuel; vm_compute in H; discriminate.
Qed.

(** C10 — Safety of the scan.  On a finite chain, with [boundary] either
    [nullptr] or a node of the chain, no fuel makes the scan read through
    [nullptr], and with fuel beyond the length of the chain it returns.  With
    a [boundary] that is not [nullptr] and not a node of the chain, and every
    value strictly less than [value], the scan reads through [nullptr]. *)
Theorem FindInsertionSpot_safety m lst l value boundary :
  list_at m lst l ->
  (boundary = None \/ (exists a, boundary = Some a /\ a ∈ l) ->
     (forall fuel, FindInsertionSpot fuel (Some lst) value boundary m ≠ Fault NullDeref) /\
     (forall fuel, (length l < fuel)%nat ->
        exists r, FindInsertionSpot fuel (Some lst) value boundary m = Ok r m)) /\
  (forall a, boundary = Some a -> a ∉ l ->
     (forall x, x ∈ l -> node_data m x < value) ->
     forall fuel, (length l < fuel)%nat ->
       FindInsertionSpot fuel (Some lst) value boundary m = Fault NullDeref).
Proof.
  intros Hl. pose proof (scan_prefix_length m value boundary l) as Hle.
  split.
  - intros Hb.
    assert (~ (scan_prefix m value boundary l = l /\ boundary ≠ None)) as Hstop.
    { intros [E Hn]. destruct Hb as [->|(a & -> & Ha)]; [congruence|].
      rewrite <- E in Ha. exact (scan_prefix_boundary _ _ _ _ Ha). }
    split.
    + intros fuel.
      destruct (le_lt_dec fuel (length (scan_prefix m value boundary l))) as [Hf|Hf].
      * destruct Hl as (L & HL & Hc). unfold FindInsertionSpot, bind, get_head.
        rewrite HL, (scan_loop_timeout m value boundary l fuel None (head L) Hc Hf).
        discriminate.
      * rewrite (FindInsertionSpot_spec m lst l value boundary fuel Hl Hf).
        rewrite decide_False by exact Hstop. discriminate.
    + intros fuel Hf. rewrite (FindInsertionSpot_spec m lst l value boundary fuel Hl) by lia.
      rewrite decide_False by exact Hstop. eauto.
  - intros a -> Ha Hlt fuel Hf.
    assert (scan_prefix m value (Some a) l = l) as E.
    { apply scan_prefix_all. intros x Hx. split; [|apply Hlt, Hx].
      intros [= ->]. exact (Ha Hx). }
    rewrite (FindInsertionSpot_spec m lst l value (Some a) fuel Hl) by (rewrite E; lia).
    apply decide_True. split; [exact E|discriminate].
Qed.

(** The driver's own call on [39 -> 45 -> 11 -> 22]: the scan for 11 bounded
    by its node; and a boundary outside the chain with [value] 50. *)
Lemma FindInsertionSpot_safety_witness :
  list_at (heap_of [39; 45; 11; 22]) 1 [10; 11; 12; 13]%positive /\
  ((forall fuel, FindInsertionSpot fuel (Some 1%positive) 11 (Some 12%positive)
                   (heap_of [39; 45; 11; 22]) ≠ Fault NullDeref) /\
   (forall fuel, (4 < fuel)%nat ->
      exists r, FindInsertionSpot fuel (Some 1%positive) 11 (Some 12%positive)
                  (heap_of [39; 45; 11; 22]) = Ok r (heap_of [39; 45; 11; 22]))) /\
  FindInsertionSpot 5 (Some 1%positive) 50 (Some 99%positive) (heap_of [39; 45; 11; 22])
    = Fault NullDeref.
Proof.
  assert (list_at (heap_of [39; 45; 11; 22]) 1 [10; 11; 12; 13]%positive) as Hl
    by (apply (list_at_nodes_of 4); vm_compute; reflexivity).
  split; [exact Hl|]. split.
  - apply (proj1 (FindInsertionSpot_safety (heap_of [39; 45; 11; 22]) 1 _ 11
                    (Some 12%positive) Hl)).
    right. exists 12%positive. split; [reflexivity|]. set_solver.
  - apply (proj2 (FindInsertionSpot_safety (heap_of [39; 45; 11; 22]) 1 _ 50
                    (Some 99%positive) Hl) 99%positive).
    + reflexivity.
    + set_solver.
    + intros x Hx. repeat (apply elem_of_cons in Hx as [->|Hx]; [vm_compute; reflexivity|]).
      apply elem_of_nil in Hx as [].
    + simpl. lia.
Defined.

(** ** The primitives *)

(** C7 — ListRemoveAfter contract.  With no anchor the call removes and
    returns the head of the list, and the head becomes the old head's
    successor; with an anchor in the list it removes and returns the node
    after the anchor, and the anchor's successor becomes that node's old
    successor.  The removed node's successor is cleared and the node is no
    longer in the list; the other nodes keep their order and all values are
    kept.  The call returns [nullptr], and changes nothing, exactly when the
    list is empty (no anchor) or the anchor has no successor. *)
Theorem ListRemoveAfter_contract m lst l :
  list_at m lst l ->
  (exists m',
     ListRemoveAfter (Some lst) None m = Ok (hd_error l) m' /\
     list_at m' lst (tail l) /\
     same_values m m' /\
     (l = [] -> m' = m) /\
     (forall a, hd_error l = Some a ->
        lists m' !! lst = Some (mkList (node_next m a)) /\
        node_next m' a = None /\
        a ∉ tail l)) /\
  (forall l1 p l2, l = l1 ++ p :: l2 ->
     exists m',
       ListRemoveAfter (Some lst) (Some p) m = Ok (node_next m p) m' /\
       node_next m p = hd_error l2 /\
       list_at m' lst (l1 ++ p :: tail l2) /\
       same_values m m' /\
       (l2 = [] -> m' = m) /\
       (forall a, hd_error l2 = Some a ->
          node_next m' p = node_next m a /\
          node_next m' a = None /\
          a ∉ l1 ++ p :: tail l2)).
Proof.
  intros Hl. pose proof (list_at_NoDup _ _ _ Hl) as Hnd. split.
  - destruct l as [|c l].
    + exists m. destruct Hl as (L & HL & Hc). unfold is_list in Hc. simpl in Hc.
      split; [unfold ListRemoveAfter, bind, get_head; rewrite HL, Hc; reflexivity|].
      split; [exists L; auto|]. split; [apply same_values_refl|].
      split; [reflexivity|]. intros a [=].
    + destruct (remove_head_chain m lst c l Hl) as (m' & Hrm & Hl' & Hnext & Hv & Hhead).
      exists m'. simpl. split; [exact Hrm|]. split; [exact Hl'|]. split; [exact Hv|].
      split; [discriminate|]. intros a [= <-].
      split; [exact Hhead|]. split; [exact Hnext|]. chain_solve.
  - intros l1 p l2 ->. pose proof (chain_next _ _ _ _ _ Hl) as Hp. rewrite Hp.
    destruct l2 as [|c l2].
    + exists m. simpl.
      destruct Hl as (L & HL & Hc). unfold is_list in Hc.
      apply lseg_snoc in Hc as (Hc & n & Hn & Hnone).
      split; [unfold ListRemoveAfter, bind, get_next; rewrite Hn, Hnone; reflexivity|].
      split; [reflexivity|]. split.
      { exists L. split; [exact HL|]. apply lseg_snoc. eauto. }
      split; [apply same_values_refl|]. split; [reflexivity|]. intros a [=].
    + destruct (remove_after_chain m lst l1 p c l2 Hl)
        as (m' & Hrm & Hl' & Hnext & Hv & _ & Hpnext).
      exists m'. simpl. split; [exact Hrm|]. split; [reflexivity|].
      split; [exact Hl'|]. split; [exact Hv|]. split; [discriminate|].
      intros a [= <-]. split; [exact Hpnext|]. split; [exact Hnext|]. chain_solve.
Qed.

(** Removing after the node of 45 in [39 -> 45 -> 11 -> 22] returns the node
    of 11 and leaves [39 -> 45 -> 22]. *)
Lemma ListRemoveAfter_contract_witness :
  list_at (heap_of [39; 45; 11; 22]) 1 [10; 11; 12; 13]%positive /\
  exists m',
    ListRemoveAfter (Some 1%positive) (Some 11%positive) (heap_of [39; 45; 11; 22])
      = Ok (Some 12%positive) m' /\
    list_at m' 1 [10; 11; 13]%positive /\
    node_next m' 12 = None.
Proof.
  assert (list_at (heap_of [39; 45; 11; 22]) 1 [10; 11; 12; 13]%positive) as Hl
    by (apply (list_at_nodes_of 4); vm_compute; reflexivity).
  split; [exact Hl|].
  destruct (proj2 (ListRemoveAfter_contract (heap_of [39; 45; 11; 22]) 1 _ Hl)
              [10%positive] 11%positive [12; 13]%positive eq_refl)
    as (m' & Hrm & _ & Hl' & _ & _ & Hiso).
  exists m'. split; [exact Hrm|]. split; [exact Hl'|].
  exact (proj1 (proj2 (Hiso 12%positive eq_refl))).
Defined.

(** ** The sort *)

(** C2 — Sortedness.  On every finite list the sort returns, and in the
    list it leaves every node's value is at most the value of the node right
    after it. *)
Theorem ListInsertionSort_sorted m lst l fuel :
  list_at m lst l ->
  (length l <= fuel)%nat ->
  exists m' l',
    ListInsertionSort fuel (Some lst) m = Ok tt m' /\
    list_at m' lst l' /\
    forall (i : nat) (a b : positive),
      l' !! i = Some a -> l' !! S i = Some b -> node_data m' a <= node_data m' b.
Proof.
  intros Hl Hfuel. destruct (sort_spec m lst l fuel Hl Hfuel) as (m' & Hrun & Hl' & Hv).
  exists m', (place_all (node_data m) [] l). split; [exact Hrun|]. split; [exact Hl'|].
  apply (sorted_chain_ext (node_data m)); [intros a; eapply same_values_data; eauto|].
  apply place_all_sorted, sorted_chain_nil.
Qed.

Lemma ListInsertionSort_sorted_witness :
  list_at (heap_of [39; 45; 11; 22]) 1 [10; 11; 12; 13]%positive /\
  (4 <= 4)%nat /\
  exists m' l',
    ListInsertionSort 4 (Some 1%positive) (heap_of [39; 45; 11; 22]) = Ok tt m' /\
    list_at m' 1 l' /\
    forall (i : nat) (a b : positive),
      l' !! i = Some a -> l' !! S i = Some b -> node_data m' a <= node_data m' b.
Proof.
  assert (list_at (heap_of [39; 45; 11; 22]) 1 [10; 11; 12; 13]%positive) as Hl
    by (apply (list_at_nodes_of 4); vm_compute; reflexivity).
  assert (4 <= 4)%nat as Hf by lia.
  split; [exact Hl|]. split; [exact Hf|].
  exact (ListInsertionSort_sorted (heap_of [39; 45; 11; 22]) 1 _ 4 Hl Hf).
Defined.

(** C3 — Permutation preservation.  On every finite list, the empty and the
    one-node list included, the sort returns and the list it leaves holds the
    same nodes as before, hence the same values with the same multiplicities
    and the same number of them. *)
Theorem ListInsertionSort_permutation m lst l fuel :
  list_at m lst l ->
  (length l <= fuel)%nat ->
  exists m' l',
    ListInsertionSort fuel (Some lst) m = Ok tt m' /\
    list_at m' lst l' /\
    l' ≡ₚ l /\
    node_data m' <$> l' ≡ₚ node_data m <$> l /\
    length l' = length l.
Proof.
  intros Hl Hfuel. destruct (sort_spec m lst l fuel Hl Hfuel) as (m' & Hrun & Hl' & Hv).
  pose proof (place_all_perm (node_data m) [] l) as Hperm. simpl in Hperm.
  exists m', (place_all (node_data m) [] l). split; [exact Hrun|]. split; [exact Hl'|].
  split; [exact Hperm|]. split; [|rewrite Hperm; reflexivity].
  rewrite Hperm.
  assert (node_data m' <$> l = node_data m <$> l) as ->; [|reflexivity].
  apply list_fmap_ext. intros i a _. eapply same_values_data; eauto.
Qed.

Lemma ListInsertionSort_permutation_witness :
  list_at (heap_of [3; 3; 2; 1]) 1 [10; 11; 12; 13]%positive /\
  (4 <= 4)%nat /\
  exists m' l',
    ListInsertionSort 4 (Some 1%positive) (heap_of [3; 3; 2; 1]) = Ok tt m' /\
    list_at m' 1 l' /\
    l' ≡ₚ [10; 11; 12; 13]%positive /\
    node_data m' <$> l' ≡ₚ node_data (heap_of [3; 3; 2; 1]) <$> [10; 11; 12; 13]%positive /\
    length l' = length [10; 11; 12; 13]%positive.
Proof.
  assert (list_at (heap_of [3; 3; 2; 1]) 1 [10; 11; 12; 13]%positive) as Hl
    by (apply (list_at_nodes_of 4); vm_compute; reflexivity).
  assert (4 <= 4)%nat as Hf by lia.
  split; [exact Hl|]. split; [exact Hf|].
  exact (ListInsertionSort_permutation (heap_of [3; 3; 2; 1]) 1 _ 4 Hl Hf).
Defined.

(** C9 — Termination.  On every finite list the sort returns once the fuel
    reaches the length of the list.  When the list has at least two nodes the
    loop runs exactly one iteration for each node after the first: it is out
    of fuel with as many loop tests as there are such nodes, and returns with
    one more. *)
Theorem ListInsertionSort_terminates m lst l :
  list_at m lst l ->
  (forall fuel, (length l <= fuel)%nat ->
     exists m', ListInsertionSort fuel (Some lst) m = Ok tt m') /\
  (forall a b R sfuel fuel, l = a :: b :: R -> (length l <= sfuel)%nat ->
     ((fuel <= length (b :: R))%nat ->
        ListInsertionSort_loop sfuel fuel (Some lst) (Some a) (Some b) m = Timeout) /\
     ((length (b :: R) < fuel)%nat ->
        exists m', ListInsertionSort_loop sfuel fuel (Some lst) (Some a) (Some b) m
                   = Ok tt m')).
Proof.
  intros Hl. split.
  - intros fuel Hfuel. destruct (sort_spec m lst l fuel Hl Hfuel) as (m' & Hrun & _).
    eauto.
  - intros a b R sfuel fuel -> Hsf. simpl in Hsf. split; intros Hfuel.
    + apply (loop_timeout sfuel lst (b :: R) fuel m [] a Hl Hfuel). simpl. lia.
    + destruct (loop_spec sfuel lst (b :: R) fuel m [] a Hl Hfuel) as (m' & Hrun & _);
        [simpl; lia|eauto].
Qed.

Lemma ListInsertionSort_terminates_witness :
  list_at (heap_of [39; 45; 11; 22]) 1 [10; 11; 12; 13]%positive /\
  (exists m', ListInsertionSort 4 (Some 1%positive) (heap_of [39; 45; 11; 22]) = Ok tt m') /\
  ListInsertionSort_loop 4 3 (Some 1%positive) (Some 10%positive) (Some 11%positive)
    (heap_of [39; 45; 11; 22]) = Timeout.
Proof.
  assert (list_at (heap_of [39; 45; 11; 22]) 1 [10; 11; 12; 13]%positive) as Hl
    by (apply (list_at_nodes_of 4); vm_compute; reflexivity).
  split; [exact Hl|]. split.
  - apply (proj1 (ListInsertionSort_terminates (heap_of [39; 45; 11; 22]) 1 _ Hl) 4%nat).
    simpl. lia.
  - apply (proj2 (ListInsertionSort_terminates (heap_of [39; 45; 11; 22]) 1 _ Hl)
             10%positive 11%positive [12; 13]%positive 4%nat 3%nat eq_refl);
      simpl; lia.
Defined.

(** C8 — Internal call discipline.  On every finite list the sort never
    faults, whatever the fuel: no pointer is read through [nullptr] or outside
    the heap and the assertion of [ListInsertAfter] does not fire; with fuel
    up to the length of the list it returns.  At the top of every iteration [prev]
    is a node of the list and [curr] is its successor; when there is a
    [curr], [ListRemoveAfter(list, prev)] returns exactly [curr], and the
    iteration runs to its end.  The heap the sort returns is the heap of such
    a state with no [curr]. *)
Theorem ListInsertionSort_call_discipline m lst l fuel :
  list_at m lst l ->
  (length l <= fuel)%nat ->
  (forall fuel' f, ListInsertionSort fuel' (Some lst) m ≠ Fault f) /\
  exists m',
    ListInsertionSort fuel (Some lst) m = Ok tt m' /\
    forall a b R, l = a :: b :: R ->
      (exists prev', loop_reaches fuel (Some lst) (LoopState m (Some a) (Some b))
                       (LoopState m' prev' None)) /\
      forall s, loop_reaches fuel (Some lst) (LoopState m (Some a) (Some b)) s ->
        exists l' p,
          list_at (ls_mem s) lst l' /\
          ls_prev s = Some p /\
          p ∈ l' /\
          node_next (ls_mem s) p = ls_curr s /\
          forall c, ls_curr s = Some c ->
            (exists m1, ListRemoveAfter (Some lst) (ls_prev s) (ls_mem s) = Ok (Some c) m1) /\
            (exists s', loop_step fuel (Some lst) s s').
Proof.
  intros Hl Hfuel. split.
  { intros fuel' f. destruct (sort_no_fault m lst l fuel' Hl) as [(m' & ->)| ->];
      discriminate. }
  destruct (sort_spec m lst l fuel Hl Hfuel) as (m' & Hrun & _).
  exists m'. split; [exact Hrun|]. intros a b R ->. split.
  - rewrite (sort_enters_loop m lst a b R fuel Hl) in Hrun.
    exact (loop_run fuel (Some lst) fuel _ _ m m' Hrun).
  - intros s Hs.
    destruct (loop_inv_reaches fuel lst m _ _ s Hfuel (loop_inv_entry m lst a b R Hl) Hs)
      as (P & p & R' & Hl' & Hp & Hc & _ & _ & _ & Hlen).
    exists (P ++ p :: R'), p. split; [exact Hl'|]. split; [exact Hp|].
    split; [set_solver|]. split; [rewrite Hc; eapply chain_next; eauto|].
    intros c Hcurr. rewrite Hc in Hcurr. destruct R' as [|c' R']; [discriminate|].
    injection Hcurr as ->. rewrite Hp. split.
    + destruct (remove_after_chain _ _ _ _ _ _ Hl') as (m1 & Hrm & _). eauto.
    + rewrite length_app in Hlen. simpl in Hlen, Hfuel.
      destruct (body_spec fuel (ls_mem s) lst P p c R' Hl') as (m1 & Hbody & _); [lia|].
      destruct s as [ms ps cs]. simpl in *. subst ps cs.
      eexists. constructor. exact Hbody.
Qed.

Lemma ListInsertionSort_call_discipline_witness :
  list_at (heap_of [39; 45; 11; 22]) 1 [10; 11; 12; 13]%positive /\
  (4 <= 4)%nat /\
  exists m',
    ListInsertionSort 4 (Some 1%positive) (heap_of [39; 45; 11; 22]) = Ok tt m' /\
    exists prev', loop_reaches 4 (Some 1%positive)
                    (LoopState (heap_of [39; 45; 11; 22]) (Some 10%positive) (Some 11%positive))
                    (LoopState m' prev' None).
Proof.
  assert (list_at (heap_of [39; 45; 11; 22]) 1 [10; 11; 12; 13]%positive) as Hl
    by (apply (list_at_nodes_of 4); vm_compute; reflexivity).
  assert (4 <= 4)%nat as Hf by lia.
  split; [exact Hl|]. split; [exact Hf|].
  destruct (ListInsertionSort_call_discipline (heap_of [39; 45; 11; 22]) 1 _ 4 Hl Hf)
    as (_ & m' & Hrun & Hloop).
  exists m'. split; [exact Hrun|].
  exact (proj1 (Hloop 10%positive 11%positive [12; 13]%positive eq_refl)).
Defined.

(** ** Where the code departs from its documentation: equal values *)

(** C1 — Stability does not hold of the code.  On the specification's own
    example [5a -> 3 -> 5b] (nodes 10, 11, 12) the sort leaves
    [3 -> 5b -> 5a]: node 12 now precedes node 10, which holds the same
    value and came first in the input. *)
Theorem ListInsertionSort_not_stable :
  exists m',
    ListInsertionSort 3 (Some 1%positive) (heap_of [5; 3; 5]) = Ok tt m' /\
    nodes_of 3 (heap_of [5; 3; 5]) 1 = Some [10; 11; 12]%positive /\
    nodes_of 3 m' 1 = Some [11; 12; 10]%positive /\
    node_data m' 10 = 5 /\ node_data m' 12 = 5.
Proof.
  eexists. split; [vm_compute; reflexivity|]. vm_compute. auto.
Qed.

(** C6 — Sorting a sorted list with equal neighbours relinks it.  On
    [3a -> 3b] (nodes 10, 11), which is sorted, the sort leaves [3b -> 3a]. *)
Theorem ListInsertionSort_relinks_equal :
  exists m',
    ListInsertionSort 2 (Some 1%positive) (heap_of [3; 3]) = Ok tt m' /\
    nodes_of 2 (heap_of [3; 3]) 1 = Some [10; 11]%positive /\
    nodes_of 2 m' 1 = Some [11; 10]%positive /\
    node_data m' 10 = node_data m' 11.
Proof.
  eexists. split; [vm_compute; reflexivity|]. vm_compute. auto.
Qed.

(** C5 — The prefix is not stable at an iteration boundary.  On
    [7a -> 7b -> 9] (nodes 10, 11, 12) the first iteration leaves the chain
    [7b -> 7a -> 9] with [prev] at node 10 and [curr] at node 12: the prefix
    up to [prev] is sorted and the rest untouched, but the two equal nodes
    of the prefix have changed places. *)
Theorem loop_prefix_not_stable :
  exists s,
    loop_reaches 3 (Some 1%positive)
      (LoopState (heap_of [7; 7; 9]) (Some 10%positive) (Some 11%positive)) s /\
    nodes_of 3 (heap_of [7; 7; 9]) 1 = Some [10; 11; 12]%positive /\
    nodes_of 3 (ls_mem s) 1 = Some [11; 10; 12]%positive /\
    ls_prev s = Some 10%positive /\
    ls_curr s = Some 12%positive /\
    node_data (ls_mem s) 10 = node_data (ls_mem s) 11.
Proof.
  eexists (LoopState _ _ _). split.
  - eapply rtc_l; [|apply rtc_refl]. constructor. vm_compute. reflexivity.
  - vm_compute. auto 6.
Qed.

(** * Further properties of the code *)

(** ** The primitives: contracts, misuse and round trips *)

Lemma Mem_eq m ls nm : ls = lists m -> nm = nodes m -> mkMem ls nm = m.
Proof. destruct m; simpl; intros -> ->; reflexivity. Qed.

Lemma lseg_prefix nm p l1 q l :
  lseg nm p l1 q -> is_list nm p l -> exists l2, l = l1 ++ l2 /\ is_list nm q l2.
Proof.
  unfold is_list. revert p l. induction l1 as [|a l1 IH]; intros p l; simpl.
  - intros -> Hl. exists l. auto.
  - intros (-> & n & Hn & H1) Hl. destruct l as [|b l]; simpl in *; [discriminate|].
    destruct Hl as (Hb & n' & Hn' & Hl). injection Hb as <-.
    rewrite Hn in Hn'. injection Hn' as <-.
    destruct (IH _ _ H1 Hl) as (l2 & -> & H2). exists l2. auto.
Qed.

Lemma lseg_cycle_no_list nm a l1 l :
  lseg nm (Some a) (a :: l1) (Some a) -> ~ is_list nm (Some a) l.
Proof.
  intros Hcyc Hl. destruct (lseg_prefix _ _ _ _ _ Hcyc Hl) as (l2 & E & H2).
  pose proof (lseg_inj _ _ _ _ Hl H2) as <-.
  apply (f_equal length) in E. rewrite length_app in E. simpl in E. lia.
Qed.

(** X1 — ListPrepend on a list to which the node does not belong: the node
    becomes the head, its successor is the old head ([nullptr] for the empty
    list), the old nodes follow in their order, and no other node and no
    value changes. *)
Theorem ListPrepend_contract m lst l c :
  list_at m lst l ->
  c ∉ l ->
  is_Some (nodes m !! c) ->
  exists m',
    ListPrepend (Some lst) (Some c) m = Ok tt m' /\
    list_at m' lst (c :: l) /\
    lists m' !! lst = Some (mkList (Some c)) /\
    node_next m' c = hd_error l /\
    same_values m m' /\
    forall b, b ≠ c -> nodes m' !! b = nodes m !! b.
Proof.
  intros Hl Hc [n Hn]. pose proof Hl as (L & HL & Hch).
  eexists. split.
  { unfold ListPrepend, bind, get_head, set_next, set_head. rewrite HL, Hn. simpl.
    rewrite HL. reflexivity. }
  simpl. split; [|split; [apply lookup_insert_eq|split; [|split]]].
  - exists (mkList (Some c)). simpl. split; [apply lookup_insert_eq|].
    split; [reflexivity|]. eexists. split; [apply lookup_insert_eq|]. simpl.
    apply lseg_frame; [exact Hc|exact Hch].
  - unfold node_next. simpl. rewrite lookup_insert_eq. simpl.
    destruct l; [exact Hch|apply Hch].
  - apply same_values_set_next. exact Hn.
  - intros b Hb. apply lookup_insert_ne. congruence.
Qed.

Lemma ListPrepend_contract_witness :
  list_at (with_spare (heap_of [39; 45]) 99 11) 1 [10; 11]%positive /\
  (99%positive ∉ [10; 11]%positive) /\
  is_Some (nodes (with_spare (heap_of [39; 45]) 99 11) !! 99%positive) /\
  exists m',
    ListPrepend (Some 1%positive) (Some 99%positive) (with_spare (heap_of [39; 45]) 99 11)
      = Ok tt m' /\
    list_at m' 1 [99; 10; 11]%positive.
Proof.
  assert (list_at (with_spare (heap_of [39; 45]) 99 11) 1 [10; 11]%positive) as Hl
    by (apply (list_at_nodes_of 2); vm_compute; reflexivity).
  assert (99%positive ∉ [10; 11]%positive) as Hc by set_solver.
  assert (is_Some (nodes (with_spare (heap_of [39; 45]) 99 11) !! 99%positive)) as Hn
    by (vm_compute; eauto).
  split; [exact Hl|]. split; [exact Hc|]. split; [exact Hn|].
  destruct (ListPrepend_contract _ 1 _ 99 Hl Hc Hn) as (m' & Hrun & Hl' & _).
  exists m'. split; [exact Hrun|exact Hl'].
Defined.

(** X2 — ListPrepend does not check that the node is new.  Prepending a node
    that is already in the list succeeds and leaves a cycle through that
    node: from the head no chain of [next] ends at [nullptr] any more. *)
Theorem ListPrepend_member_cycle m lst l c :
  list_at m lst l ->
  c ∈ l ->
  exists m',
    ListPrepend (Some lst) (Some c) m = Ok tt m' /\
    lists m' !! lst = Some (mkList (Some c)) /\
    forall l', ~ list_at m' lst l'.
Proof.
  intros Hl Hc. pose proof (list_at_NoDup _ _ _ Hl) as Hnd.
  apply list_elem_of_split in Hc as (l1 & l2 & ->).
  pose proof Hl as (L & HL & Hch). unfold is_list in Hch.
  apply lseg_app in Hch as (r & H1 & Hr). pose proof Hr as (_ & n & Hn & _).
  eexists. split.
  { unfold ListPrepend, bind, get_head, set_next, set_head. rewrite HL, Hn. simpl.
    rewrite HL. reflexivity. }
  simpl. split; [apply lookup_insert_eq|].
  intros l' (L' & HL' & Hl'). simpl in HL', Hl'.
  rewrite lookup_insert_eq in HL'. injection HL' as <-. simpl in Hl'.
  refine (lseg_cycle_no_list _ c l1 l' _ Hl').
  split; [reflexivity|]. eexists. split; [apply lookup_insert_eq|]. simpl.
  apply lseg_frame; [chain_solve|]. destruct Hr as (-> & _). exact H1.
Qed.

Lemma ListPrepend_member_cycle_witness :
  list_at (heap_of [39; 45; 11]) 1 [10; 11; 12]%positive /\
  (11%positive ∈ [10; 11; 12]%positive) /\
  exists m',
    ListPrepend (Some 1%positive) (Some 11%positive) (heap_of [39; 45; 11]) = Ok tt m' /\
    forall l', ~ list_at m' 1 l'.
Proof.
  assert (list_at (heap_of [39; 45; 11]) 1 [10; 11; 12]%positive) as Hl
    by (apply (list_at_nodes_of 3); vm_compute; reflexivity).
  assert (11%positive ∈ [10; 11; 12]%positive) as Hc by set_solver.
  split; [exact Hl|]. split; [exact Hc|].
  destruct (ListPrepend_member_cycle _ 1 _ 11 Hl Hc) as (m' & Hrun & _ & Hno).
  exists m'. split; [exact Hrun|exact Hno].
Defined.

(** X3 — ListInsertAfter.  After an anchor of the list, with a node that is
    not in the list, the node sits right after the anchor, the rest of the
    list follows it, and no value changes.  With a null anchor the assertion
    fails before anything is read or written, whatever the heap. *)
Theorem ListInsertAfter_contract m lst l1 s l2 c :
  list_at m lst (l1 ++ s :: l2) ->
  c ∉ l1 ++ s :: l2 ->
  is_Some (nodes m !! c) ->
  (exists m',
     ListInsertAfter (Some lst) (Some s) (Some c) m = Ok tt m' /\
     list_at m' lst (l1 ++ s :: c :: l2) /\
     node_next m' s = Some c /\
     node_next m' c = node_next m s /\
     same_values m m' /\
     lists m' = lists m /\
     forall b, b ≠ c -> b ≠ s -> nodes m' !! b = nodes m !! b) /\
  (forall list newNode, ListInsertAfter list None newNode m = Fault AssertFailed).
Proof.
  intros Hl Hc [n Hn]. split; [|reflexivity].
  pose proof (list_at_NoDup _ _ _ Hl) as Hnd.
  destruct (insert_after_chain m lst l1 s l2 c Hl Hc (ex_intro _ n Hn))
    as (m' & Hrun & Hl' & Hv).
  exists m'. split; [exact Hrun|]. split; [exact Hl'|].
  destruct Hl as (L & HL & Hch). unfold is_list in Hch.
  apply lseg_app in Hch as (r & H1 & -> & ns & Hns & H2).
  assert (c ≠ s) as Hcs by set_solver.
  unfold ListInsertAfter, bind, get_next, set_next in Hrun. rewrite Hns, Hn in Hrun.
  simpl in Hrun. rewrite lookup_insert_ne in Hrun by congruence.
  rewrite Hns in Hrun. injection Hrun as <-. simpl.
  unfold node_next. simpl. rewrite lookup_insert_eq.
  rewrite lookup_insert_ne by congruence. rewrite lookup_insert_eq, Hns. simpl.
  split; [reflexivity|]. split; [reflexivity|]. split; [exact Hv|].
  split; [reflexivity|]. intros b Hbc Hbs.
  rewrite !lookup_insert_ne by congruence. reflexivity.
Qed.

Lemma ListInsertAfter_contract_witness :
  list_at (with_spare (heap_of [11; 39; 45]) 99 22) 1 ([10%positive] ++ 11%positive :: [12%positive]) /\
  (99%positive ∉ ([10%positive] ++ 11%positive :: [12%positive])) /\
  is_Some (nodes (with_spare (heap_of [11; 39; 45]) 99 22) !! 99%positive) /\
  exists m',
    ListInsertAfter (Some 1%positive) (Some 11%positive) (Some 99%positive)
      (with_spare (heap_of [11; 39; 45]) 99 22) = Ok tt m' /\
    list_at m' 1 [10; 11; 99; 12]%positive.
Proof.
  assert (list_at (with_spare (heap_of [11; 39; 45]) 99 22) 1 ([10%positive] ++ 11%positive :: [12%positive]))
    as Hl by (apply (list_at_nodes_of 3); vm_compute; reflexivity).
  assert (99%positive ∉ ([10%positive] ++ 11%positive :: [12%positive])) as Hc by set_solver.
  assert (is_Some (nodes (with_spare (heap_of [11; 39; 45]) 99 22) !! 99%positive)) as Hn
    by (vm_compute; eauto).
  split; [exact Hl|]. split; [exact Hc|]. split; [exact Hn|].
  destruct (proj1 (ListInsertAfter_contract _ 1 _ 11 _ 99 Hl Hc Hn)) as (m' & Hrun & Hl' & _).
  exists m'. split; [exact Hrun|exact Hl'].
Defined.

(** X4 — Removing a node and putting it back where it was restores the heap
    exactly: after [ListRemoveAfter(list, p)], [ListInsertAfter(list, p, r)]
    with the removed node [r]; and after [ListRemoveAfter(list, nullptr)],
    [ListPrepend(list, r)]. *)
Theorem remove_then_reinsert m lst l :
  list_at m lst l ->
  (forall l1 p c l2, l = l1 ++ p :: c :: l2 ->
     (r <- ListRemoveAfter (Some lst) (Some p); ListInsertAfter (Some lst) (Some p) r) m
       = Ok tt m) /\
  (forall c l', l = c :: l' ->
     (r <- ListRemoveAfter (Some lst) None; ListPrepend (Some lst) r) m = Ok tt m).
Proof.
  intros Hl. pose proof (list_at_NoDup _ _ _ Hl) as Hnd. split.
  - intros l1 p c l2 ->. destruct Hl as (L & HL & Hch). unfold is_list in Hch.
    apply lseg_app in Hch as (r & H1 & -> & np & Hnp & Hpc & nc & Hnc & H2).
    assert (c ≠ p) as Hcp by chain_solve.
    unfold ListRemoveAfter, ListInsertAfter, bind, get_next, set_next, ret.
    rewrite Hnp, Hpc, Hnc. simpl. rewrite Hnp. simpl.
    rewrite lookup_insert_ne by congruence. rewrite Hnc. simpl.
    rewrite lookup_insert_ne by congruence. rewrite lookup_insert_eq. simpl.
    rewrite lookup_insert_eq. simpl.
    rewrite lookup_insert_ne by congruence. rewrite lookup_insert_ne by congruence.
    rewrite lookup_insert_eq. simpl. f_equal. apply Mem_eq; [reflexivity|].
    apply map_eq. intros i.
    destruct (decide (i = p)) as [->|Hip].
    { rewrite lookup_insert_eq, Hnp, <- Hpc. destruct np; reflexivity. }
    rewrite lookup_insert_ne by congruence.
    destruct (decide (i = c)) as [->|Hic].
    { rewrite lookup_insert_eq, Hnc. destruct nc; reflexivity. }
    rewrite !lookup_insert_ne by congruence. reflexivity.
  - intros c l' ->. destruct Hl as (L & HL & Hc & nc & Hnc & H2).
    unfold ListRemoveAfter, ListPrepend, bind, get_head, get_next, set_head, set_next, ret.
    rewrite HL, Hc, Hnc. simpl. rewrite HL. simpl. rewrite Hnc. simpl.
    rewrite lookup_insert_eq. simpl. rewrite lookup_insert_eq. simpl.
    rewrite lookup_insert_eq. f_equal. apply Mem_eq.
    + rewrite insert_insert_eq. rewrite <- Hc. apply insert_id. rewrite HL.
      destruct L; reflexivity.
    + rewrite insert_insert_eq. apply insert_id. rewrite Hnc. destruct nc; reflexivity.
Qed.

Lemma remove_then_reinsert_witness :
  list_at (heap_of [39; 45; 11; 22]) 1 [10; 11; 12; 13]%positive /\
  (r <- ListRemoveAfter (Some 1%positive) (Some 11%positive);
   ListInsertAfter (Some 1%positive) (Some 11%positive) r) (heap_of [39; 45; 11; 22])
    = Ok tt (heap_of [39; 45; 11; 22]).
Proof.
  assert (list_at (heap_of [39; 45; 11; 22]) 1 [10; 11; 12; 13]%positive) as Hl
    by (apply (list_at_nodes_of 4); vm_compute; reflexivity).
  split; [exact Hl|].
  exact (proj1 (remove_then_reinsert _ 1 _ Hl) [10%positive] 11%positive 12%positive
           [13%positive] eq_refl).
Defined.

(** X5 — Inserting a node that is linked to nothing and removing it again
    restores the heap exactly and hands the node back:
    [ListInsertAfter(list, s, c)] then [ListRemoveAfter(list, s)], for any
    other node [s]; and [ListPrepend(list, c)] then
    [ListRemoveAfter(list, nullptr)]. *)
Theorem insert_then_remove m lst L s ns c n :
  lists m !! lst = Some L ->
  nodes m !! s = Some ns ->
  nodes m !! c = Some n ->
  next n = None ->
  c ≠ s ->
  (ListInsertAfter (Some lst) (Some s) (Some c);; ListRemoveAfter (Some lst) (Some s)) m
    = Ok (Some c) m /\
  (ListPrepend (Some lst) (Some c);; ListRemoveAfter (Some lst) None) m = Ok (Some c) m.
Proof.
  intros HL Hns Hn Hnone Hcs. split.
  - unfold ListInsertAfter, ListRemoveAfter, bind, get_next, set_next, ret.
    rewrite Hns, Hn. simpl. rewrite lookup_insert_ne by congruence. rewrite Hns. simpl.
    rewrite lookup_insert_eq. simpl.
    rewrite lookup_insert_ne by congruence. rewrite lookup_insert_eq. simpl.
    rewrite lookup_insert_eq. simpl.
    rewrite lookup_insert_ne by congruence. rewrite lookup_insert_ne by congruence.
    rewrite lookup_insert_eq. simpl. f_equal. apply Mem_eq; [reflexivity|].
    apply map_eq. intros i.
    destruct (decide (i = c)) as [->|Hic].
    { rewrite lookup_insert_eq, Hn, <- Hnone. destruct n; reflexivity. }
    rewrite lookup_insert_ne by congruence.
    destruct (decide (i = s)) as [->|His].
    { rewrite lookup_insert_eq, Hns. destruct ns; reflexivity. }
    rewrite !lookup_insert_ne by congruence. reflexivity.
  - unfold ListPrepend, ListRemoveAfter, bind, get_head, get_next, set_head, set_next, ret.
    rewrite HL, Hn. simpl. rewrite HL. simpl. rewrite lookup_insert_eq. simpl.
    rewrite lookup_insert_eq. simpl. rewrite lookup_insert_eq. simpl.
    rewrite lookup_insert_eq. f_equal. apply Mem_eq.
    + rewrite insert_insert_eq. apply insert_id. rewrite HL. destruct L; reflexivity.
    + rewrite insert_insert_eq. apply insert_id. rewrite Hn, <- Hnone.
      destruct n; reflexivity.
Qed.

Lemma insert_then_remove_witness :
  (ListInsertAfter (Some 1%positive) (Some 11%positive) (Some 99%positive);;
   ListRemoveAfter (Some 1%positive) (Some 11%positive))
    (with_spare (heap_of [11; 39; 45]) 99 22)
    = Ok (Some 99%positive) (with_spare (heap_of [11; 39; 45]) 99 22).
Proof.
  refine (proj1 (insert_then_remove (with_spare (heap_of [11; 39; 45]) 99 22) 1
                   (mkList (Some 10%positive)) 11 (mkNode 39 (Some 12%positive))
                   99 (mkNode 22 None) _ _ _ _ _)).
  - vm_compute. reflexivity.
  - vm_compute. reflexivity.
  - vm_compute. reflexivity.
  - reflexivity.
  - discriminate.
Defined.

(** ** The sort on ordered input *)

Lemma place_at_end d c P :
  (forall a, a ∈ P -> d a < d c) -> place d c P = P ++ [c].
Proof.
  induction P as [|a P IH]; intros H; simpl; [reflexivity|].
  assert ((d a <? d c) = true) as -> by (apply Z.ltb_lt, H; left).
  rewrite IH; [reflexivity|]. intros b Hb. apply H. right. exact Hb.
Qed.

Lemma place_at_head d c P :
  (forall a, hd_error P = Some a -> d c <= d a) -> place d c P = c :: P.
Proof.
  destruct P as [|a P]; intros H; simpl; [reflexivity|].
  assert ((d a <? d c) = false) as -> by (apply Z.ltb_ge, H; reflexivity).
  reflexivity.
Qed.

(** The values along [l] are strictly increasing / never increasing. *)
Lemma loop_increasing sfuel lst : forall R fuel m P p,
  list_at m lst (P ++ p :: R) ->
  (forall l1 a l2 b l3, P ++ p :: R = l1 ++ a :: l2 ++ b :: l3 ->
     node_data m a < node_data m b) ->
  (length R < fuel)%nat ->
  (length P + 1 + length R <= sfuel)%nat ->
  ListInsertionSort_loop sfuel fuel (Some lst) (Some p) (hd_error R) m = Ok tt m.
Proof.
  induction R as [|c R IH]; intros fuel m P p Hl Hinc Hfuel Hsfuel;
    (destruct fuel as [|fuel]; [simpl in Hfuel; lia|]); simpl; [reflexivity|].
  simpl in Hfuel, Hsfuel.
  destruct (body_spec sfuel m lst P p c R Hl) as (m1 & Hbody & Hl1 & _ & Hsame); [lia|].
  assert (place (node_data m) c (P ++ [p]) = (P ++ [p]) ++ [c]) as Hplace.
  { apply place_at_end. intros a Ha.
    apply list_elem_of_split in Ha as (l1 & l2 & E).
    apply (Hinc l1 a l2 c R).
    replace (P ++ p :: c :: R) with ((P ++ [p]) ++ c :: R)
      by (rewrite <- app_assoc; reflexivity).
    rewrite E, <- app_assoc. reflexivity. }
  rewrite <- app_assoc in Hplace. simpl in Hplace.
  rewrite (Hsame Hplace) in Hbody. rewrite (bind_Ok _ _ _ _ _ Hbody). simpl.
  rewrite Hplace. replace (P ++ [p; c]) with ((P ++ [p]) ++ [c])
    by (rewrite <- app_assoc; reflexivity).
  rewrite last_snoc.
  apply (IH fuel m (P ++ [p]) c).
  - rewrite <- app_assoc. exact Hl.
  - intros l1 a l2 b l3 E. apply (Hinc l1 a l2 b l3). rewrite <- E, <- app_assoc.
    reflexivity.
  - lia.
  - rewrite length_app. simpl. lia.
Qed.

Lemma adjacent_pairwise (d : positive -> Z) (l : list positive) :
  (forall (i : nat) a b, l !! i = Some a -> l !! S i = Some b -> d a < d b) ->
  forall l2 l1 a b l3, l = l1 ++ a :: l2 ++ b :: l3 -> d a < d b.
Proof.
  intros Hadj. induction l2 as [|x l2 IH]; intros l1 a b l3 E.
  - apply (Hadj (length l1)); rewrite E.
    + rewrite lookup_app_r by lia. rewrite Nat.sub_diag. reflexivity.
    + rewrite lookup_app_r by lia.
      replace (S (length l1) - length l1)%nat with 1%nat by lia. reflexivity.
  - transitivity (d x).
    + apply (Hadj (length l1)); rewrite E.
      * rewrite lookup_app_r by lia. rewrite Nat.sub_diag. reflexivity.
      * rewrite lookup_app_r by lia.
        replace (S (length l1) - length l1)%nat with 1%nat by lia. reflexivity.
    + apply (IH (l1 ++ [a]) x b l3). rewrite E, <- app_assoc. reflexivity.
Qed.

(** X6 — On a list whose values are strictly increasing the sort changes
    nothing: it returns with the heap it was given, no node is relinked. *)
Theorem ListInsertionSort_increasing_unchanged m lst l fuel :
  list_at m lst l ->
  (forall (i : nat) a b, l !! i = Some a -> l !! S i = Some b ->
     node_data m a < node_data m b) ->
  (length l <= fuel)%nat ->
  ListInsertionSort fuel (Some lst) m = Ok tt m.
Proof.
  intros Hl Hinc Hfuel. destruct l as [|a [|b R]].
  - destruct Hl as (L & HL & Hc). unfold is_list in Hc. simpl in Hc.
    unfold ListInsertionSort, bind, get_head. rewrite HL, Hc. reflexivity.
  - destruct Hl as (L & HL & Ha & na & Hna & Hn). simpl in Hn.
    unfold ListInsertionSort.
    rewrite (bind_Ok _ _ m (Some a) m) by (unfold get_head; rewrite HL, Ha; reflexivity).
    rewrite (bind_Ok _ _ m None m) by (unfold get_next; rewrite Hna, Hn; reflexivity).
    reflexivity.
  - rewrite (sort_enters_loop m lst a b R fuel Hl). simpl in Hfuel.
    apply (loop_increasing fuel lst (b :: R) fuel m [] a Hl); simpl; try lia.
    intros l1 x l2 y l3 E. exact (adjacent_pairwise _ _ Hinc l2 l1 x y l3 E).
Qed.

Lemma ListInsertionSort_increasing_unchanged_witness :
  list_at (heap_of [11; 22; 39; 45]) 1 [10; 11; 12; 13]%positive /\
  ListInsertionSort 4 (Some 1%positive) (heap_of [11; 22; 39; 45])
    = Ok tt (heap_of [11; 22; 39; 45]).
Proof.
  assert (list_at (heap_of [11; 22; 39; 45]) 1 [10; 11; 12; 13]%positive) as Hl
    by (apply (list_at_nodes_of 4); vm_compute; reflexivity).
  split; [exact Hl|].
  apply (ListInsertionSort_increasing_unchanged _ 1 _ 4 Hl); [|simpl; lia].
  intros [|[|[|[|i]]]] a b Ha Hb; simpl in Ha, Hb; try discriminate;
    injection Ha as <-; injection Hb as <-; vm_compute; reflexivity.
Defined.

Lemma place_all_reverse d : forall R P,
  (forall a b, hd_error P = Some a -> hd_error R = Some b -> d b <= d a) ->
  (forall (i : nat) a b, R !! i = Some a -> R !! S i = Some b -> d b <= d a) ->
  place_all d P R = reverse R ++ P.
Proof.
  unfold place_all. induction R as [|c R IH]; intros P Hhd Hadj; simpl; [reflexivity|].
  rewrite place_at_head by (intros a Ha; apply (Hhd a c Ha); reflexivity).
  rewrite IH.
  - rewrite reverse_cons, <- app_assoc. reflexivity.
  - intros a b [= <-] Hb. apply (Hadj 0%nat); [reflexivity|].
    destruct R; [discriminate|]. exact Hb.
  - intros i a b Ha Hb. apply (Hadj (S i)); assumption.
Qed.

(** X7 — On a list whose values never increase from a node to the next
    (descending lists, and lists of equal values) the sort returns the nodes
    in exactly the reverse order: every node after the first is unlinked and
    put at the head. *)
Theorem ListInsertionSort_descending_reversed m lst l fuel :
  list_at m lst l ->
  (forall (i : nat) a b, l !! i = Some a -> l !! S i = Some b ->
     node_data m b <= node_data m a) ->
  (length l <= fuel)%nat ->
  exists m',
    ListInsertionSort fuel (Some lst) m = Ok tt m' /\
    list_at m' lst (reverse l) /\
    same_values m m'.
Proof.
  intros Hl Hdesc Hfuel.
  destruct (sort_spec m lst l fuel Hl Hfuel) as (m' & Hrun & Hl' & Hv).
  exists m'. split; [exact Hrun|]. split; [|exact Hv].
  rewrite place_all_reverse in Hl'; [rewrite app_nil_r in Hl'; exact Hl'| |exact Hdesc].
  intros a b [=].
Qed.

Lemma ListInsertionSort_descending_reversed_witness :
  list_at (heap_of [45; 39; 39; 11]) 1 [10; 11; 12; 13]%positive /\
  exists m',
    ListInsertionSort 4 (Some 1%positive) (heap_of [45; 39; 39; 11]) = Ok tt m' /\
    list_at m' 1 [13; 12; 11; 10]%positive.
Proof.
  assert (list_at (heap_of [45; 39; 39; 11]) 1 [10; 11; 12; 13]%positive) as Hl
    by (apply (list_at_nodes_of 4); vm_compute; reflexivity).
  split; [exact Hl|].
  destruct (ListInsertionSort_descending_reversed _ 1 _ 4 Hl) as (m' & Hrun & Hl' & _).
  - intros [|[|[|[|i]]]] a b Ha Hb; simpl in Ha, Hb; try discriminate;
      injection Ha as <-; injection Hb as <-; vm_compute; discriminate.
  - simpl. lia.
  - exists m'. split; [exact Hrun|exact Hl'].
Defined.

(** ** Equal values come out in reverse *)

Lemma place_split d c P :
  exists P1 P2, P = P1 ++ P2 /\ place d c P = P1 ++ c :: P2 /\
                forall a, a ∈ P1 -> d a < d c.
Proof.
  induction P as [|a P (P1 & P2 & E & Hp & Hlt)]; simpl.
  - exists [], []. split; [reflexivity|]. split; [reflexivity|].
    intros a Ha. apply elem_of_nil in Ha as [].
  - destruct (d a <? d c) eqn:Hac.
    + exists (a :: P1), P2. simpl. split; [congruence|]. split; [congruence|].
      intros b Hb. apply elem_of_cons in Hb as [->|Hb]; [apply Z.ltb_lt, Hac|auto].
    + exists [], (a :: P). split; [reflexivity|]. split; [reflexivity|].
      intros b Hb. apply elem_of_nil in Hb as [].
Qed.

Lemma place_keeps_order d c P k : k `sublist_of` P -> k `sublist_of` place d c P.
Proof.
  destruct (place_split d c P) as (P1 & P2 & E & -> & _). rewrite E.
  intros Hk. apply sublist_app_r in Hk as (k1 & k2 & -> & H1 & H2).
  apply sublist_app; [exact H1|]. apply sublist_cons. exact H2.
Qed.

Lemma place_before_equal d c P x :
  x ∈ P -> d x = d c -> [c; x] `sublist_of` place d c P.
Proof.
  destruct (place_split d c P) as (P1 & P2 & E & -> & Hlt). rewrite E.
  intros Hx Hd. apply elem_of_app in Hx as [Hx|Hx].
  - specialize (Hlt x Hx). lia.
  - apply sublist_inserts_l, sublist_skip, singleton_sublist_l, Hx.
Qed.

Lemma place_all_reverses_equals d : forall R P done,
  (forall x, x ∈ done -> x ∈ P) ->
  (forall x y, [x; y] `sublist_of` done -> d x = d y -> [y; x] `sublist_of` P) ->
  forall x y, [x; y] `sublist_of` done ++ R -> d x = d y ->
              [y; x] `sublist_of` place_all d P R.
Proof.
  unfold place_all. induction R as [|c R IH]; intros P done Hin Hord x y Hxy Hd; simpl.
  - rewrite app_nil_r in Hxy. auto.
  - apply (IH (place d c P) (done ++ [c])); [| |rewrite <- app_assoc; exact Hxy|exact Hd].
    + intros z Hz. rewrite place_perm. apply elem_of_app in Hz as [Hz|Hz].
      * right. auto.
      * apply list_elem_of_singleton in Hz as ->. left.
    + clear x y Hxy Hd. intros x y Hxy Hd.
      apply sublist_app_r in Hxy as (k1 & k2 & E & H1 & H2).
      apply sublist_cons_r in H2 as [H2|(k2' & -> & H2)].
      * apply sublist_nil_r in H2 as ->. rewrite app_nil_r in E. subst k1.
        apply place_keeps_order. auto.
      * apply sublist_nil_r in H2 as ->.
        destruct k1 as [|x' [|? ?]]; simpl in E.
        -- discriminate.
        -- injection E as <- <-. apply place_before_equal; [|congruence].
           apply Hin. apply singleton_sublist_l. exact H1.
        -- destruct l; discriminate.
Qed.

(** X8 — The sort reverses equal values.  Whenever two nodes hold the same
    value, the one that came first in the input comes after the other in the
    output. *)
Theorem ListInsertionSort_reverses_equals m lst l fuel :
  list_at m lst l ->
  (length l <= fuel)%nat ->
  exists m' l',
    ListInsertionSort fuel (Some lst) m = Ok tt m' /\
    list_at m' lst l' /\
    forall x y, [x; y] `sublist_of` l -> node_data m x = node_data m y ->
                [y; x] `sublist_of` l'.
Proof.
  intros Hl Hfuel. destruct (sort_spec m lst l fuel Hl Hfuel) as (m' & Hrun & Hl' & _).
  exists m', (place_all (node_data m) [] l). split; [exact Hrun|]. split; [exact Hl'|].
  intros x y Hxy Hd. apply (place_all_reverses_equals _ l [] []); auto.
  intros a b Hab. apply sublist_nil_r in Hab. discriminate.
Qed.

Lemma ListInsertionSort_reverses_equals_witness :
  list_at (heap_of [3; 3; 2; 1]) 1 [10; 11; 12; 13]%positive /\
  exists m' l',
    ListInsertionSort 4 (Some 1%positive) (heap_of [3; 3; 2; 1]) = Ok tt m' /\
    list_at m' 1 l' /\
    [11; 10]%positive `sublist_of` l'.
Proof.
  assert (list_at (heap_of [3; 3; 2; 1]) 1 [10; 11; 12; 13]%positive) as Hl
    by (apply (list_at_nodes_of 4); vm_compute; reflexivity).
  split; [exact Hl|].
  destruct (ListInsertionSort_reverses_equals _ 1 _ 4 Hl) as (m' & l' & Hrun & Hl' & Hrev);
    [simpl; lia|].
  exists m', l'. split; [exact Hrun|]. split; [exact Hl'|].
  apply Hrev; [|vm_compute; reflexivity].
  apply sublist_skip, sublist_skip, sublist_nil_l.
Defined.

(** ** Building a list with PushBack *)

Lemma PushBack_loop_spec m : forall l z curr fuel,
  is_list (nodes m) curr (l ++ [z]) ->
  (length l < fuel)%nat ->
  PushBack_loop fuel curr m = Ok (Some z) m.
Proof.
  unfold is_list. induction l as [|x l IH]; intros z curr fuel Hl Hfuel;
    (destruct fuel as [|fuel]; [simpl in Hfuel; lia|]); simpl in *.
  - destruct Hl as (-> & n & Hn & Hnone). unfold bind, get_next. rewrite Hn, Hnone.
    reflexivity.
  - destruct Hl as (-> & n & Hn & Hl). unfold bind at 1. unfold get_next at 1. rewrite Hn.
    destruct (next n) as [y|] eqn:Hy.
    + rewrite <- Hy. apply IH; [rewrite Hy; exact Hl|lia].
    + destruct l; simpl in Hl; destruct Hl as (? & _); discriminate.
Qed.

Lemma list_at_fresh m lst l a : list_at m lst l -> nodes m !! a = None -> a ∉ l.
Proof.
  intros (L & _ & Hl) Ha Hin. destruct (lseg_lookup _ _ _ _ a Hl Hin) as [n Hn].
  congruence.
Qed.

Lemma PushBack_spec alloc m lst l d fuel :
  nodes m !! alloc m = None ->
  list_at m lst l ->
  (length l <= fuel)%nat ->
  exists m',
    PushBack alloc fuel (Some lst) d m = Ok tt m' /\
    list_at m' lst (l ++ [alloc m]) /\
    node_data m' <$> (l ++ [alloc m]) = (node_data m <$> l) ++ [d] /\
    node_next m' (alloc m) = None.
Proof.
  intros Hfree Hl Hfuel. pose proof (list_at_fresh _ _ _ _ Hl Hfree) as Ha.
  pose proof (list_at_NoDup _ _ _ Hl) as Hnd.
  destruct Hl as (L & HL & Hch). set (a := alloc m) in *.
  assert (forall m' : Mem, (forall b, b ∈ l -> node_data m' b = node_data m b) ->
            node_data m' a = d ->
            node_data m' <$> (l ++ [a]) = (node_data m <$> l) ++ [d]) as Hvals.
  { intros m' Hold Hnew. rewrite fmap_app. simpl. rewrite Hnew. f_equal.
    apply list_fmap_ext. intros i b Hb. apply Hold. eapply list_elem_of_lookup_2; eauto. }
  set (m1 := mkMem (lists m) (<[a := mkNode d None]> (nodes m))).
  unfold PushBack.
  rewrite (bind_Ok _ _ m (Some a) m1) by reflexivity.
  rewrite (bind_Ok _ _ m1 (head L) m1) by (unfold get_head; simpl; rewrite HL; reflexivity).
  destruct l as [|x l0].
  - unfold is_list in Hch. simpl in Hch. rewrite Hch.
    eexists. split.
    { unfold set_head. simpl. rewrite HL. reflexivity. }
    split; [|split].
    + exists (mkList (Some a)). simpl. split; [apply lookup_insert_eq|].
      split; [reflexivity|]. eexists. split; [apply lookup_insert_eq|]. reflexivity.
    + apply Hvals; [intros b Hb; apply elem_of_nil in Hb as []|].
      unfold node_data. simpl. rewrite lookup_insert_eq. reflexivity.
    + unfold node_next. simpl. rewrite lookup_insert_eq. reflexivity.
  - destruct (last (x :: l0)) as [z|] eqn:Hz; [|apply last_None in Hz; discriminate].
    apply last_Some in Hz as (l' & Hz). rewrite Hz in *.
    assert (length l' < fuel)%nat as Hlen by (rewrite length_app in Hfuel; simpl in Hfuel; lia).
    pose proof Hch as Hch'. unfold is_list in Hch'.
    apply lseg_snoc in Hch' as (Hpre & nz & Hnz & Hnone).
    assert (a ≠ z) as Haz by set_solver.
    assert (exists hx, head L = Some hx) as (hx & Hhx).
    { destruct l'; simpl in Hpre; [eauto|destruct Hpre as (? & _); eauto]. }
    rewrite Hhx.
    rewrite (bind_Ok _ _ m1 (Some hx) m1)
      by (unfold get_head; simpl; rewrite HL, Hhx; reflexivity).
    rewrite (bind_Ok _ _ m1 (Some z) m1).
    2:{ apply (PushBack_loop_spec m1 l'); [|exact Hlen]. simpl.
        rewrite <- Hhx. apply lseg_frame; [exact Ha|exact Hch]. }
    eexists. split.
    { unfold set_next. simpl. rewrite lookup_insert_ne by congruence. rewrite Hnz.
      reflexivity. }
    split; [|split].
    + exists L. simpl. split; [exact HL|]. unfold is_list.
      rewrite <- app_assoc. apply lseg_app. exists (Some z). split.
      * apply lseg_frame; [chain_solve|]. apply lseg_frame; [set_solver|]. exact Hpre.
      * split; [reflexivity|]. eexists. split; [apply lookup_insert_eq|]. simpl.
        split; [reflexivity|]. eexists. split.
        -- rewrite lookup_insert_ne by congruence. apply lookup_insert_eq.
        -- reflexivity.
    + apply Hvals.
      * intros b Hb. unfold node_data. simpl.
        destruct (decide (b = z)) as [->|Hbz].
        -- rewrite lookup_insert_eq, Hnz. reflexivity.
        -- rewrite lookup_insert_ne by congruence.
           rewrite lookup_insert_ne by set_solver. reflexivity.
      * unfold node_data. simpl. rewrite lookup_insert_ne by congruence.
        rewrite lookup_insert_eq. reflexivity.
    + unfold node_next. simpl. rewrite lookup_insert_ne by congruence.
      rewrite lookup_insert_eq. reflexivity.
Qed.

(** X9 — PushBack appends.  On a finite list, with an allocator that hands
    out a free address, [PushBack(list, d)] returns and the list is the old
    one followed by one new node holding [d]; the values in front are the
    same, and an empty list becomes the one-node list. *)
Theorem PushBack_appends alloc m lst l d fuel :
  nodes m !! alloc m = None ->
  list_at m lst l ->
  (length l <= fuel)%nat ->
  exists m',
    PushBack alloc fuel (Some lst) d m = Ok tt m' /\
    list_at m' lst (l ++ [alloc m]) /\
    node_data m' <$> (l ++ [alloc m]) = (node_data m <$> l) ++ [d] /\
    node_next m' (alloc m) = None /\
    (l = [] -> lists m' !! lst = Some (mkList (Some (alloc m)))).
Proof.
  intros Hfree Hl Hfuel.
  destruct (PushBack_spec alloc m lst l d fuel Hfree Hl Hfuel) as (m' & Hrun & Hl' & Hv & Hn).
  exists m'. split; [exact Hrun|]. split; [exact Hl'|]. split; [exact Hv|].
  split; [exact Hn|]. intros ->. destruct Hl' as (L' & HL' & Hc & _).
  rewrite HL', <- Hc. destruct L'; reflexivity.
Qed.

Lemma next_free_free m : nodes m !! next_free m = None.
Proof. unfold next_free. apply not_elem_of_dom, is_fresh. Qed.

Lemma PushBack_appends_witness :
  nodes (heap_of [39; 45]) !! next_free (heap_of [39; 45]) = None /\
  list_at (heap_of [39; 45]) 1 [10; 11]%positive /\
  exists m',
    PushBack next_free 2 (Some 1%positive) 11 (heap_of [39; 45]) = Ok tt m' /\
    list_at m' 1 ([10; 11]%positive ++ [next_free (heap_of [39; 45])]) /\
    node_data m' <$> ([10; 11]%positive ++ [next_free (heap_of [39; 45])])
      = (node_data (heap_of [39; 45]) <$> [10; 11]%positive) ++ [11].
Proof.
  assert (nodes (heap_of [39; 45]) !! next_free (heap_of [39; 45]) = None) as Hfree
    by (vm_compute; reflexivity).
  assert (list_at (heap_of [39; 45]) 1 [10; 11]%positive) as Hl
    by (apply (list_at_nodes_of 2); vm_compute; reflexivity).
  split; [exact Hfree|]. split; [exact Hl|].
  destruct (PushBack_appends next_free _ 1 _ 11 2 Hfree Hl) as (m' & Hrun & Hl' & Hv & _);
    [simpl; lia|].
  exists m'. split; [exact Hrun|]. split; [exact Hl'|exact Hv].
Defined.

Lemma PushBack_all_spec alloc fuel lst : forall vs m l,
  (forall m0, nodes m0 !! alloc m0 = None) ->
  list_at m lst l ->
  (length l + length vs <= fuel)%nat ->
  exists m' l',
    PushBack_all alloc fuel (Some lst) vs m = Ok tt m' /\
    list_at m' lst (l ++ l') /\
    node_data m' <$> (l ++ l') = (node_data m <$> l) ++ vs /\
    length l' = length vs.
Proof.
  induction vs as [|v vs IH]; intros m l Hfree Hl Hfuel; simpl in *.
  - exists m, []. rewrite !app_nil_r. auto.
  - destruct (PushBack_spec alloc m lst l v fuel (Hfree m) Hl) as (m1 & Hrun & Hl1 & Hv1 & _);
      [lia|].
    destruct (IH m1 (l ++ [alloc m]) Hfree Hl1) as (m' & l' & Hrun' & Hl' & Hv' & Hlen);
      [rewrite length_app; simpl; lia|].
    exists m', (alloc m :: l'). rewrite (bind_Ok _ _ _ _ _ Hrun).
    split; [exact Hrun'|]. rewrite <- app_assoc in Hl', Hv'. simpl in Hl', Hv'.
    split; [exact Hl'|]. split; [|simpl; lia].
    rewrite Hv', Hv1, <- app_assoc. reflexivity.
Qed.

(** X10 — A list is built by PushBack in the order of the calls.  With an
    allocator that always hands out a free address, pushing the values [vs]
    one after the other onto a finite list returns, and the list then holds
    its old values followed by [vs], in this order. *)
Theorem PushBack_all_builds alloc fuel lst vs m l :
  (forall m0, nodes m0 !! alloc m0 = None) ->
  list_at m lst l ->
  (length l + length vs <= fuel)%nat ->
  exists m' l',
    PushBack_all alloc fuel (Some lst) vs m = Ok tt m' /\
    list_at m' lst (l ++ l') /\
    node_data m' <$> (l ++ l') = (node_data m <$> l) ++ vs /\
    length (l ++ l') = (length l + length vs)%nat.
Proof.
  intros Hfree Hl Hfuel.
  destruct (PushBack_all_spec alloc fuel lst vs m l Hfree Hl Hfuel)
    as (m' & l' & Hrun & Hl' & Hv & Hlen).
  exists m', l'. split; [exact Hrun|]. split; [exact Hl'|]. split; [exact Hv|].
  rewrite length_app, Hlen. reflexivity.
Qed.

Lemma PushBack_all_builds_witness :
  list_at (heap_of []) 1 [] /\
  exists m' l',
    PushBack_all next_free 4 (Some 1%positive) [39; 45; 11; 22] (heap_of []) = Ok tt m' /\
    list_at m' 1 l' /\
    node_data m' <$> l' = [39; 45; 11; 22].
Proof.
  assert (list_at (heap_of []) 1 []) as Hl
    by (apply (list_at_nodes_of 0); vm_compute; reflexivity).
  split; [exact Hl|].
  destruct (PushBack_all_builds next_free 4 1 [39; 45; 11; 22] _ [] next_free_free Hl)
    as (m' & l' & Hrun & Hl' & Hv & _); [simpl; lia|].
  exists m', l'. split; [exact Hrun|]. split; [exact Hl'|exact Hv].
Defined.

(** ** Printing *)

Lemma string_app_cons (c : ascii) (s t : string) :
  String c s +:+ t = String c (s +:+ t).
Proof. reflexivity. Qed.

Lemma string_app_nil_l (s : string) : "" +:+ s = s.
Proof. reflexivity. Qed.

Lemma string_app_nil_r (s : string) : s +:+ "" = s.
Proof.
  induction s as [|c s IH]; [reflexivity|]. rewrite string_app_cons, IH. reflexivity.
Qed.

Lemma PrintList_loop_spec m : forall l curr fuel,
  is_list (nodes m) curr l ->
  (length l < fuel)%nat ->
  PrintList_loop fuel curr m
    = Ok (String.concat " -> " (to_string <$> (node_data m <$> l))) m.
Proof.
  unfold is_list. induction l as [|a l IH]; intros curr fuel Hl Hfuel;
    (destruct fuel as [|fuel]; [simpl in Hfuel; lia|]); simpl in Hl.
  - subst curr. reflexivity.
  - destruct Hl as (-> & n & Hn & Hl). simpl in Hfuel.
    cbn [PrintList_loop].
    rewrite (bind_Ok _ _ m (data n) m) by (unfold get_data; rewrite Hn; reflexivity).
    rewrite (bind_Ok _ _ m (next n) m) by (unfold get_next; rewrite Hn; reflexivity).
    rewrite (bind_Ok _ _ _ _ _ (IH (next n) fuel Hl ltac:(lia))).
    unfold ret. f_equal. rewrite !fmap_cons, (node_data_lookup _ _ _ Hn).
    destruct l as [|b l]; simpl in Hl.
    + rewrite Hl, !fmap_nil. cbn [String.concat].
      rewrite string_app_nil_l, string_app_nil_r. reflexivity.
    + destruct Hl as (-> & _). rewrite !fmap_cons. reflexivity.
Qed.

(** X11 — What PrintList writes.  On a finite list it returns, leaves the
    heap as it is, and has written the values in list order in decimal,
    separated by [" -> "], and a newline; for the empty list it writes the
    newline only. *)
Theorem PrintList_output m lst l fuel :
  list_at m lst l ->
  (length l < fuel)%nat ->
  PrintList fuel (Some lst) m = Ok (arrows (node_data m <$> l)) m.
Proof.
  intros (L & HL & Hl) Hfuel. unfold PrintList.
  rewrite (bind_Ok _ _ m (head L) m) by (unfold get_head; rewrite HL; reflexivity).
  rewrite (bind_Ok _ _ _ _ _ (PrintList_loop_spec m l (head L) fuel Hl Hfuel)).
  reflexivity.
Qed.

Lemma PrintList_output_witness :
  list_at (heap_of [39; -45; 0]) 1 [10; 11; 12]%positive /\
  PrintList 4 (Some 1%positive) (heap_of [39; -45; 0])
    = Ok ("39 -> -45 -> 0" +:+ String "010"%char "") (heap_of [39; -45; 0]).
Proof.
  assert (list_at (heap_of [39; -45; 0]) 1 [10; 11; 12]%positive) as Hl
    by (apply (list_at_nodes_of 3); vm_compute; reflexivity).
  split; [exact Hl|].
  exact (PrintList_output _ 1 _ 4 Hl ltac:(simpl; lia)).
Defined.

(** ** Freeing the list *)

Lemma lseg_frame_delete nm p l q a :
  a ∉ l -> lseg nm p l q -> lseg (delete a nm) p l q.
Proof.
  revert p. induction l as [|b l IH]; intros p Ha; simpl; [auto|].
  intros (-> & nb & Hb & H). split; [reflexivity|]. exists nb.
  apply not_elem_of_cons in Ha as [Hab Ha].
  rewrite lookup_delete_ne by congruence. auto.
Qed.

(** X12 — The clean-up loop of [main] frees the list and nothing else.  From
    the head of a finite chain it returns without reading a freed node or
    freeing a node twice; afterwards exactly the nodes of the chain are gone
    and the list objects are untouched, so a non-empty list is left with a
    dangling [head]. *)
Theorem main_cleanup_frees : forall l m curr fuel,
  is_list (nodes m) curr l ->
  (length l < fuel)%nat ->
  exists m',
    main_cleanup_loop fuel curr m = Ok tt m' /\
    lists m' = lists m /\
    forall a, nodes m' !! a = if decide (a ∈ l) then None else nodes m !! a.
Proof.
  induction l as [|x l IH]; intros m curr fuel Hl Hfuel;
    (destruct fuel as [|fuel]; [simpl in Hfuel; lia|]).
  - unfold is_list in Hl. simpl in Hl. subst curr. exists m.
    split; [reflexivity|]. split; [reflexivity|]. intros a.
    rewrite decide_False by apply not_elem_of_nil. reflexivity.
  - pose proof (is_list_NoDup _ _ _ Hl) as Hnd.
    destruct Hl as (-> & n & Hn & Hl). simpl in Hfuel. cbn [main_cleanup_loop].
    rewrite (bind_Ok _ _ m (next n) m) by (unfold get_next; rewrite Hn; reflexivity).
    rewrite (bind_Ok _ _ m tt (mkMem (lists m) (delete x (nodes m))))
      by (unfold delete_Node; rewrite Hn; reflexivity).
    apply NoDup_cons in Hnd as [Hx Hnd].
    destruct (IH (mkMem (lists m) (delete x (nodes m))) (next n) fuel) as (m' & Hrun & HL & Hnodes).
    { unfold is_list. simpl. apply lseg_frame_delete; [exact Hx|exact Hl]. }
    { lia. }
    exists m'. split; [exact Hrun|]. split; [exact HL|]. intros a. rewrite Hnodes. simpl.
    destruct (decide (a = x)) as [->|Hax].
    + rewrite decide_False by exact Hx. rewrite decide_True by left.
      apply lookup_delete_eq.
    + rewrite lookup_delete_ne by congruence.
      destruct (decide (a ∈ l)) as [Hal|Hal].
      * rewrite decide_True by (right; exact Hal). reflexivity.
      * rewrite decide_False; [reflexivity|].
        intros Hin. apply elem_of_cons in Hin as [?|?]; [congruence|auto].
Qed.

Lemma main_cleanup_frees_witness :
  is_list (nodes (heap_of [39; 45])) (Some 10%positive) [10; 11]%positive /\
  exists m',
    main_cleanup_loop 3 (Some 10%positive) (heap_of [39; 45]) = Ok tt m' /\
    nodes m' !! 10%positive = None /\ nodes m' !! 11%positive = None.
Proof.
  assert (is_list (nodes (heap_of [39; 45])) (Some 10%positive) [10; 11]%positive) as Hl
    by (apply (walk_is_list 2); vm_compute; reflexivity).
  split; [exact Hl|].
  destruct (main_cleanup_frees _ _ _ 3 Hl) as (m' & Hrun & _ & Hnodes); [simpl; lia|].
  exists m'. split; [exact Hrun|]. split.
  - rewrite Hnodes. apply decide_True. set_solver.
  - rewrite Hnodes. apply decide_True. set_solver.
Defined.

(** ** Building, sorting and printing *)

Lemma sorted_chain_Sorted d l : sorted_chain d l -> Sorted Z.le (d <$> l).
Proof.
  induction l as [|a [|b l] IH]; intros Hs.
  - constructor.
  - repeat constructor.
  - apply sorted_chain_cons in Hs as [Hab Hs]. rewrite fmap_cons.
    constructor; [exact (IH Hs)|]. rewrite fmap_cons. constructor. exact Hab.
Qed.

Lemma sort_values m lst l fuel :
  list_at m lst l ->
  (length l <= fuel)%nat ->
  exists m' l',
    ListInsertionSort fuel (Some lst) m = Ok tt m' /\
    list_at m' lst l' /\
    node_data m' <$> l' = merge_sort Z.le (node_data m <$> l).
Proof.
  intros Hl Hfuel. destruct (sort_spec m lst l fuel Hl Hfuel) as (m' & Hrun & Hl' & Hv).
  exists m', (place_all (node_data m) [] l). split; [exact Hrun|]. split; [exact Hl'|].
  assert (node_data m' <$> place_all (node_data m) [] l
          = node_data m <$> place_all (node_data m) [] l) as ->
    by (apply list_fmap_ext; intros i a _; eapply same_values_data; eauto).
  apply (Sorted_unique Z.le).
  - apply sorted_chain_Sorted, place_all_sorted, sorted_chain_nil.
  - apply Sorted_merge_sort. apply _.
  - rewrite merge_sort_Permutation. pose proof (place_all_perm (node_data m) [] l) as Hp.
    simpl in Hp. rewrite Hp. reflexivity.
Qed.

(** X13 — Build, sort, print.  Whatever values are pushed onto an empty list,
    sorting the list and printing it writes exactly those values in
    non-decreasing order (the order any correct sort of the values gives),
    with [" -> "] between them. *)
Theorem build_sort_print alloc fuel lst m vs :
  (forall m0, nodes m0 !! alloc m0 = None) ->
  list_at m lst [] ->
  (length vs < fuel)%nat ->
  exists m',
    (PushBack_all alloc fuel (Some lst) vs;;
     ListInsertionSort fuel (Some lst);;
     PrintList fuel (Some lst)) m
      = Ok (arrows (merge_sort Z.le vs)) m'.
Proof.
  intros Hfree Hl Hfuel.
  destruct (PushBack_all_spec alloc fuel lst vs m [] Hfree Hl)
    as (m1 & l1 & Hbuild & Hl1 & Hv1 & Hlen1); [simpl; lia|].
  simpl in Hl1, Hv1.
  destruct (sort_values m1 lst l1 fuel Hl1) as (m2 & l2 & Hsort & Hl2 & Hv2); [lia|].
  assert (length l2 = length vs) as Hlen2.
  { apply (f_equal length) in Hv2. rewrite length_fmap in Hv2. rewrite Hv2, Hv1.
    apply Permutation_length, merge_sort_Permutation. }
  exists m2. rewrite (bind_Ok _ _ _ _ _ Hbuild), (bind_Ok _ _ _ _ _ Hsort).
  destruct Hl2 as (L2 & HL2 & Hc2). unfold PrintList.
  rewrite (bind_Ok _ _ m2 (head L2) m2) by (unfold get_head; rewrite HL2; reflexivity).
  rewrite (bind_Ok _ _ _ _ _ (PrintList_loop_spec m2 l2 (head L2) fuel Hc2 ltac:(lia))).
  rewrite Hv2, Hv1. reflexivity.
Qed.

Lemma build_sort_print_witness :
  list_at (heap_of []) 1 [] /\
  exists m',
    (PushBack_all next_free 5 (Some 1%positive) [39; 45; 11; 22];;
     ListInsertionSort 5 (Some 1%positive);;
     PrintList 5 (Some 1%positive)) (heap_of [])
      = Ok ("11 -> 22 -> 39 -> 45" +:+ String "010"%char "") m'.
Proof.
  assert (list_at (heap_of []) 1 []) as Hl
    by (apply (list_at_nodes_of 0); vm_compute; reflexivity).
  split; [exact Hl|].
  exact (build_sort_print next_free 5 1 (heap_of []) [39; 45; 11; 22] next_free_free Hl
           ltac:(simpl; lia)).
Defined.

(** ** The trace display: escape sequences *)

Example strip_ansi_example :
  traceui.strip_ansi (traceui.fg (traceui.mkTerm true) 196 +:+ "[39]" +:+
                      traceui.reset (traceui.mkTerm true)) = "[39]".
Proof. reflexivity. Qed.

Example boxMid_example :
  traceui.boxMid (traceui.mkTerm false) "ab" 4 = "│ ab   │".
Proof. reflexivity. Qed.

Local Arguments String.append : simpl nomatch.

Lemma chars_cons c s : chars (String c s) = c :: chars s.
Proof. reflexivity. Qed.

Lemma chars_app s t : chars (s +:+ t) = chars s ++ chars t.
Proof. unfold chars. induction s as [|c s IH]; simpl; [reflexivity|]. f_equal. exact IH. Qed.

Lemma string_app_assoc (s t u : string) : (s +:+ t) +:+ u = s +:+ t +:+ u.
Proof. induction s as [|c s IH]; simpl; [reflexivity|]. rewrite IH. reflexivity. Qed.

Lemma string_length_app (s t : string) :
  String.length (s +:+ t) = (String.length s + String.length t)%nat.
Proof. induction s as [|c s IH]; simpl; [reflexivity|]. rewrite IH. reflexivity. Qed.

Lemma strip_from_no_escape b s : traceui.ESC ∉ chars (traceui.strip_ansi_from b s).
Proof.
  unfold chars. revert b. induction s as [|c s IH]; intros b; simpl; [apply not_elem_of_nil|].
  destruct (Ascii.eqb c traceui.ESC) eqn:Hc; [apply IH|].
  destruct (b && Ascii.eqb c "m"); [apply IH|].
  destruct b; simpl; [apply IH|].
  apply not_elem_of_cons. split; [|apply IH].
  apply Ascii.eqb_neq in Hc. congruence.
Qed.

Lemma strip_from_length b s :
  (String.length (traceui.strip_ansi_from b s) <= String.length s)%nat.
Proof.
  revert b. induction s as [|c s IH]; intros b; simpl; [lia|].
  destruct (Ascii.eqb c traceui.ESC); [specialize (IH true); lia|].
  destruct (b && Ascii.eqb c "m"); [specialize (IH false); lia|].
  destruct b; simpl; [specialize (IH true)|specialize (IH false)]; lia.
Qed.

Lemma strip_plain s : traceui.ESC ∉ chars s -> traceui.strip_ansi s = s.
Proof.
  unfold traceui.strip_ansi, chars. induction s as [|c s IH]; intros Hs; simpl; [reflexivity|].
  simpl in Hs. apply not_elem_of_cons in Hs as [Hc Hs].
  assert (Ascii.eqb c traceui.ESC = false) as -> by (apply Ascii.eqb_neq; congruence).
  simpl. rewrite IH by exact Hs. reflexivity.
Qed.

(** X14 — What strip_ansi returns holds no escape character and is never
    longer than its argument. *)
Theorem strip_ansi_no_escape s :
  (traceui.ESC ∉ chars (traceui.strip_ansi s)) /\
  (String.length (traceui.strip_ansi s) <= String.length s)%nat.
Proof.
  split; [apply strip_from_no_escape|apply strip_from_length].
Qed.

(** X15 — strip_ansi returns a text without escape characters as it is, so
    stripping twice is the same as stripping once. *)
Theorem strip_ansi_idempotent s :
  (traceui.ESC ∉ chars s -> traceui.strip_ansi s = s) /\
  traceui.strip_ansi (traceui.strip_ansi s) = traceui.strip_ansi s.
Proof.
  split; [apply strip_plain|]. apply strip_plain, strip_from_no_escape.
Qed.

Lemma strip_ansi_idempotent_witness :
  (traceui.ESC ∉ chars "[39] -> [45]") /\
  traceui.strip_ansi "[39] -> [45]" = "[39] -> [45]".
Proof.
  assert (traceui.ESC ∉ chars "[39] -> [45]") as H.
  { intros Hin. apply list_elem_of_In in Hin. vm_compute in Hin.
    repeat (destruct Hin as [Hin|Hin]; [discriminate|]). exact Hin. }
  split; [exact H|]. exact (proj1 (strip_ansi_idempotent "[39] -> [45]") H).
Defined.

Lemma strip_from_app b a s :
  traceui.strip_ansi_from b (a +:+ s)
    = traceui.strip_ansi_from b a +:+ traceui.strip_ansi_from (escape_after b a) s.
Proof.
  revert b. induction a as [|c a IH]; intros b; simpl; [reflexivity|].
  destruct (Ascii.eqb c traceui.ESC); [apply IH|].
  destruct (b && Ascii.eqb c "m"); [apply IH|].
  destruct b; simpl; [apply IH|]. rewrite IH. reflexivity.
Qed.

Lemma escape_after_app b a s :
  escape_after b (a +:+ s) = escape_after (escape_after b a) s.
Proof.
  revert b. induction a as [|c a IH]; intros b; simpl; [reflexivity|].
  destruct (Ascii.eqb c traceui.ESC); [apply IH|].
  destruct (b && Ascii.eqb c "m"); apply IH.
Qed.

Lemma in_escape_no_m a :
  "m"%char ∉ chars a ->
  traceui.strip_ansi_from true a = "" /\ escape_after true a = true.
Proof.
  unfold chars. induction a as [|c a IH]; intros Ha; simpl; [auto|].
  simpl in Ha. apply not_elem_of_cons in Ha as [Hc Ha].
  destruct (Ascii.eqb c traceui.ESC); [exact (IH Ha)|].
  assert (Ascii.eqb c "m" = false) as -> by (apply Ascii.eqb_neq; congruence).
  simpl. exact (IH Ha).
Qed.

(** X16 — An escape sequence runs from an escape character to the next
    ['m'], whatever stands between them: strip_ansi drops all of it and
    keeps what follows; a sequence that is never closed hides the rest of
    the text. *)
Theorem strip_ansi_escape a :
  "m"%char ∉ chars a ->
  (forall b, traceui.strip_ansi (String traceui.ESC (a +:+ String "m" b))
             = traceui.strip_ansi b) /\
  traceui.strip_ansi (String traceui.ESC a) = "".
Proof.
  intros Ha. destruct (in_escape_no_m a Ha) as [Hs He]. unfold traceui.strip_ansi.
  split.
  - intros b. simpl. rewrite strip_from_app, Hs, He. simpl. reflexivity.
  - simpl. exact Hs.
Qed.

Lemma strip_ansi_escape_witness :
  ("m"%char ∉ chars "[38;5;196") /\
  traceui.strip_ansi (String traceui.ESC ("[38;5;196" +:+ String "m" "[39]")) = "[39]".
Proof.
  assert ("m"%char ∉ chars "[38;5;196") as H.
  { intros Hin. apply list_elem_of_In in Hin. vm_compute in Hin.
    repeat (destruct Hin as [Hin|Hin]; [discriminate|]). exact Hin. }
  split; [exact H|]. exact (proj1 (strip_ansi_escape "[38;5;196" H) "[39]").
Defined.

Lemma string_of_uint_chars d c :
  c ∈ chars (NilEmpty.string_of_uint d) -> c ∈ chars "0123456789".
Proof.
  unfold chars. induction d as [|d IH|d IH|d IH|d IH|d IH|d IH|d IH|d IH|d IH|d IH];
    simpl; intros Hc;
    [apply elem_of_nil in Hc as []|..];
    (apply elem_of_cons in Hc as [->|Hc]; [|exact (IH Hc)]);
    apply list_elem_of_In; simpl; tauto.
Qed.

Lemma to_string_chars z c : c ∈ chars (to_string z) -> c ∈ chars "-0123456789".
Proof.
  unfold to_string, NilZero.string_of_int.
  assert (forall d, c ∈ chars (NilZero.string_of_uint d) -> c ∈ chars "0123456789") as Hu.
  { intros d. unfold NilZero.string_of_uint. destruct d; try apply string_of_uint_chars.
    unfold chars. simpl. intros Hc. apply list_elem_of_singleton in Hc as ->.
    apply list_elem_of_In; simpl; tauto. }
  destruct (Z.to_int z) as [d|d]; intros Hc.
  - right. exact (Hu d Hc).
  - unfold chars in Hc. simpl in Hc. apply elem_of_cons in Hc as [->|Hc]; [left|].
    right. exact (Hu d Hc).
Qed.

Lemma to_string_no_m z : "m"%char ∉ chars (to_string z).
Proof.
  intros Hc. apply to_string_chars, list_elem_of_In in Hc. vm_compute in Hc.
  repeat (destruct Hc as [Hc|Hc]; [discriminate|]). exact Hc.
Qed.

Lemma to_string_plain z : plain_text (to_string z).
Proof.
  intros c Hc. apply to_string_chars, list_elem_of_In in Hc. vm_compute in Hc.
  repeat (destruct Hc as [<-|Hc]; [split; [discriminate|vm_compute; lia]|]).
  destruct Hc.
Qed.

Lemma code_invisible a :
  "m"%char ∉ chars a ->
  traceui.strip_ansi_from false (String traceui.ESC a +:+ "m") = "" /\
  escape_after false (String traceui.ESC a +:+ "m") = false.
Proof.
  intros Ha. destruct (in_escape_no_m a Ha) as [Hs He]. simpl.
  rewrite strip_from_app, escape_after_app, Hs, He. simpl. auto.
Qed.

Lemma not_m_app a b : "m"%char ∉ chars a -> "m"%char ∉ chars b -> "m"%char ∉ chars (a +:+ b).
Proof. rewrite chars_app. set_solver. Qed.

Lemma fg_invisible T c :
  traceui.strip_ansi_from false (traceui.fg T c) = "" /\
  escape_after false (traceui.fg T c) = false.
Proof.
  unfold traceui.fg. destruct (traceui.color T); [|auto].
  rewrite <- string_app_assoc. apply (code_invisible ("[38;5;" +:+ to_string c)).
  apply not_m_app; [|apply to_string_no_m].
  intros Hin. apply list_elem_of_In in Hin. vm_compute in Hin.
  repeat (destruct Hin as [Hin|Hin]; [discriminate|]). exact Hin.
Qed.

Lemma bg_invisible T c :
  traceui.strip_ansi_from false (traceui.bg T c) = "" /\
  escape_after false (traceui.bg T c) = false.
Proof.
  unfold traceui.bg. destruct (traceui.color T); [|auto].
  rewrite <- string_app_assoc. apply (code_invisible ("[48;5;" +:+ to_string c)).
  apply not_m_app; [|apply to_string_no_m].
  intros Hin. apply list_elem_of_In in Hin. vm_compute in Hin.
  repeat (destruct Hin as [Hin|Hin]; [discriminate|]). exact Hin.
Qed.

Lemma attr_invisible T :
  (traceui.strip_ansi_from false (traceui.reset T) = "" /\
   escape_after false (traceui.reset T) = false) /\
  (traceui.strip_ansi_from false (traceui.bold T) = "" /\
   escape_after false (traceui.bold T) = false) /\
  (traceui.strip_ansi_from false (traceui.dim T) = "" /\
   escape_after false (traceui.dim T) = false).
Proof.
  unfold traceui.reset, traceui.bold, traceui.dim.
  destruct (traceui.color T); repeat split; reflexivity.
Qed.

Lemma strip_app_closed a s :
  escapes_closed a ->
  traceui.strip_ansi (a +:+ s) = traceui.strip_ansi a +:+ traceui.strip_ansi s.
Proof. unfold escapes_closed, traceui.strip_ansi. intros Ha. rewrite strip_from_app, Ha. reflexivity. Qed.

(** X17 — The colour and attribute codes of [Term] take no room: for every
    colour number, and with colours on or off, strip_ansi removes [fg],
    [bg], [reset], [bold] and [dim] from the front of a text and keeps the
    text behind them as it would alone. *)
Theorem Term_codes_invisible T c s :
  traceui.strip_ansi (traceui.fg T c +:+ s) = traceui.strip_ansi s /\
  traceui.strip_ansi (traceui.bg T c +:+ s) = traceui.strip_ansi s /\
  traceui.strip_ansi (traceui.reset T +:+ s) = traceui.strip_ansi s /\
  traceui.strip_ansi (traceui.bold T +:+ s) = traceui.strip_ansi s /\
  traceui.strip_ansi (traceui.dim T +:+ s) = traceui.strip_ansi s.
Proof.
  destruct (fg_invisible T c) as [Hf1 Hf2]. destruct (bg_invisible T c) as [Hb1 Hb2].
  destruct (attr_invisible T) as ((Hr1 & Hr2) & (Ho1 & Ho2) & (Hd1 & Hd2)).
  unfold traceui.strip_ansi.
  rewrite !strip_from_app, Hf1, Hf2, Hb1, Hb2, Hr1, Hr2, Ho1, Ho2, Hd1, Hd2.
  repeat split; reflexivity.
Qed.

(** ** The trace display: boxes *)

Lemma repeat_length s n :
  String.length (traceui.repeat s n) = (n * String.length s)%nat.
Proof. induction n as [|n IH]; simpl; [reflexivity|]. rewrite string_length_app, IH. reflexivity. Qed.

Lemma columns_cons c s :
  columns (String c s) = if continuation_byte c then columns s else S (columns s).
Proof. reflexivity. Qed.

Lemma columns_app a b : columns (a +:+ b) = (columns a + columns b)%nat.
Proof.
  induction a as [|c a IH]; [reflexivity|].
  rewrite string_app_cons, !columns_cons, IH.
  destruct (continuation_byte c); reflexivity.
Qed.

Lemma repeat_columns s n : columns (traceui.repeat s n) = (n * columns s)%nat.
Proof.
  induction n as [|n IH]; [reflexivity|].
  cbn [traceui.repeat]. rewrite columns_app, IH. reflexivity.
Qed.

Lemma repeat_strip s n :
  traceui.ESC ∉ chars s ->
  traceui.strip_ansi_from false (traceui.repeat s n) = traceui.repeat s n /\
  escape_after false (traceui.repeat s n) = false.
Proof.
  intros Hs. assert (traceui.ESC ∉ chars (traceui.repeat s n)) as Hr.
  { induction n as [|n IH]; simpl; [apply not_elem_of_nil|]. rewrite chars_app. set_solver. }
  split; [exact (strip_plain _ Hr)|].
  revert Hr. generalize (traceui.repeat s n). clear. intros s.
  unfold chars. induction s as [|c s IH]; simpl; intros Hs; [reflexivity|].
  apply not_elem_of_cons in Hs as [Hc Hs].
  assert (Ascii.eqb c traceui.ESC = false) as -> by (apply Ascii.eqb_neq; congruence).
  simpl. exact (IH Hs).
Qed.

Lemma no_esc_closed s :
  traceui.ESC ∉ chars s ->
  traceui.strip_ansi_from false s = s /\ escape_after false s = false.
Proof.
  intros Hs. pose proof (repeat_strip s 1 Hs) as H. simpl in H.
  rewrite string_app_nil_r in H. exact H.
Qed.

Lemma plain_columns s :
  (forall c, c ∈ chars s -> (nat_of_ascii c < 128)%nat) -> columns s = String.length s.
Proof.
  unfold chars. induction s as [|c s IH]; intros Hs; [reflexivity|].
  assert (nat_of_ascii c < 128)%nat as Hc by (apply Hs; left).
  rewrite columns_cons. unfold continuation_byte.
  assert ((128 <=? nat_of_ascii c)%nat = false) as -> by (apply Nat.leb_gt; exact Hc).
  cbn [andb String.length]. rewrite IH; [reflexivity|].
  intros c' Hc'. apply Hs. right. exact Hc'.
Qed.

Lemma box_border T (l r : string) w :
  traceui.ESC ∉ chars l -> traceui.ESC ∉ chars r ->
  traceui.strip_ansi (traceui.fg T traceui.C_BORDER +:+ l +:+ traceui.repeat "─" w +:+ r
                      +:+ traceui.reset T)
    = l +:+ traceui.repeat "─" w +:+ r.
Proof.
  intros Hl Hr. destruct (fg_invisible T traceui.C_BORDER) as [Hf1 Hf2].
  destruct (attr_invisible T) as ((Hr1 & Hr2) & _).
  destruct (no_esc_closed l Hl) as [Hl1 Hl2]. destruct (no_esc_closed r Hr) as [Hr3 Hr4].
  destruct (repeat_strip "─" w) as [Hd1 Hd2].
  { intros Hin. apply list_elem_of_In in Hin. vm_compute in Hin.
    repeat (destruct Hin as [Hin|Hin]; [discriminate|]). exact Hin. }
  unfold traceui.strip_ansi.
  rewrite !strip_from_app, Hf2, Hl2, Hd2, Hr4, Hf1, Hl1, Hd1, Hr3, Hr1.
  rewrite string_app_nil_l, string_app_nil_r. reflexivity.
Qed.

Ltac no_esc_literal :=
  let Hin := fresh in
  intros Hin; apply list_elem_of_In in Hin; vm_compute in Hin;
  repeat (destruct Hin as [Hin|Hin]; [discriminate|]); exact Hin.

Lemma box_border_columns T w :
  columns (traceui.strip_ansi (traceui.boxTop T w)) = (w + 2)%nat /\
  columns (traceui.strip_ansi (traceui.boxDivider T w)) = (w + 2)%nat /\
  columns (traceui.strip_ansi (traceui.boxBottom T w)) = (w + 2)%nat.
Proof.
  unfold traceui.boxTop, traceui.boxDivider, traceui.boxBottom.
  rewrite !box_border by no_esc_literal.
  rewrite !columns_app, !repeat_columns.
  change (columns "─") with 1%nat. change (columns "┌") with 1%nat.
  change (columns "┐") with 1%nat. change (columns "├") with 1%nat.
  change (columns "┤") with 1%nat. change (columns "└") with 1%nat.
  change (columns "┘") with 1%nat. repeat split; lia.
Qed.

Lemma boxMid_strip T s w :
  escape_after false s = false ->
  traceui.strip_ansi (traceui.boxMid T s w)
    = "│ " +:+ traceui.strip_ansi s
       +:+ traceui.repeat " " (w - String.length (traceui.strip_ansi s)) +:+ " │".
Proof.
  intros Hs.
  destruct (fg_invisible T traceui.C_BORDER) as [Hf1 Hf2].
  destruct (attr_invisible T) as ((Hr1 & Hr2) & _).
  set (len := String.length (traceui.strip_ansi s)).
  unfold traceui.boxMid. fold len.
  assert ((if (len <? w)%nat then traceui.repeat " " (w - len) else "")
          = traceui.repeat " " (w - len)) as ->.
  { destruct (len <? w)%nat eqn:Hlt; [reflexivity|]. apply Nat.ltb_ge in Hlt.
    replace (w - len)%nat with 0%nat by lia. reflexivity. }
  destruct (repeat_strip " " (w - len)) as [Hp1 Hp2]; [no_esc_literal|].
  destruct (no_esc_closed "│ ") as [Ha1 Ha2]; [no_esc_literal|].
  destruct (no_esc_closed " │") as [Hb1 Hb2]; [no_esc_literal|].
  unfold traceui.strip_ansi.
  rewrite !strip_from_app, Hf2, Ha2, Hr2, Hs, Hp2, Hf2, Hb2, Hf1, Ha1, Hr1, Hp1, Hb1.
  rewrite !string_app_nil_l, string_app_nil_r. reflexivity.
Qed.

Lemma boxMid_columns T s w :
  escape_after false s = false ->
  (forall c, c ∈ chars (traceui.strip_ansi s) -> (nat_of_ascii c < 128)%nat) ->
  columns (traceui.strip_ansi (traceui.boxMid T s w))
    = (Nat.max w (String.length (traceui.strip_ansi s)) + 4)%nat.
Proof.
  intros Hs Hplain. rewrite (boxMid_strip T s w Hs).
  rewrite !columns_app, repeat_columns, (plain_columns _ Hplain).
  change (columns "│ ") with 2%nat. change (columns " │") with 2%nat.
  change (columns " ") with 1%nat. lia.
Qed.

(** X18 — The border rows of a box.  With colours on or off, what is seen
    of [boxTop], [boxDivider] and [boxBottom] is a corner, [w] dashes and a
    corner: [w + 2] columns. *)
Theorem box_borders T w :
  traceui.strip_ansi (traceui.boxTop T w) = "┌" +:+ traceui.repeat "─" w +:+ "┐" /\
  traceui.strip_ansi (traceui.boxDivider T w) = "├" +:+ traceui.repeat "─" w +:+ "┤" /\
  traceui.strip_ansi (traceui.boxBottom T w) = "└" +:+ traceui.repeat "─" w +:+ "┘" /\
  columns (traceui.strip_ansi (traceui.boxTop T w)) = (w + 2)%nat /\
  columns (traceui.strip_ansi (traceui.boxDivider T w)) = (w + 2)%nat /\
  columns (traceui.strip_ansi (traceui.boxBottom T w)) = (w + 2)%nat.
Proof.
  destruct (box_border_columns T w) as (H1 & H2 & H3).
  unfold traceui.boxTop, traceui.boxDivider, traceui.boxBottom in *.
  rewrite !box_border by no_esc_literal.
  rewrite !box_border in H1, H2, H3 by no_esc_literal.
  repeat split; assumption.
Qed.

(** X19 — A middle row of a box.  For a text whose escape sequences are all
    closed, what is seen of [boxMid] is the text between ["│ "] and [" │"],
    padded with spaces up to [w] bytes.  If what is seen of the text is
    plain, the row is [max w len + 4] columns wide, [len] being the length
    of what is seen: as wide as a border row for [w + 2] when the text fits,
    wider when it does not. *)
Theorem boxMid_row T s w :
  escapes_closed s ->
  traceui.strip_ansi (traceui.boxMid T s w)
    = "│ " +:+ traceui.strip_ansi s
       +:+ traceui.repeat " " (w - String.length (traceui.strip_ansi s)) +:+ " │" /\
  ((forall c, c ∈ chars (traceui.strip_ansi s) -> (nat_of_ascii c < 128)%nat) ->
   columns (traceui.strip_ansi (traceui.boxMid T s w))
     = (Nat.max w (String.length (traceui.strip_ansi s)) + 4)%nat).
Proof.
  intros Hs. split; [exact (boxMid_strip T s w Hs)|].
  intros Hplain. exact (boxMid_columns T s w Hs Hplain).
Qed.

Lemma boxMid_row_witness :
  escapes_closed (traceui.fg (traceui.mkTerm true) 196 +:+ "[39]") /\
  traceui.strip_ansi (traceui.boxMid (traceui.mkTerm true)
                        (traceui.fg (traceui.mkTerm true) 196 +:+ "[39]") 6)
    = "│ [39]   │".
Proof.
  assert (escapes_closed (traceui.fg (traceui.mkTerm true) 196 +:+ "[39]")) as H
    by reflexivity.
  split; [exact H|].
  exact (proj1 (boxMid_row (traceui.mkTerm true) _ 6 H)).
Defined.

(** ** The trace display: role labels and colours *)

Lemma getRoles_letters p R r :
  r ∈ traceui.getRoles p R -> r ∈ ["H"; "P"; "C"; "N"; "S"]%char.
Proof.
  unfold traceui.getRoles. intros Hr.
  repeat (apply elem_of_app in Hr as [Hr|Hr];
          [case_decide; [apply list_elem_of_singleton in Hr as ->; set_solver
                        |apply elem_of_nil in Hr as []]|]).
  case_decide; [apply list_elem_of_singleton in Hr as ->; set_solver
               |apply elem_of_nil in Hr as []].
Qed.

Lemma roleLabel_loop_visible T : forall roles first,
  (forall r, r ∈ roles -> r ≠ traceui.ESC) ->
  traceui.strip_ansi_from false (traceui.roleLabel_loop T first roles)
    = traceui.roleLabelPlain_loop first roles /\
  escape_after false (traceui.roleLabel_loop T first roles) = false.
Proof.
  destruct (fg_invisible T traceui.C_TEXT) as [Ht1 Ht2].
  destruct (attr_invisible T) as ((Hr1 & Hr2) & (Hb1 & Hb2) & _).
  induction roles as [|r roles IH]; intros first Hroles; [split; reflexivity|].
  destruct (IH false) as [IH1 IH2]; [intros r' Hr'; apply Hroles; right; exact Hr'|].
  destruct (fg_invisible T (traceui.colorForRole r)) as [Hc1 Hc2].
  assert (Ascii.eqb r traceui.ESC = false) as Hresc
    by (apply Ascii.eqb_neq, Hroles; left).
  assert (traceui.strip_ansi_from false (String r "") = String r "" /\
          escape_after false (String r "") = false) as [Hl1 Hl2]
    by (simpl; rewrite Hresc; split; reflexivity).
  cbn [traceui.roleLabel_loop traceui.roleLabelPlain_loop].
  destruct first.
  - rewrite !strip_from_app, !escape_after_app.
    change (escape_after false "") with false.
    rewrite Hc2, Hb2, Hl2, Hr2, Hc1, Hb1, Hl1, Hr1, IH1, IH2.
    rewrite !string_app_nil_l. split; reflexivity.
  - assert (traceui.strip_ansi_from false "/" = "/" /\ escape_after false "/" = false)
      as [Hs1 Hs2] by (split; reflexivity).
    rewrite !strip_from_app, !escape_after_app.
    rewrite Ht2, Hs2, Hr2, Hc2, Hb2, Hl2, Hr2, Ht1, Hs1, Hr1, Hc1, Hb1, Hl1, IH1, IH2.
    rewrite !string_app_nil_l. split; reflexivity.
Qed.

Lemma roleLabelPlain_loop_length : forall roles first,
  String.length (traceui.roleLabelPlain_loop first roles)
    = (2 * length roles - (if first then 1 else 0) * (if roles is [] then 0 else 1))%nat.
Proof.
  induction roles as [|r roles IH]; intros first; [destruct first; reflexivity|].
  cbn [traceui.roleLabelPlain_loop]. rewrite !string_length_app, IH.
  destruct first, roles; simpl; lia.
Qed.

(** X20 — The label under a node.  With colours on or off, what is seen of
    [roleLabel] is exactly [roleLabelPlain], the text whose length the
    display uses to centre the label, and every escape sequence in it is
    closed.  The plain label is never empty: one space for a node without a
    role, otherwise the role letters with a slash between them. *)
Theorem roleLabel_visible T p R :
  traceui.strip_ansi (traceui.roleLabel T p R) = traceui.roleLabelPlain p R /\
  escapes_closed (traceui.roleLabel T p R) /\
  String.length (traceui.roleLabelPlain p R)
    = Nat.max 1 (2 * length (traceui.getRoles p R) - 1).
Proof.
  unfold traceui.roleLabel, traceui.roleLabelPlain, escapes_closed, traceui.strip_ansi.
  pose proof (getRoles_letters p R) as Hletters.
  destruct (traceui.getRoles p R) as [|r roles] eqn:E; [repeat split; reflexivity|].
  destruct (roleLabel_loop_visible T (r :: roles) true) as [H1 H2].
  { intros r' Hr'. apply Hletters in Hr'.
    repeat (apply elem_of_cons in Hr' as [->|Hr']; [discriminate|]).
    apply elem_of_nil in Hr' as []. }
  split; [exact H1|]. split; [exact H2|].
  rewrite roleLabelPlain_loop_length. simpl. lia.
Qed.

Ltac role_case r :=
  exists r;
  split; [simpl; solve [repeat first [apply list_elem_of_here | apply list_elem_of_further]]|];
  split; [reflexivity|];
  let r' := fresh "r" in let Hr' := fresh "Hr" in
  intros r' Hr'; simpl in Hr';
  repeat (apply elem_of_cons in Hr' as [->|Hr'];
          [first [ left; reflexivity
                 | right;
                   solve [repeat first [ apply sublist_nil_l | apply sublist_skip
                                       | apply sublist_cons ]] ]|]);
  apply elem_of_nil in Hr' as [].

(** X21 — The colour of a node agrees with its label.  A node is drawn in
    the text colour exactly when it has no role; otherwise in the colour of
    one of the roles its label shows, [C] before [S] before [P] before [N]
    before [H]. *)
Theorem roleColor_of_role p R :
  (traceui.roleColor p R = traceui.C_TEXT <-> traceui.getRoles p R = []) /\
  (traceui.getRoles p R ≠ [] ->
   exists r, r ∈ traceui.getRoles p R /\
             traceui.roleColor p R = traceui.colorForRole r /\
             forall r', r' ∈ traceui.getRoles p R ->
               (r' = r \/ [r; r'] `sublist_of` ["C"; "S"; "P"; "N"; "H"]%char)).
Proof.
  unfold traceui.roleColor, traceui.getRoles.
  destruct (decide (p = traceui.C R)) as [HC|HC];
    destruct (decide (p = traceui.S R)) as [HS|HS];
    destruct (decide (p = traceui.P R)) as [HP|HP];
    destruct (decide (p = traceui.N R)) as [HN|HN];
    destruct (decide (p = traceui.H R)) as [HH|HH];
    (split; [split; intros E; first [discriminate E|reflexivity]|]);
    intros Hne; try (exfalso; apply Hne; reflexivity);
    lazymatch goal with
    | _ : p = traceui.C R |- _ => role_case "C"%char
    | _ : p = traceui.S R |- _ => role_case "S"%char
    | _ : p = traceui.P R |- _ => role_case "P"%char
    | _ : p = traceui.N R |- _ => role_case "N"%char
    | _ : p = traceui.H R |- _ => role_case "H"%char
    end.
Qed.

Lemma roleColor_of_role_witness :
  traceui.getRoles (Some 10%positive)
    (traceui.mkPtrRoles (Some 10%positive) (Some 10%positive) (Some 11%positive)
                        (Some 12%positive) None) ≠ [] /\
  exists r,
    r ∈ traceui.getRoles (Some 10%positive)
          (traceui.mkPtrRoles (Some 10%positive) (Some 10%positive) (Some 11%positive)
                              (Some 12%positive) None) /\
    traceui.roleColor (Some 10%positive)
      (traceui.mkPtrRoles (Some 10%positive) (Some 10%positive) (Some 11%positive)
                          (Some 12%positive) None) = traceui.colorForRole r.
Proof.
  split; [vm_compute; discriminate|].
  destruct (proj2 (roleColor_of_role (Some 10%positive)
                     (traceui.mkPtrRoles (Some 10%positive) (Some 10%positive)
                                         (Some 11%positive) (Some 12%positive) None)))
    as (r & Hr & Hc & _); [vm_compute; discriminate|].
  exists r. split; [exact Hr|exact Hc].
Defined.

(** ** The trace display: a snapshot *)

Lemma plain_text_app a b : plain_text a -> plain_text b -> plain_text (a +:+ b).
Proof.
  intros Ha Hb c Hc. rewrite chars_app in Hc. apply elem_of_app in Hc as [Hc|Hc]; auto.
Qed.

Lemma plain_text_repeat s n : plain_text s -> plain_text (traceui.repeat s n).
Proof.
  intros Hs. induction n as [|n IH]; [intros c Hc; apply elem_of_nil in Hc as []|].
  cbn [traceui.repeat]. apply plain_text_app; assumption.
Qed.

Ltac plain_literal :=
  let c := fresh "c" in let Hc := fresh "Hc" in
  intros c Hc; apply list_elem_of_In in Hc; vm_compute in Hc;
  repeat (destruct Hc as [<-|Hc]; [split; [discriminate|vm_compute; lia]|]);
  destruct Hc.

Lemma plain_text_strip s :
  plain_text s ->
  traceui.strip_ansi_from false s = s /\ escape_after false s = false /\
  columns s = String.length s.
Proof.
  intros Hs. destruct (no_esc_closed s) as [H1 H2]; [intros Hc; apply Hs in Hc as [? _]; auto|].
  split; [exact H1|]. split; [exact H2|]. apply plain_columns.
  intros c Hc. apply Hs, Hc.
Qed.

Lemma roleLabelPlain_loop_plain : forall l first,
  (forall r, r ∈ l -> r ∈ ["H"; "P"; "C"; "N"; "S"]%char) ->
  plain_text (traceui.roleLabelPlain_loop first l).
Proof.
  induction l as [|r l IH]; intros first Hl.
  - intros c Hc. apply elem_of_nil in Hc as [].
  - cbn [traceui.roleLabelPlain_loop].
    apply plain_text_app; [destruct first; plain_literal|].
    apply plain_text_app; [|apply IH; intros r' Hr'; apply Hl; right; exact Hr'].
    assert (r ∈ ["H"; "P"; "C"; "N"; "S"]%char) as Hr by (apply Hl; left).
    repeat (apply elem_of_cons in Hr as [->|Hr]; [plain_literal|]).
    apply elem_of_nil in Hr as [].
Qed.

Lemma roleLabelPlain_plain p R : plain_text (traceui.roleLabelPlain p R).
Proof.
  unfold traceui.roleLabelPlain. pose proof (getRoles_letters p R) as Hletters.
  destruct (traceui.getRoles p R) as [|r roles]; [plain_literal|].
  apply roleLabelPlain_loop_plain, Hletters.
Qed.

Lemma roleLabel_spec T p R :
  traceui.strip_ansi_from false (traceui.roleLabel T p R) = traceui.roleLabelPlain p R /\
  escape_after false (traceui.roleLabel T p R) = false.
Proof.
  unfold traceui.roleLabel, traceui.roleLabelPlain.
  pose proof (getRoles_letters p R) as Hletters.
  destruct (traceui.getRoles p R) as [|r roles] eqn:E; [split; reflexivity|].
  apply (roleLabel_loop_visible T (r :: roles) true).
  intros r' Hr'. apply Hletters in Hr'.
  repeat (apply elem_of_cons in Hr' as [->|Hr']; [discriminate|]).
  apply elem_of_nil in Hr' as [].
Qed.

Lemma print_state_scan_spec m : forall l p fuel,
  is_list (nodes m) p l ->
  (length l < fuel)%nat ->
  exists tokens,
    traceui.print_state_scan fuel p m = Ok (Some <$> l, tokens) m /\
    length tokens = length l /\
    Forall plain_text tokens.
Proof.
  unfold is_list. induction l as [|a l IH]; intros p fuel Hl Hfuel;
    (destruct fuel as [|fuel]; [simpl in Hfuel; lia|]); simpl in Hl.
  - subst p. exists []. split; [reflexivity|]. split; [reflexivity|constructor].
  - destruct Hl as (-> & n & Hn & Hl). simpl in Hfuel.
    destruct (IH (next n) fuel Hl) as (tokens & Hscan & Hlen & Hplain); [lia|].
    eexists. split.
    { cbn [traceui.print_state_scan].
      rewrite (bind_Ok _ _ m (data n) m) by (unfold get_data; rewrite Hn; reflexivity).
      rewrite (bind_Ok _ _ m (next n) m) by (unfold get_next; rewrite Hn; reflexivity).
      rewrite (bind_Ok _ _ _ _ _ Hscan). reflexivity. }
    split; [simpl; lia|]. constructor; [|exact Hplain].
    apply plain_text_app; [plain_literal|].
    apply plain_text_app; [apply to_string_plain|].
    apply plain_text_app; [plain_literal|]. destruct (next n); plain_literal.
Qed.

Lemma print_state_line1_spec T R : forall order tokens,
  Forall plain_text tokens ->
  exists s,
    traceui.strip_ansi_from false (traceui.print_state_line1 T R order tokens) = s /\
    escape_after false (traceui.print_state_line1 T R order tokens) = false /\
    plain_text s.
Proof.
  destruct (attr_invisible T) as ((Hr1 & Hr2) & (Hb1 & Hb2) & _).
  induction order as [|node order IH]; intros tokens Htok.
  - exists "". split; [reflexivity|]. split; [reflexivity|].
    intros c Hc. apply elem_of_nil in Hc as [].
  - destruct tokens as [|token tokens].
    + exists "". split; [reflexivity|]. split; [reflexivity|].
      intros c Hc. apply elem_of_nil in Hc as [].
    + apply Forall_cons in Htok as [Htoken Htok].
      destruct (IH tokens Htok) as (s & Hs1 & Hs2 & Hs3).
      destruct (fg_invisible T (traceui.roleColor node R)) as [Hf1 Hf2].
      destruct (plain_text_strip token Htoken) as (Ht1 & Ht2 & _).
      exists (token +:+ s). cbn [traceui.print_state_line1].
      rewrite !strip_from_app, !escape_after_app.
      rewrite Hf2, Hb2, Ht2, Hr2, Hf1, Hb1, Ht1, Hr1, Hs1, Hs2.
      rewrite !string_app_nil_l. split; [reflexivity|]. split; [reflexivity|].
      apply plain_text_app; assumption.
Qed.

Lemma print_state_labels_spec T R m : forall order tokens,
  (forall a, Some a ∈ order -> is_Some (nodes m !! a)) ->
  exists line2 line2_plain,
    traceui.print_state_labels T R order tokens m = Ok (line2, line2_plain) m /\
    traceui.strip_ansi_from false line2 = line2_plain /\
    escape_after false line2 = false /\
    plain_text line2_plain.
Proof.
  assert (plain_text " ") as Hsp by plain_literal.
  induction order as [|node order IH]; intros tokens Halloc.
  - exists "", "". split; [reflexivity|]. split; [reflexivity|]. split; [reflexivity|].
    intros c Hc. apply elem_of_nil in Hc as [].
  - destruct tokens as [|token tokens].
    + exists "", "". split; [reflexivity|]. split; [reflexivity|]. split; [reflexivity|].
      intros c Hc. apply elem_of_nil in Hc as [].
    + destruct (IH tokens) as (l2 & l2p & Hrun & Hs1 & Hs2 & Hs3).
      { intros a Ha. apply Halloc. right. exact Ha. }
      destruct node as [a|]; [|exists l2, l2p; auto].
      destruct (Halloc a) as [n Hn]; [left|].
      cbn [traceui.print_state_labels].
      rewrite (bind_Ok _ _ m (data n) m) by (unfold get_data; rewrite Hn; reflexivity).
      rewrite (bind_Ok _ _ _ _ _ Hrun). unfold ret. cbn [fst snd].
      eexists _, _. split; [reflexivity|].
      destruct (roleLabel_spec T (Some a) R) as [Hl1 Hl2].
      match goal with
      | |- context [traceui.repeat " " ?x +:+ traceui.roleLabel T (Some a) R +:+
                    traceui.repeat " " ?y +:+ l2] => set (pr := y); set (pl := x)
      end.
      destruct (plain_text_strip _ (plain_text_repeat " " pl Hsp)) as (Ha1 & Ha2 & _).
      destruct (plain_text_strip _ (plain_text_repeat " " pr Hsp)) as (Hb1 & Hb2 & _).
      rewrite !strip_from_app, !escape_after_app.
      rewrite Ha2, Hl2, Hb2, Ha1, Hl1, Hb1, Hs1, Hs2.
      split; [reflexivity|]. split; [reflexivity|].
      apply plain_text_app; [apply plain_text_repeat, Hsp|].
      apply plain_text_app; [apply roleLabelPlain_plain|].
      apply plain_text_app; [apply plain_text_repeat, Hsp|exact Hs3].
Qed.

Lemma buildLegend_spec T :
  traceui.strip_ansi_from false (traceui.buildLegend T)
    = "H=head P=prev C=curr N=next S=spot" /\
  escape_after false (traceui.buildLegend T) = false.
Proof. destruct T as [[|]]; split; vm_compute; reflexivity. Qed.

Lemma boxMid_fits T s w visible :
  traceui.strip_ansi_from false s = visible ->
  escape_after false s = false ->
  plain_text visible ->
  (String.length visible <= w)%nat ->
  columns (traceui.strip_ansi (traceui.boxMid T s w)) = (w + 4)%nat.
Proof.
  intros Hv Hs Hp Hlen. rewrite boxMid_columns; [| exact Hs |].
  - unfold traceui.strip_ansi. rewrite Hv. lia.
  - unfold traceui.strip_ansi. rewrite Hv. intros c Hc. apply Hp, Hc.
Qed.

Lemma print_state_rows_spec T m l fuel title head R isolated :
  is_list (nodes m) head l ->
  (length l < fuel)%nat ->
  (forall a, isolated = Some a -> is_Some (nodes m !! a)) ->
  plain_text title ->
  exists rows w,
    traceui.print_state_rows T fuel title head R isolated m = Ok rows m /\
    (forall row, row ∈ rows -> columns (traceui.strip_ansi row) = (w + 4)%nat) /\
    length rows = match isolated with Some _ => 9%nat | None => 8%nat end.
Proof.
  intros Hl Hfuel Hiso Htitle.
  destruct (print_state_scan_spec m l head fuel Hl Hfuel) as (tokens & Hscan & Hlen & Hplain).
  unfold traceui.print_state_rows. rewrite (bind_Ok _ _ _ _ _ Hscan). cbn [fst snd].
  set (order := match tokens with [] => [None] | _ => Some <$> l end).
  set (tokens' := match tokens with [] => ["(empty)"] | _ => tokens end).
  assert (Forall plain_text tokens') as Hplain'.
  { subst tokens'. destruct tokens; [|exact Hplain]. constructor; [plain_literal|constructor]. }
  assert (forall a, Some a ∈ order -> is_Some (nodes m !! a)) as Halloc.
  { subst order. intros a Ha. destruct tokens.
    - apply list_elem_of_singleton in Ha. discriminate.
    - apply list_elem_of_fmap in Ha as (b & [= <-] & Hb).
      exact (lseg_lookup _ _ _ _ _ Hl Hb). }
  destruct (print_state_line1_spec T R order tokens' Hplain') as (s1 & Hs1 & Hc1 & Hp1).
  destruct (print_state_labels_spec T R m order tokens' Halloc)
    as (l2 & l2p & Hlabels & Hs2 & Hc2 & Hp2).
  rewrite (bind_Ok _ _ _ _ _ Hlabels). cbn [fst snd].
  destruct (buildLegend_spec T) as [Hleg1 Hleg2].
  destruct (attr_invisible T) as ((Hr1 & Hr2) & (Hb1 & Hb2) & (Hd1 & Hd2)).
  destruct (fg_invisible T traceui.C_TITLE) as [Hft1 Hft2].
  destruct (fg_invisible T traceui.C_CURR) as [Hfc1 Hfc2].
  destruct (plain_text_strip title Htitle) as (Ht1 & Ht2 & _).
  assert (plain_text "  ") as Hsp2 by plain_literal.
  destruct (plain_text_strip "  " Hsp2) as (Hsp1 & Hspc & _).
  assert (plain_text "H=head P=prev C=curr N=next S=spot") as Hlegp by plain_literal.
  (* what is seen of the four texts, and that their escapes are closed *)
  assert (traceui.strip_ansi_from false
            (traceui.fg T traceui.C_TITLE +:+ traceui.bold T +:+ title +:+ traceui.reset T)
          = title /\
          escape_after false
            (traceui.fg T traceui.C_TITLE +:+ traceui.bold T +:+ title +:+ traceui.reset T)
          = false) as [Htl1 Htl2].
  { rewrite !strip_from_app, !escape_after_app, Hft2, Hb2, Ht2, Hr2, Hft1, Hb1, Ht1, Hr1.
    rewrite !string_app_nil_l, string_app_nil_r. split; reflexivity. }
  assert (traceui.strip_ansi_from false ("  " +:+ traceui.print_state_line1 T R order tokens')
          = "  " +:+ s1 /\
          escape_after false ("  " +:+ traceui.print_state_line1 T R order tokens') = false)
    as [Hl11 Hl12].
  { rewrite strip_from_app, escape_after_app, Hspc, Hsp1, Hs1, Hc1. split; reflexivity. }
  assert (traceui.strip_ansi_from false ("  " +:+ l2) = "  " +:+ l2p /\
          escape_after false ("  " +:+ l2) = false) as [Hl21 Hl22].
  { rewrite strip_from_app, escape_after_app, Hspc, Hsp1, Hs2, Hc2. split; reflexivity. }
  cbv zeta.
  change (traceui.strip_ansi_from false) with traceui.strip_ansi in Hl11, Hleg1.
  rewrite !Hl11, !Hleg1.
  change traceui.strip_ansi with (traceui.strip_ansi_from false) in Hl11, Hleg1.
  set (w0 := Nat.max (String.length ("  " +:+ s1)) _).
  assert (String.length ("  " +:+ s1) <= w0 /\ String.length ("  " +:+ l2p) <= w0 /\
          String.length title <= w0 /\
          String.length "H=head P=prev C=curr N=next S=spot" <= w0)%nat as (Hw1 & Hw2 & Hw3 & Hw4)
    by (subst w0; lia).
  clearbody w0.
  destruct isolated as [iso|].
  - destruct (Hiso iso eq_refl) as [n Hn].
    rewrite (bind_Ok _ _ m (data n) m) by (unfold get_data; rewrite Hn; reflexivity).
    set (plainI := "C (isolated): [" +:+ to_string (data n) +:+ "]").
    set (w := Nat.max w0 (String.length plainI)).
    assert (plain_text plainI) as HpI.
    { subst plainI. apply plain_text_app; [plain_literal|].
      apply plain_text_app; [apply to_string_plain|plain_literal]. }
    destruct (plain_text_strip _ (to_string_plain (data n))) as (Hv1 & Hv2 & _).
    eexists _, w. split; [reflexivity|]. split; [|reflexivity].
    destruct (box_border_columns T (w + 2)) as (Hb_top & Hb_div & Hb_bot).
    intros row Hrow.
    repeat (apply elem_of_cons in Hrow as [->|Hrow]).
    + rewrite Hb_top. lia.
    + apply (boxMid_fits T _ w title Htl1 Htl2 Htitle). subst w. lia.
    + rewrite Hb_div. lia.
    + apply (boxMid_fits T _ w _ Hl11 Hl12); [|subst w; lia].
      apply plain_text_app; assumption.
    + apply (boxMid_fits T _ w _ Hl21 Hl22); [|subst w; lia].
      apply plain_text_app; assumption.
    + apply (boxMid_fits T _ w plainI); [| |exact HpI|subst w; lia].
      * rewrite !strip_from_app.
        repeat first [ rewrite Hfc2 | rewrite Hb2 | rewrite Hr2 | rewrite Hd2 | rewrite Hv2
                     | progress change (escape_after false "C") with false
                     | progress change (escape_after false " (isolated): ") with false
                     | progress change (escape_after false "[") with false
                     | progress change (escape_after false "]") with false ].
        rewrite Hfc1, Hb1, Hr1, Hd1, Hv1.
        change (traceui.strip_ansi_from false "C") with "C".
        change (traceui.strip_ansi_from false " (isolated): ") with " (isolated): ".
        change (traceui.strip_ansi_from false "[") with "[".
        change (traceui.strip_ansi_from false "]") with "]".
        rewrite !string_app_nil_l, ?string_app_nil_r. reflexivity.
      * rewrite !escape_after_app.
        repeat first [ rewrite Hfc2 | rewrite Hb2 | rewrite Hr2 | rewrite Hd2 | rewrite Hv2
                     | progress change (escape_after false "C") with false
                     | progress change (escape_after false " (isolated): ") with false
                     | progress change (escape_after false "[") with false
                     | progress change (escape_after false "]") with false ].
        reflexivity.
    + rewrite Hb_div. lia.
    + apply (boxMid_fits T _ w _ Hleg1 Hleg2 Hlegp). subst w. lia.
    + rewrite Hb_bot. lia.
    + apply elem_of_nil in Hrow as [].
  - eexists _, w0. split; [reflexivity|]. split; [|reflexivity].
    destruct (box_border_columns T (w0 + 2)) as (Hb_top & Hb_div & Hb_bot).
    intros row Hrow.
    repeat (apply elem_of_cons in Hrow as [->|Hrow]).
    + rewrite Hb_top. lia.
    + apply (boxMid_fits T _ w0 title Htl1 Htl2 Htitle). lia.
    + rewrite Hb_div. lia.
    + apply (boxMid_fits T _ w0 _ Hl11 Hl12); [|lia].
      apply plain_text_app; assumption.
    + apply (boxMid_fits T _ w0 _ Hl21 Hl22); [|lia].
      apply plain_text_app; assumption.
    + rewrite Hb_div. lia.
    + apply (boxMid_fits T _ w0 _ Hleg1 Hleg2 Hlegp). lia.
    + rewrite Hb_bot. lia.
    + apply elem_of_nil in Hrow as [].
Qed.

(** X22 — A snapshot is a rectangle, and only looks.  On a finite list
    [print_state] returns and leaves the heap as it is; when the title is
    plain text, every row it writes is equally wide on the terminal, with
    colours on or off: eight rows, nine when an isolated node is shown. *)
Theorem print_state_box T m l fuel title head R isolated :
  is_list (nodes m) head l ->
  (length l < fuel)%nat ->
  (forall a, isolated = Some a -> is_Some (nodes m !! a)) ->
  plain_text title ->
  exists rows w,
    traceui.print_state T fuel title head R isolated m
      = Ok (String "010"%char "" +:+ traceui.write_rows rows) m /\
    (forall row, row ∈ rows -> columns (traceui.strip_ansi row) = (w + 4)%nat) /\
    length rows = match isolated with Some _ => 9%nat | None => 8%nat end.
Proof.
  intros Hl Hfuel Hiso Htitle.
  destruct (print_state_rows_spec T m l fuel title head R isolated Hl Hfuel Hiso Htitle)
    as (rows & w & Hrows & Hcols & Hlen).
  exists rows, w. split; [|split; assumption].
  unfold traceui.print_state. rewrite (bind_Ok _ _ _ _ _ Hrows). reflexivity.
Qed.

Lemma print_state_box_witness :
  is_list (nodes (heap_of [39; 45; 11])) (Some 10%positive) [10; 11; 12]%positive /\
  plain_text "BEFORE place" /\
  exists rows w,
    traceui.print_state (traceui.mkTerm true) 4 "BEFORE place" (Some 10%positive)
      (traceui.mkPtrRoles (Some 10%positive) (Some 11%positive) (Some 12%positive) None None)
      None (heap_of [39; 45; 11])
      = Ok (String "010"%char "" +:+ traceui.write_rows rows) (heap_of [39; 45; 11]) /\
    (forall row, row ∈ rows -> columns (traceui.strip_ansi row) = (w + 4)%nat).
Proof.
  assert (is_list (nodes (heap_of [39; 45; 11])) (Some 10%positive) [10; 11; 12]%positive)
    as Hl by (apply (walk_is_list 3); vm_compute; reflexivity).
  assert (plain_text "BEFORE place") as Ht by plain_literal.
  split; [exact Hl|]. split; [exact Ht|].
  destruct (print_state_box (traceui.mkTerm true) _ _ 4 "BEFORE place" (Some 10%positive)
              (traceui.mkPtrRoles (Some 10%positive) (Some 11%positive) (Some 12%positive)
                 None None) None Hl)
    as (rows & w & Hrun & Hcols & _); [simpl; lia|discriminate|exact Ht|].
  exists rows, w. split; [exact Hrun|exact Hcols].
Defined.

(** ** The sort compiled with TRACE *)

Lemma trace_point T fuel title m lst l prev curr next spot isolated :
  list_at m lst l ->
  (length l < fuel)%nat ->
  (forall a, isolated = Some a -> is_Some (nodes m !! a)) ->
  plain_text title ->
  exists out, forall (A : Type) (k : string -> M A),
    (h <- get_head (Some lst);
     h' <- get_head (Some lst);
     out <- traceui.print_state T fuel title h
              (traceui.mkPtrRoles h' prev curr next spot) isolated;
     k out) m = k out m.
Proof.
  intros (L & HL & Hl) Hfuel Hiso Htitle.
  destruct (print_state_rows_spec T m l fuel title (head L)
              (traceui.mkPtrRoles (head L) prev curr next spot) isolated Hl Hfuel Hiso Htitle)
    as (rows & w & Hrows & _).
  exists (String "010"%char "" +:+ traceui.write_rows rows). intros A k.
  rewrite (bind_Ok _ _ m (head L) m) by (unfold get_head; rewrite HL; reflexivity).
  rewrite (bind_Ok _ _ m (head L) m) by (unfold get_head; rewrite HL; reflexivity).
  rewrite (bind_Ok _ _ m (String "010"%char "" +:+ traceui.write_rows rows) m);
    [reflexivity|].
  unfold traceui.print_state. rewrite (bind_Ok _ _ _ _ _ Hrows). reflexivity.
Qed.

Lemma body_TRACE_spec T sfuel m lst P p c R :
  list_at m lst (P ++ p :: c :: R) ->
  (length (P ++ p :: c :: R) < sfuel)%nat ->
  exists out r m',
    ListInsertionSort_body_TRACE T sfuel (Some lst) (Some p) (Some c) m = Ok (out, r) m' /\
    ListInsertionSort_body sfuel (Some lst) (Some p) (Some c) m = Ok r m'.
Proof.
  intros Hl Hfuel. pose proof (list_at_NoDup _ _ _ Hl) as Hnd.
  pose proof Hl as Hl0.
  assert (exists nc, nodes m !! c = Some nc /\ next nc = hd_error R) as (nc & Hnc & Hnext).
  { destruct Hl as (L & _ & Hl). unfold is_list in Hl.
    apply lseg_app in Hl as (r & _ & Hr). simpl in Hr.
    destruct Hr as (_ & np & _ & _ & nc & Hnc & HR).
    exists nc. split; [exact Hnc|]. destruct R as [|x R]; simpl in *; [exact HR|apply HR]. }
  replace (P ++ p :: c :: R) with ((P ++ [p]) ++ c :: R) in Hl, Hnd
    by (rewrite <- app_assoc; reflexivity).
  assert (c ∉ P ++ [p]) as HcP by chain_solve.
  destruct (place_scan m c (P ++ [p])) as (P2 & HP & _).
  set (P1 := scan_prefix m (node_data m c) None (P ++ [p])) in *.
  rewrite length_app in Hfuel. simpl in Hfuel.
  assert (FindInsertionSpot sfuel (Some lst) (node_data m c) (Some c) m = Ok (last P1) m)
    as Hscan.
  { pose proof (scan_prefix_length m (node_data m c) None (P ++ [p])) as Hle.
    fold P1 in Hle. rewrite length_app in Hle. simpl in Hle.
    rewrite (FindInsertionSpot_spec m lst _ _ _ sfuel Hl);
      rewrite scan_prefix_stop by exact HcP; fold P1; [|lia].
    rewrite decide_False; [reflexivity|]. intros [E _].
    apply (f_equal length) in E. rewrite !length_app in E. simpl in E. lia. }
  clearbody P1.
  rewrite (node_data_lookup _ _ _ Hnc) in Hscan.
  assert (get_next (Some c) m = Ok (next nc) m) as Hgn
    by (unfold get_next; rewrite Hnc; reflexivity).
  assert (get_data (Some c) m = Ok (data nc) m) as Hgd
    by (unfold get_data; rewrite Hnc; reflexivity).
  assert (plain_text "BEFORE place") as Ht1 by plain_literal.
  assert (plain_text "AFTER unlink") as Ht2 by plain_literal.
  assert (plain_text "AFTER insert (at head)") as Ht3 by plain_literal.
  assert (plain_text "AFTER insert at spot") as Ht4 by plain_literal.
  destruct (trace_point T sfuel "BEFORE place" m lst _ (Some p) (Some c) (next nc) (last P1)
              None Hl0) as (out1 & Hout1);
    [rewrite length_app; simpl; lia|discriminate|exact Ht1|].
  destruct (decide (last P1 = Some p)) as [Hsp|Hsp].
  - eexists _, _, _. split.
    + unfold ListInsertionSort_body_TRACE.
      rewrite (bind_Ok _ _ _ _ _ Hgn), (bind_Ok _ _ _ _ _ Hgd), (bind_Ok _ _ _ _ _ Hscan).
      rewrite Hout1, decide_True by exact Hsp. reflexivity.
    + unfold ListInsertionSort_body.
      rewrite (bind_Ok _ _ _ _ _ Hgn), (bind_Ok _ _ _ _ _ Hgd), (bind_Ok _ _ _ _ _ Hscan).
      rewrite decide_True by exact Hsp. reflexivity.
  - destruct (last P2) as [x|] eqn:Hx; cycle 1.
    { apply last_None in Hx. subst P2. rewrite app_nil_r in HP.
      rewrite <- HP, last_snoc in Hsp. congruence. }
    assert (x = p) as ->.
    { pose proof (last_snoc p P) as Hlast. rewrite HP, last_app, Hx in Hlast. congruence. }
    apply last_Some in Hx as (P2' & ->).
    rewrite app_assoc in HP. apply app_inj_tail in HP as [HP _].
    assert (list_at m lst ((P1 ++ P2') ++ p :: c :: R)) as Hl'.
    { rewrite <- HP. rewrite <- app_assoc in Hl. exact Hl. }
    destruct (remove_after_chain _ _ _ _ _ _ Hl') as (m1 & Hrm & Hl1 & _ & Hv1 & _).
    assert (is_Some (nodes m1 !! c)) as Hc1 by (eapply same_values_alloc; eauto).
    assert (length P = length (P1 ++ P2')) as HlenP by (rewrite HP; reflexivity).
    destruct (trace_point T sfuel "AFTER unlink" m1 lst _ (Some p) (Some c) (next nc) (last P1)
                (Some c) Hl1) as (out2 & Hout2);
      [rewrite length_app; simpl; lia|intros a [= <-]; exact Hc1|exact Ht2|].
    rewrite HP, <- app_assoc in Hnd. simpl in Hnd.
    destruct (last P1) as [s|] eqn:Hs.
    + apply last_Some in Hs as (P1' & Hs). rewrite Hs in *.
      rewrite <- !app_assoc in Hl1. simpl in Hl1.
      destruct (insert_after_chain m1 lst P1' s (P2' ++ p :: R) c Hl1) as (m2 & Hins & Hl2 & Hv2);
        [rewrite <- !app_assoc in Hnd; simpl in Hnd; chain_solve|exact Hc1|].
      destruct (trace_point T sfuel "AFTER insert at spot" m2 lst _ (Some p) (Some c) (next nc)
                  (Some s) None Hl2) as (out3 & Hout3);
        [rewrite !length_app in *; simpl in *; rewrite ?length_app in *; simpl in *; lia
        |discriminate|exact Ht4|].
      eexists _, _, _. split.
      * unfold ListInsertionSort_body_TRACE.
        rewrite (bind_Ok _ _ _ _ _ Hgn), (bind_Ok _ _ _ _ _ Hgd), (bind_Ok _ _ _ _ _ Hscan).
        rewrite Hout1, decide_False by exact Hsp.
        rewrite (bind_Ok _ _ _ _ _ Hrm), Hout2, (bind_Ok _ _ _ _ _ Hins), Hout3.
        reflexivity.
      * unfold ListInsertionSort_body.
        rewrite (bind_Ok _ _ _ _ _ Hgn), (bind_Ok _ _ _ _ _ Hgd), (bind_Ok _ _ _ _ _ Hscan).
        rewrite decide_False by exact Hsp.
        rewrite (bind_Ok _ _ _ _ _ Hrm), (bind_Ok _ _ _ _ _ Hins). reflexivity.
    + apply last_None in Hs. rewrite Hs in *. simpl in *.
      destruct (prepend_chain m1 lst (P2' ++ p :: R) c Hl1) as (m2 & Hpre & Hl2 & Hv2);
        [chain_solve|exact Hc1|].
      destruct (trace_point T sfuel "AFTER insert (at head)" m2 lst _ (Some p) (Some c)
                  (next nc) None None Hl2) as (out3 & Hout3);
        [simpl; rewrite !length_app in *; simpl in *; lia|discriminate|exact Ht3|].
      eexists _, _, _. split.
      * unfold ListInsertionSort_body_TRACE.
        rewrite (bind_Ok _ _ _ _ _ Hgn), (bind_Ok _ _ _ _ _ Hgd), (bind_Ok _ _ _ _ _ Hscan).
        rewrite Hout1, decide_False by exact Hsp.
        rewrite (bind_Ok _ _ _ _ _ Hrm), Hout2, (bind_Ok _ _ _ _ _ Hpre), Hout3.
        reflexivity.
      * unfold ListInsertionSort_body.
        rewrite (bind_Ok _ _ _ _ _ Hgn), (bind_Ok _ _ _ _ _ Hgd), (bind_Ok _ _ _ _ _ Hscan).
        rewrite decide_False by exact Hsp.
        rewrite (bind_Ok _ _ _ _ _ Hrm), (bind_Ok _ _ _ _ _ Hpre). reflexivity.
Qed.

Lemma loop_TRACE_spec T sfuel lst : forall R fuel m P p,
  list_at m lst (P ++ p :: R) ->
  (length R < fuel)%nat ->
  (length (P ++ p :: R) < sfuel)%nat ->
  exists out m',
    ListInsertionSort_loop_TRACE T sfuel fuel (Some lst) (Some p) (hd_error R) m = Ok out m' /\
    ListInsertionSort_loop sfuel fuel (Some lst) (Some p) (hd_error R) m = Ok tt m'.
Proof.
  induction R as [|c R IH]; intros fuel m P p Hl Hfuel Hsfuel;
    (destruct fuel as [|fuel]; [simpl in Hfuel; lia|]); simpl.
  - exists "", m. split; reflexivity.
  - simpl in Hfuel. pose proof Hsfuel as Hsfuel'. rewrite length_app in Hsfuel'.
    simpl in Hsfuel'.
    destruct (body_TRACE_spec T sfuel m lst P p c R Hl Hsfuel) as (out1 & r & m1 & Htr & Hun).
    destruct (body_spec sfuel m lst P p c R Hl) as (m1' & Hbody & Hl1 & _); [lia|].
    rewrite Hun in Hbody. injection Hbody as Er Em. subst r m1'.
    rewrite (bind_Ok _ _ _ _ _ Htr), (bind_Ok _ _ _ _ _ Hun). simpl.
    destruct (last (place (node_data m) c (P ++ [p]))) as [p'|] eqn:Hlast; cycle 1.
    { apply last_None in Hlast. apply (f_equal length) in Hlast.
      rewrite place_length in Hlast. discriminate. }
    apply last_Some in Hlast as (P' & HP').
    assert (length P' = S (length P)) as Hlen.
    { apply (f_equal length) in HP'. rewrite place_length, !length_app in HP'.
      simpl in HP'. lia. }
    rewrite HP', <- app_assoc in Hl1. simpl in Hl1.
    destruct (IH fuel m1 P' p' Hl1) as (out & m' & Htr' & Hun');
      [lia|rewrite length_app; simpl; lia|].
    exists (out1 +:+ out), m'. rewrite (bind_Ok _ _ _ _ _ Htr'). split; [reflexivity|exact Hun'].
Qed.

(** X23 — Tracing does not change the sort.  On every finite list, with
    colours on or off, the sort compiled with TRACE returns, and the heap it
    leaves is the very heap the sort compiled without it leaves. *)
Theorem ListInsertionSort_TRACE_same_heap T m lst l fuel :
  list_at m lst l ->
  (length l < fuel)%nat ->
  exists out m',
    ListInsertionSort_TRACE T fuel (Some lst) m = Ok out m' /\
    ListInsertionSort fuel (Some lst) m = Ok tt m'.
Proof.
  intros Hl Hfuel. pose proof Hl as (L & HL & Hc). unfold is_list in Hc.
  unfold ListInsertionSort_TRACE, ListInsertionSort.
  repeat rewrite (bind_Ok _ _ m (head L) m) by (unfold get_head; rewrite HL; reflexivity).
  destruct l as [|a [|b R]]; simpl in Hc.
  - rewrite Hc. exists "", m. split; reflexivity.
  - destruct Hc as (Ha & na & Hna & Hn). rewrite Ha.
    repeat rewrite (bind_Ok _ _ m None m) by (unfold get_next; rewrite Hna, Hn; reflexivity).
    exists "", m. split; reflexivity.
  - destruct Hc as (Ha & na & Hna & Hn & _). rewrite Ha.
    repeat first
      [ rewrite (bind_Ok _ _ m (Some a) m) by (unfold get_head; rewrite HL, Ha; reflexivity)
      | rewrite (bind_Ok _ _ m (Some b) m) by (unfold get_next; rewrite Hna, Hn; reflexivity) ].
    simpl in Hfuel.
    exact (loop_TRACE_spec T fuel lst (b :: R) fuel m [] a Hl ltac:(simpl; lia)
             ltac:(simpl; lia)).
Qed.

Lemma ListInsertionSort_TRACE_same_heap_witness :
  list_at (heap_of [39; 45; 11; 22]) 1 [10; 11; 12; 13]%positive /\
  exists out m',
    ListInsertionSort_TRACE (traceui.mkTerm false) 5 (Some 1%positive)
      (heap_of [39; 45; 11; 22]) = Ok out m' /\
    ListInsertionSort 5 (Some 1%positive) (heap_of [39; 45; 11; 22]) = Ok tt m'.
Proof.
  assert (list_at (heap_of [39; 45; 11; 22]) 1 [10; 11; 12; 13]%positive) as Hl
    by (apply (list_at_nodes_of 4); vm_compute; reflexivity).
  split; [exact Hl|].
  exact (ListInsertionSort_TRACE_same_heap (traceui.mkTerm false) _ 1 _ 5 Hl
           ltac:(simpl; lia)).
Defined.

(** ** Inserting into a sorted list *)

(** X24 — Sorted insertion.  The scan with no boundary, followed by the
    driver's re-insertion step ([ListPrepend] when the spot is [nullptr],
    [ListInsertAfter] otherwise), puts a node that is linked to no list into
    a sorted list and leaves it sorted: the list gains this node, in front
    of the first node whose value is not less, and nothing else moves. *)
Theorem sorted_insert m lst l c fuel :
  list_at m lst l ->
  c ∉ l ->
  is_Some (nodes m !! c) ->
  sorted_chain (node_data m) l ->
  (length l < fuel)%nat ->
  exists m',
    (spot <- FindInsertionSpot fuel (Some lst) (node_data m c) None;
     match spot with
     | None => ListPrepend (Some lst) (Some c)
     | Some _ => ListInsertAfter (Some lst) spot (Some c)
     end) m = Ok tt m' /\
    list_at m' lst (place (node_data m) c l) /\
    sorted_chain (node_data m') (place (node_data m) c l) /\
    place (node_data m) c l ≡ₚ c :: l /\
    l `sublist_of` place (node_data m) c l /\
    same_values m m'.
Proof.
  intros Hl Hc Hn Hsorted Hfuel.
  destruct (place_scan m c l) as (P2 & HP & Hplace).
  pose proof (scan_prefix_length m (node_data m c) None l) as Hle.
  assert (FindInsertionSpot fuel (Some lst) (node_data m c) None m =
            Ok (last (scan_prefix m (node_data m c) None l)) m) as Hscan.
  { rewrite (FindInsertionSpot_spec m lst l _ _ fuel Hl) by lia.
    apply decide_False. intros [_ ?]. congruence. }
  remember (scan_prefix m (node_data m c) None l) as P1 eqn:EP1. clear EP1 Hle.
  rewrite (bind_Ok _ _ _ _ _ Hscan).
  assert (forall m', same_values m m' ->
            sorted_chain (node_data m') (place (node_data m) c l)) as Hs.
  { intros m' Hv. apply (sorted_chain_ext (node_data m));
      [intros a; eapply same_values_data; eauto|].
    apply place_sorted, Hsorted. }
  assert (l `sublist_of` place (node_data m) c l) as Hsub
    by (apply place_keeps_order; reflexivity).
  destruct (last P1) as [s|] eqn:Hlast.
  - apply last_Some in Hlast as (P1' & ->). rewrite <- app_assoc in HP, Hplace.
    simpl in HP, Hplace. rewrite HP in Hl, Hc.
    destruct (insert_after_chain m lst P1' s P2 c Hl Hc Hn) as (m' & Hrun & Hl' & Hv).
    exists m'. split; [exact Hrun|]. rewrite Hplace at 1. split; [exact Hl'|].
    split; [exact (Hs m' Hv)|]. split; [apply place_perm|]. split; [exact Hsub|exact Hv].
  - apply last_None in Hlast. subst P1. simpl in HP, Hplace. rewrite <- HP in Hplace.
    destruct (prepend_chain m lst l c Hl Hc Hn) as (m' & Hrun & Hl' & Hv).
    exists m'. split; [exact Hrun|]. rewrite Hplace at 1. split; [exact Hl'|].
    split; [exact (Hs m' Hv)|]. split; [apply place_perm|]. split; [exact Hsub|exact Hv].
Qed.

Lemma sorted_insert_witness :
  list_at (with_spare (heap_of [11; 39; 45]) 99 22) 1 [10; 11; 12]%positive /\
  exists m',
    (spot <- FindInsertionSpot 4 (Some 1%positive)
               (node_data (with_spare (heap_of [11; 39; 45]) 99 22) 99) None;
     match spot with
     | None => ListPrepend (Some 1%positive) (Some 99%positive)
     | Some _ => ListInsertAfter (Some 1%positive) spot (Some 99%positive)
     end) (with_spare (heap_of [11; 39; 45]) 99 22) = Ok tt m' /\
    list_at m' 1 [10; 99; 11; 12]%positive.
Proof.
  assert (list_at (with_spare (heap_of [11; 39; 45]) 99 22) 1 [10; 11; 12]%positive) as Hl
    by (apply (list_at_nodes_of 3); vm_compute; reflexivity).
  split; [exact Hl|].
  destruct (sorted_insert _ 1 _ 99 4 Hl) as (m' & Hrun & Hl' & _).
  - set_solver.
  - vm_compute. eauto.
  - intros [|[|[|i]]] a b Ha Hb; simpl in Ha, Hb; try discriminate;
      injection Ha as <-; injection Hb as <-; vm_compute; discriminate.
  - simpl. lia.
  - exists m'. split; [exact Hrun|]. exact Hl'.
Defined.

(** ** The footprint of the sort *)


















